(** * president_classifier: the PA2 transformer harness, embedded and verified

    A shallow embedding of [PA2_code/transformer.py] and [PA2_code/main.py].

    Conventions of the embedding.
    - A torch tensor is a nested list: a vector is [list R], a matrix a list of
      rows, a rank-3 tensor a list of matrices (batch first).  Integer tensors
      (token ids, labels) hold [Z].
    - The entries of a float tensor are read in two ways.  In the exact
      reading they are real numbers: it carries the statements on shapes,
      exceptions and the flow of data, which no rounding changes.  In the
      float32 reading (module [F32]) they are IEEE binary32 values, with NaN
      and the two infinities, and every operation rounds: it carries the
      statements on the values of the softmax rows (the attention weights, the
      class probabilities), which are stated for every tensor of scores or
      of representations of the right shape, so that they do not depend on
      the order in which a matrix product adds its terms.
    - A Python exception is a value: every operation that can raise returns
      [result], and [let*] threads the first exception through.
    - Python call binding is explicit: an argument that a call site does not
      supply is [Missing]; a parameter without a default that is [Missing]
      raises [TypeError], as CPython does.
    - Device placement is not modelled: every tensor of a run is taken to
      live on the device handed to [forward].  Neither is the training flag
      that [eval()] and [train()] toggle: the models have no dropout, so it
      changes no output. *)

From Stdlib Require Import String.
From Stdlib Require Import Bool Arith ZArith QArith Reals Lia Lra List Permutation.
Import ListNotations.

Close Scope Q_scope.
Close Scope R_scope.
Close Scope Z_scope.
Open Scope nat_scope.

(* ================================================================= *)
(** * Part I.  The program *)
(* ================================================================= *)

(** ** Exceptions and results *)

Inductive exn : Type :=
| TypeError
| ValueError
| RuntimeError
| IndexError
| ZeroDivisionError
| AttributeError.

Inductive result (A : Type) : Type :=
| Ok (a : A)
| Err (e : exn).

Arguments Ok {A} a.
Arguments Err {A} e.

Definition bind {A B : Type} (r : result A) (k : A -> result B) : result B :=
  match r with
  | Ok a => k a
  | Err e => Err e
  end.

Notation "'let*' x ':=' c 'in' k" := (bind c (fun x => k))
  (at level 10, x pattern, c at level 100, k at level 200).

(** [mapM f l]: apply [f] to the elements from left to right, stop at the
    first exception. *)
Fixpoint mapM {A B : Type} (f : A -> result B) (l : list A) : result (list B) :=
  match l with
  | [] => Ok []
  | a :: l' =>
      let* b := f a in
      let* bs := mapM f l' in
      Ok (b :: bs)
  end.

(** Python call binding: was the argument supplied by the call site? *)
Inductive arg (A : Type) : Type :=
| Missing
| Given (a : A).

Arguments Missing {A}.
Arguments Given {A} a.

(** A parameter with a default value. *)
Definition with_default {A : Type} (d : A) (a : arg A) : A :=
  match a with
  | Missing => d
  | Given v => v
  end.

(** A parameter without default: [TypeError: missing 1 required positional
    argument]. *)
Definition required {A : Type} (a : arg A) : result A :=
  match a with
  | Missing => Err TypeError
  | Given v => Ok v
  end.

(** ** constants.py

    The module is imported by both source files.  Only [block_size] has a
    value the sources themselves give (the comment on [max_iters] in main.py:
    block size of 32); the other sizes stay parameters of the statements. *)

Definition block_size : nat := 32.

(** ** Elementary list operations used for tensors *)

Fixpoint map2 {A B C : Type} (f : A -> B -> C) (l1 : list A) (l2 : list B) : list C :=
  match l1, l2 with
  | a :: l1', b :: l2' => f a b :: map2 f l1' l2'
  | _, _ => []
  end.

(** torch broadcasting of one dimension: equal sizes, or one of them is 1. *)
Definition broadcast (a b : nat) : option nat :=
  if (a =? b)%nat then Some a
  else if (a =? 1)%nat then Some b
  else if (b =? 1)%nat then Some a
  else None.

(** Stretch a dimension of size 1 to size [n]; other sizes are left alone
    (they already are [n] when [broadcast] succeeded). *)
Definition expand {A : Type} (n : nat) (l : list A) : list A :=
  match l with
  | [x] => repeat x n
  | _ => l
  end.

(** [x.shape[1]] of a batch-first nested list (0 when the batch is empty). *)
Definition shape1 {A : Type} (x : list (list A)) : nat :=
  match x with
  | [] => 0
  | r :: _ => length r
  end.

(** [zipM f a b]: [f] on the paired elements, first exception wins. *)
Definition zipM {A B C : Type} (f : A -> B -> result C) (a : list A) (b : list B)
  : result (list C) :=
  mapM (fun p => f (fst p) (snd p)) (combine a b).

(** ** Tensors of reals *)

Abbreviation vec := (list R) (only parsing).
Abbreviation mat := (list (list R)) (only parsing).
Abbreviation tensor3 := (list (list (list R))) (only parsing).

Definition sum (l : list R) : R := fold_right Rplus 0%R l.

Definition dot (a b : vec) : R := sum (map2 Rmult a b).

(** Mean of a non-empty list (torch gives NaN on an empty one). *)
Definition mean (l : list R) : R := (sum l / INR (length l))%R.

(** The columns of a matrix with at least one row. *)
Definition columns (m : mat) : list vec :=
  map (fun c => map (fun r => nth c r 0%R) m) (seq 0 (shape1 m)).

(** [a @ b] for [a] of shape (n, k) and [b] of shape (k, p), [k >= 1]. *)
Definition matmul (a b : mat) : mat :=
  map (fun row => map (fun col => dot row col) (columns b)) a.

(** [a @ b.transpose(-2, -1)]: entry (i, j) is the dot product of row [i] of
    [a] with row [j] of [b]. *)
Definition matmul_nt (a b : mat) : mat :=
  map (fun ai => map (fun bj => dot ai bj) b) a.

(** An affinity after masking: a real number or [float('-inf')]. *)
Inductive ext : Type :=
| NegInf
| Fin (r : R).

Definition eexp (x : ext) : R :=
  match x with
  | NegInf => 0%R
  | Fin r => exp r
  end.

(** [F.softmax] along the last axis.  A row that holds only [NegInf] is NaN in
    torch; the causal mask never produces one (the diagonal is kept). *)
Definition softmax (l : list ext) : vec :=
  map (fun x => (eexp x / sum (map eexp l))%R) l.

Definition F_relu (x : R) : R := Rmax 0 x.

(** Elementwise sum of two vectors, with torch broadcasting on their length. *)
Definition add_vec (a b : vec) : result vec :=
  match broadcast (length a) (length b) with
  | Some n => Ok (map2 Rplus (expand n a) (expand n b))
  | None => Err RuntimeError
  end.

(** [a + b] for two tensors whose leading dimensions agree. *)
Definition add3 (a b : tensor3) : result tensor3 :=
  zipM (zipM add_vec) a b.

(** [torch.tril(torch.ones(n, n))]: entry (i, j) is 1 when [j <= i], else 0.
    The buffer only ever holds 0.0 and 1.0, kept here as integers. *)
Definition tril_ones (n : nat) : list (list Z) :=
  map (fun i => map (fun j => if j <=? i then 1%Z else 0%Z) (seq 0 n)) (seq 0 n).

(** [m[:r, :c]]. *)
Definition slice2 {A : Type} (m : list (list A)) (r c : nat) : list (list A) :=
  map (firstn c) (firstn r m).

(** One cell of [masked_fill]. *)
Definition fill {A : Type} (value : A) (x : A) (m : bool) : A :=
  if m then value else x.

(** [input.masked_fill(mask, value)] for an input of shape (B, T, T) and a
    two-dimensional mask: the mask is broadcast against the last two
    dimensions; sizes that do not broadcast raise RuntimeError. *)
Definition masked_fill {A : Type} (input : list (list (list A))) (T : nat)
    (mask : list (list bool)) (value : A) : result (list (list (list A))) :=
  match broadcast T (length mask), broadcast T (shape1 mask) with
  | Some r, Some c =>
      Ok (map (fun w =>
                 map2 (fun wrow mrow =>
                         map2 (fill value) (expand c wrow) (expand c mrow))
                      (expand r w) (expand r mask))
              input)
  | _, _ => Err RuntimeError
  end.

(** ** transformer.py *)

(** [nn.Linear]: weight of shape (out_features, in_features). *)
Module Linear.

Record t : Type := mk {
  in_features : nat;
  out_features : nat;
  weight : mat;
  bias : option vec
}.

(** The shapes [nn.Linear(i, o)] gives its parameters. *)
Definition wf (i o : nat) (self : t) : Prop :=
  in_features self = i /\ out_features self = o
  /\ length (weight self) = o
  /\ Forall (fun row => length row = i) (weight self)
  /\ match bias self with
     | Some b => length b = o
     | None => True
     end.

(** On one feature vector; a last dimension other than [in_features] is a
    shape error. *)
Definition forward (self : t) (x : vec) : result vec :=
  if length x =? in_features self then
    Ok match bias self with
       | Some b => map2 (fun w bo => (dot x w + bo)%R) (weight self) b
       | None => map (fun w => dot x w) (weight self)
       end
  else Err RuntimeError.

(** On a tensor of shape (B, T, in_features). *)
Definition forward3 (self : t) (x : tensor3) : result tensor3 :=
  mapM (mapM (forward self)) x.

End Linear.

(** [nn.LayerNorm(n)] with its default [eps = 1e-5]. *)
Module LayerNorm.

Record t : Type := mk {
  normalized_shape : nat;
  weight : vec;
  bias : vec
}.

Definition eps : R := (1 / 100000)%R.

Definition wf (n : nat) (self : t) : Prop :=
  normalized_shape self = n /\ length (weight self) = n /\ length (bias self) = n.

Definition forward (self : t) (x : vec) : result vec :=
  if length x =? normalized_shape self then
    let mu := mean x in
    let var := mean (map (fun xi => ((xi - mu) * (xi - mu))%R) x) in
    Ok (map2 (fun xi wb => ((xi - mu) / sqrt (var + eps) * fst wb + snd wb)%R)
             x (combine (weight self) (bias self)))
  else Err RuntimeError.

Definition forward3 (self : t) (x : tensor3) : result tensor3 :=
  mapM (mapM (forward self)) x.

End LayerNorm.

(** [nn.Embedding(num_embeddings, embedding_dim)]. *)
Module Embedding.

Record t : Type := mk {
  num_embeddings : nat;
  embedding_dim : nat;
  weight : mat
}.

Definition wf (n d : nat) (self : t) : Prop :=
  num_embeddings self = n /\ embedding_dim self = d
  /\ length (weight self) = n
  /\ Forall (fun row => length row = d) (weight self).

(** One index; an index outside [0, num_embeddings) raises IndexError. *)
Definition forward (self : t) (i : Z) : result vec :=
  if ((0 <=? i)%Z && (i <? Z.of_nat (num_embeddings self))%Z)%bool
  then Ok (nth (Z.to_nat i) (weight self) [])
  else Err IndexError.

End Embedding.

(** [k.shape[-1]**-0.5] on a Python int: [0 ** -0.5] raises. *)
Definition pow_neg_half (n : nat) : result R :=
  match n with
  | 0 => Err ZeroDivisionError
  | S _ => Ok (/ sqrt (INR n))%R
  end.

Module Head.

Record t : Type := mk {
  key : Linear.t;
  query : Linear.t;
  value : Linear.t;
  tril : list (list Z);
  decoding : bool
}.

(** What [__init__(head_size, decoding)] builds, whatever the values of the
    three weight matrices: bias-free projections from [n_embd] to
    [head_size] and the [block_size] by [block_size] lower-triangular
    buffer. *)
Definition wf (n_embd head_size : nat) (self : t) : Prop :=
  Linear.wf n_embd head_size (key self) /\ Linear.bias (key self) = None
  /\ Linear.wf n_embd head_size (query self) /\ Linear.bias (query self) = None
  /\ Linear.wf n_embd head_size (value self) /\ Linear.bias (value self) = None
  /\ tril self = tril_ones block_size.

(** [self.tril[:T, :T] == 0]. *)
Definition mask (self : t) (T : nat) : list (list bool) :=
  map (map (fun v => (v =? 0)%Z)) (slice2 (tril self) T T).

(** Lines 24 to 35 of [forward]: the value of [wei] after the softmax. *)
Definition attention (self : t) (x : tensor3) : result tensor3 :=
  let T := shape1 x in
  let* k := Linear.forward3 (key self) x in
  let* q := Linear.forward3 (query self) x in
  let* scale := pow_neg_half (Linear.out_features (key self)) in
  let wei := map2 (fun qb kb => map (map (fun a => Fin (a * scale)%R)) (matmul_nt qb kb))
                  q k in
  let* wei := if decoding self
              then masked_fill wei T (mask self T) NegInf
              else Ok wei in
  Ok (map (map softmax) wei).

Definition forward (self : t) (x : tensor3) : result tensor3 :=
  let* wei := attention self x in
  let* v := Linear.forward3 (value self) x in
  Ok (map2 matmul wei v).

End Head.

(** [torch.cat(tensors, dim=-1)] of tensors that agree on their leading
    dimensions; an empty list of tensors raises. *)
Definition cat_last {A : Type} (tensors : list (list (list (list A))))
  : result (list (list (list A))) :=
  match tensors with
  | [] => Err RuntimeError
  | t0 :: rest => Ok (fold_left (map2 (map2 (@app A))) rest t0)
  end.

Module MultiHeadAttention.

Record t : Type := mk {
  heads : list Head.t;
  proj : Linear.t
}.

Definition wf (n_embd num_heads head_size : nat) (self : t) : Prop :=
  length (heads self) = num_heads
  /\ Forall (Head.wf n_embd head_size) (heads self)
  /\ Linear.wf (head_size * num_heads) n_embd (proj self).

Definition forward (self : t) (x : tensor3) : result tensor3 :=
  let* outs := mapM (fun h => Head.forward h x) (heads self) in
  let* out := cat_last outs in
  Ok out.

End MultiHeadAttention.

Module FeedFoward.

(** [nn.Sequential(Linear, ReLU, Linear)]. *)
Record t : Type := mk {
  net_0 : Linear.t;
  net_2 : Linear.t
}.

Definition wf (n_embd : nat) (self : t) : Prop :=
  Linear.wf n_embd (4 * n_embd) (net_0 self)
  /\ Linear.wf (4 * n_embd) n_embd (net_2 self).

Definition forward1 (self : t) (x : vec) : result vec :=
  let* h := Linear.forward (net_0 self) x in
  Linear.forward (net_2 self) (map F_relu h).

Definition forward (self : t) (x : tensor3) : result tensor3 :=
  mapM (mapM (forward1 self)) x.

End FeedFoward.

Module Block.

Record t : Type := mk {
  sa : MultiHeadAttention.t;
  ffwd : FeedFoward.t;
  ln1 : LayerNorm.t;
  ln2 : LayerNorm.t
}.

(** [__init__(n_embd, n_head, decoding)], with [head_size = n_embd // n_head]. *)
Definition wf (n_embd n_head : nat) (dec : bool) (self : t) : Prop :=
  MultiHeadAttention.wf n_embd n_head (n_embd / n_head) (sa self)
  /\ Forall (fun h => Head.decoding h = dec) (MultiHeadAttention.heads (sa self))
  /\ FeedFoward.wf n_embd (ffwd self)
  /\ LayerNorm.wf n_embd (ln1 self)
  /\ LayerNorm.wf n_embd (ln2 self).

Definition forward (self : t) (x : tensor3) : result tensor3 :=
  let* a := LayerNorm.forward3 (ln1 self) x in
  let* s := MultiHeadAttention.forward (sa self) a in
  let* x := add3 x s in
  let* f := LayerNorm.forward3 (ln2 self) x in
  let* g := FeedFoward.forward (ffwd self) f in
  add3 x g.

End Block.

(** [nn.Sequential] of blocks. *)
Fixpoint Sequential (blocks : list Block.t) (x : tensor3) : result tensor3 :=
  match blocks with
  | [] => Ok x
  | b :: rest =>
      let* x := Block.forward b x in
      Sequential rest x
  end.

Module Classifier.

Record t : Type := mk {
  fc1 : Linear.t;
  fc2 : Linear.t
}.

Definition wf (input_size hidden_size n_output : nat) (self : t) : Prop :=
  Linear.wf input_size hidden_size (fc1 self)
  /\ Linear.wf hidden_size n_output (fc2 self).

(** [x] has shape (batch, input_size); the softmax runs along [dim=1]. *)
Definition forward (self : t) (x : mat) : result mat :=
  let* x := mapM (Linear.forward (fc1 self)) x in
  let x := map (map F_relu) x in
  let* x := mapM (Linear.forward (fc2 self)) x in
  Ok (map (fun row => softmax (map Fin row)) x).

End Classifier.

(** The compute device handed to [forward]; it only selects where
    [torch.arange] allocates. *)
Inductive device : Type :=
| cpu
| cuda.

(** Token plus position embedding, the first lines of both [forward]s:
    [token_embedding_table(idx) + position_embedding_table(arange(T))]. *)
Definition embed (tok pos : Embedding.t) (idx : list (list Z)) : result tensor3 :=
  let T := shape1 idx in
  let* tok_emb := mapM (mapM (Embedding.forward tok)) idx in
  let* pos_emb := mapM (Embedding.forward pos) (map Z.of_nat (seq 0 T)) in
  mapM (fun e => zipM add_vec e pos_emb) tok_emb.

(** [torch.mean(x, dim=1)] of a tensor of shape (B, T, C) with [T >= 1].
    With [T = 0] torch gives a row of NaN, which the exact reading cannot
    hold: that case is [F32.mean_dim1]. *)
Definition mean_dim1 (x : tensor3) : mat :=
  map (fun m => map mean (columns m)) x.

Module Encoder.

Record t : Type := mk {
  token_embedding_table : Embedding.t;
  position_embedding_table : Embedding.t;
  blocks : list Block.t;
  ln_f : LayerNorm.t;
  classifier : Classifier.t
}.

(** [__init__(vocab_size)] under the constants [n_embd], [n_head],
    [n_layer], [n_hidden], [n_output]. *)
Definition wf (vocab_size n_embd n_head n_layer n_hidden n_output : nat)
    (self : t) : Prop :=
  Embedding.wf vocab_size n_embd (token_embedding_table self)
  /\ Embedding.wf block_size n_embd (position_embedding_table self)
  /\ length (blocks self) = n_layer
  /\ Forall (Block.wf n_embd n_head false) (blocks self)
  /\ LayerNorm.wf n_embd (ln_f self)
  /\ Classifier.wf n_embd n_hidden n_output (classifier self).

(** Lines 116 to 125: the per-position representations after [ln_f]. *)
Definition features (self : t) (idx : list (list Z)) : result tensor3 :=
  let* x := embed (token_embedding_table self) (position_embedding_table self) idx in
  let* x := Sequential (blocks self) x in
  LayerNorm.forward3 (ln_f self) x.

Definition forward (self : t) (idx : list (list Z)) (dev : device)
    (targets : option (list Z)) : result mat :=
  let* x := features self idx in
  let x := mean_dim1 x in
  Classifier.forward (classifier self) x.

(** [self(idx, ...)]: [device] has no default. *)
Definition call (self : t) (idx : list (list Z)) (dev : arg device)
    (targets : arg (option (list Z))) : result mat :=
  let* dev := required dev in
  forward self idx dev (with_default None targets).

End Encoder.

(** A float that may be NaN, for the losses. *)
Inductive float : Type :=
| NaN
| Real (r : R).

(** [F.cross_entropy(input, target)] with mean reduction, for [input] of shape
    (N, C) and [target] of shape (N). *)
Definition nll (row : vec) (target : Z) : result R :=
  if ((0 <=? target)%Z && (target <? Z.of_nat (length row))%Z)%bool
  then Ok (- ln (nth (Z.to_nat target) (softmax (map Fin row)) 0%R))%R
  else Err IndexError.

Definition cross_entropy (input : mat) (target : list Z) : result float :=
  if length input =? length target then
    let* ls := zipM nll input target in
    Ok match ls with
       | [] => NaN
       | _ :: _ => Real (mean ls)
       end
  else Err ValueError.

(** [t.view(n)] of an integer tensor of shape (B, T). *)
Definition view_flat (t : list (list Z)) (n : nat) : result (list Z) :=
  if length (concat t) =? n then Ok (concat t) else Err RuntimeError.

(** The logits a decoder returns: (B, T, C), or (B*T, C) after [view]. *)
Inductive logits : Type :=
| Logits3 (l : tensor3)
| Logits2 (l : mat).

(** Sampling: [g k p] is the index drawn from distribution [p] at the [k]-th
    draw of the run. *)
Definition rng : Type := nat -> vec -> Z.

(** [torch.multinomial(probs, num_samples=1)]: one draw per row. *)
Fixpoint multinomial (g : rng) (k : nat) (probs : mat) : list Z * nat :=
  match probs with
  | [] => ([], k)
  | p :: ps =>
      let '(ds, k') := multinomial g (S k) ps in
      (g k p :: ds, k')
  end.

Module Decoder.

Record t : Type := mk {
  token_embedding_table : Embedding.t;
  position_embedding_table : Embedding.t;
  blocks : list Block.t;
  ln_f : LayerNorm.t;
  lm_head : Linear.t
}.

Definition wf (vocab_size n_embd n_head n_layer : nat) (self : t) : Prop :=
  Embedding.wf vocab_size n_embd (token_embedding_table self)
  /\ Embedding.wf block_size n_embd (position_embedding_table self)
  /\ length (blocks self) = n_layer
  /\ Forall (Block.wf n_embd n_head true) (blocks self)
  /\ LayerNorm.wf n_embd (ln_f self)
  /\ Linear.wf n_embd vocab_size (lm_head self).

Definition forward (self : t) (idx : list (list Z)) (dev : device)
    (targets : option (list (list Z))) : result (logits * option float) :=
  let* x := embed (token_embedding_table self) (position_embedding_table self) idx in
  let* x := Sequential (blocks self) x in
  let* x := LayerNorm.forward3 (ln_f self) x in
  let* lg := Linear.forward3 (lm_head self) x in
  match targets with
  | None => Ok (Logits3 lg, None)
  | Some tg =>
      let B := length lg in
      let T := shape1 lg in
      let lg2 := concat lg in
      let* tg := view_flat tg (B * T) in
      let* loss := cross_entropy lg2 tg in
      Ok (Logits2 lg2, Some loss)
  end.

(** [self(idx, ...)]: [device] has no default, [targets] defaults to None. *)
Definition call (self : t) (idx : list (list Z)) (dev : arg device)
    (targets : arg (option (list (list Z)))) : result (logits * option float) :=
  let* dev := required dev in
  forward self idx dev (with_default None targets).

(** [logits[:, -1, :]]. *)
Definition last_step (lg : logits) : result mat :=
  match lg with
  | Logits3 l =>
      mapM (fun m => match m with
                     | [] => Err IndexError
                     | _ :: _ => Ok (last m [])
                     end) l
  | Logits2 _ => Err IndexError
  end.

(** The loop of [generate]: [n] iterations left, [k] draws made so far. *)
Fixpoint generate_loop (self : t) (g : rng) (n k : nat) (idx : list (list Z))
  : result (list (list Z)) :=
  match n with
  | 0 => Ok idx
  | S n' =>
      let idx_cond := map (fun row => skipn (length row - block_size) row) idx in
      let* out := call self idx_cond Missing Missing in
      let '(lg, loss) := out in
      let* lg := last_step lg in
      let probs := map (fun row => softmax (map Fin row)) lg in
      let '(idx_next, k') := multinomial g k probs in
      let idx := map2 (fun row nxt => row ++ [nxt]) idx idx_next in
      generate_loop self g n' k' idx
  end.

(** [range(max_new_tokens)] is empty for a count that is not positive. *)
Definition generate (self : t) (g : rng) (idx : list (list Z)) (max_new_tokens : Z)
  : result (list (list Z)) :=
  generate_loop self g (Z.to_nat max_new_tokens) 0 idx.

End Decoder.

(** ** The layers on float32 tensors

    The same lines of transformer.py, read on what the tensors hold: IEEE
    binary32 numbers.  A float is NaN, an infinity, or a finite number; every
    arithmetic operation rounds its exact result to the nearest float, ties
    to even, and gives an infinity when the rounded result leaves the range.
    The two zeros are not told apart (no operation of these layers divides a
    non-zero number by zero).  Library routines are taken by their
    documented formula, one rounding per elementary operation, sums from
    left to right; [exp] and [sqrt] are correctly rounded.  The parameters of
    the modules are the finite numbers of the records above. *)

Module F32.

Definition pow2 (e : Z) : R := powerRZ 2 e.

Definition mag (x : R) : Z := (Zfloor (ln x / ln 2) + 1)%Z.

Definition cexp (x : R) : Z := Z.max (mag x - 24) (-149).

Definition Znearest (x : R) : Z :=
  let f := Zfloor x in
  if Rlt_dec (x - IZR f) (1 / 2) then f
  else if Rlt_dec (1 / 2) (x - IZR f) then (f + 1)%Z
  else if Z.even f then f else (f + 1)%Z.

Definition round_pos (x : R) : R :=
  (IZR (Znearest (x * pow2 (- cexp x))) * pow2 (cexp x))%R.

Definition rnd (x : R) : R :=
  if Rlt_dec 0 x then round_pos x
  else if Rlt_dec x 0 then (- round_pos (- x))%R
  else 0%R.

(** The largest finite value: (2 - 2^-23) * 2^127. *)
Definition max_value : R := (IZR (2 ^ 24 - 1) * pow2 104)%R.

Inductive t : Type :=
| NaN
| PInf
| NInf
| Fin (r : R).

(** The float an exact result [r] becomes: rounded, and infinite when the
    rounded value leaves the range. *)
Definition fl (r : R) : t :=
  let y := rnd r in
  if Rle_dec (Rabs y) max_value then Fin y
  else if Rlt_dec 0 y then PInf else NInf.

Definition neg (x : t) : t :=
  match x with
  | NaN => NaN
  | PInf => NInf
  | NInf => PInf
  | Fin r => Fin (- r)%R
  end.

Definition add (x y : t) : t :=
  match x, y with
  | NaN, _ | _, NaN => NaN
  | PInf, NInf | NInf, PInf => NaN
  | PInf, _ | _, PInf => PInf
  | NInf, _ | _, NInf => NInf
  | Fin a, Fin b => fl (a + b)
  end.

Definition sub (x y : t) : t := add x (neg y).

(** An infinity times a finite [a]. *)
Definition scaled_inf (positive : bool) (a : R) : t :=
  if Rlt_dec 0 a then (if positive then PInf else NInf)
  else if Rlt_dec a 0 then (if positive then NInf else PInf)
  else NaN.

Definition mul (x y : t) : t :=
  match x, y with
  | NaN, _ | _, NaN => NaN
  | Fin a, Fin b => fl (a * b)
  | Fin a, PInf | PInf, Fin a => scaled_inf true a
  | Fin a, NInf | NInf, Fin a => scaled_inf false a
  | PInf, PInf | NInf, NInf => PInf
  | PInf, NInf | NInf, PInf => NInf
  end.

Definition div (x y : t) : t :=
  match x, y with
  | NaN, _ | _, NaN => NaN
  | Fin a, Fin b => if Req_dec_T b 0 then scaled_inf true a else fl (a / b)
  | Fin _, (PInf | NInf) => Fin 0
  | (PInf | NInf), (PInf | NInf) => NaN
  | PInf, Fin b => if Rle_dec 0 b then PInf else NInf
  | NInf, Fin b => if Rle_dec 0 b then NInf else PInf
  end.

Definition exp (x : t) : t :=
  match x with
  | NaN => NaN
  | PInf => PInf
  | NInf => Fin 0
  | Fin r => fl (Rtrigo_def.exp r)
  end.

Definition sqrt (x : t) : t :=
  match x with
  | NaN | NInf => NaN
  | PInf => PInf
  | Fin r => if Rlt_dec r 0 then NaN else fl (R_sqrt.sqrt r)
  end.

(** The larger of two floats; NaN wins, as in [torch.max] and [F.relu]. *)
Definition max (x y : t) : t :=
  match x, y with
  | NaN, _ | _, NaN => NaN
  | PInf, _ | _, PInf => PInf
  | NInf, z | z, NInf => z
  | Fin a, Fin b => Fin (Rmax a b)
  end.

Definition of_nat (n : nat) : t := fl (INR n).

Definition sum (l : list t) : t := fold_left add l (Fin 0).

Definition dot (a b : list t) : t := sum (map2 mul a b).

Definition mean (l : list t) : t := div (sum l) (of_nat (length l)).

Definition maximum (l : list t) : t := fold_right max NInf l.

Definition softmax (l : list t) : list t :=
  let m := maximum l in
  let e := map (fun x => exp (sub x m)) l in
  let s := sum e in
  map (fun ei => div ei s) e.

(** How far the entries of a normalized row of [n] entries may be from
    summing to 1. *)
Definition softmax_tolerance (n : nat) : R :=
  ((INR n + 1) * (INR n + 1) * pow2 (-24))%R.

Definition finite (x : t) : Prop := exists r, x = Fin r.

(** A value of the format, as every entry of a float32 tensor is. *)
Definition is_float (x : t) : Prop :=
  match x with
  | Fin r => fl r = Fin r
  | _ => True
  end.

(** A row the softmax can normalize: no NaN, no [+inf], a finite entry. *)
Definition normalizable (l : list t) : Prop :=
  Forall (fun x => x <> NaN /\ x <> PInf) l /\ Exists (fun x => exists r, x = Fin r) l.


Definition relu (x : t) : t := max (Fin 0) x.

(** Entry (b, i, j) of a rank-3 tensor. *)
Definition entry (x : list (list (list t))) (b i j : nat) : t :=
  nth j (nth i (nth b x []) []) NaN.

(** The [c] columns of a matrix whose rows have [c] entries. *)
Definition columns (c : nat) (m : list (list t)) : list (list t) :=
  map (fun j => map (fun r => nth j r NaN) m) (seq 0 c).

Definition matmul (a b : list (list t)) : list (list t) :=
  map (fun row => map (fun col => dot row col) (columns (shape1 b) b)) a.

Definition matmul_nt (a b : list (list t)) : list (list t) :=
  map (fun ai => map (fun bj => dot ai bj) b) a.

Definition add_vec (a b : list t) : result (list t) :=
  match broadcast (length a) (length b) with
  | Some n => Ok (map2 add (expand n a) (expand n b))
  | None => Err RuntimeError
  end.

Definition add3 (a b : list (list (list t))) : result (list (list (list t))) :=
  zipM (zipM add_vec) a b.

(** [torch.mean(x, dim=1)] of a tensor of shape (B, T, C): with [T = 0] every
    mean is 0 / 0, NaN. *)
Definition mean_dim1 (C : nat) (x : list (list (list t))) : list (list t) :=
  map (fun m => map mean (columns C m)) x.

Module Linear.

Definition forward (self : Linear.t) (x : list t) : result (list t) :=
  if length x =? Linear.in_features self then
    Ok match Linear.bias self with
       | Some b => map2 (fun w bo => add (dot x (map Fin w)) (Fin bo)) (Linear.weight self) b
       | None => map (fun w => dot x (map Fin w)) (Linear.weight self)
       end
  else Err RuntimeError.

Definition forward3 (self : Linear.t) (x : list (list (list t)))
  : result (list (list (list t))) :=
  mapM (mapM (forward self)) x.

End Linear.

Module LayerNorm.

Definition eps : t := fl (1 / 100000).

Definition forward (self : LayerNorm.t) (x : list t) : result (list t) :=
  if length x =? LayerNorm.normalized_shape self then
    let mu := mean x in
    let var := mean (map (fun xi => mul (sub xi mu) (sub xi mu)) x) in
    Ok (map2 (fun xi wb =>
                add (mul (div (sub xi mu) (sqrt (add var eps))) (Fin (fst wb)))
                    (Fin (snd wb)))
             x (combine (LayerNorm.weight self) (LayerNorm.bias self)))
  else Err RuntimeError.

Definition forward3 (self : LayerNorm.t) (x : list (list (list t)))
  : result (list (list (list t))) :=
  mapM (mapM (forward self)) x.

End LayerNorm.

Module Embedding.

Definition forward (self : Embedding.t) (i : Z) : result (list t) :=
  if ((0 <=? i)%Z && (i <? Z.of_nat (Embedding.num_embeddings self))%Z)%bool
  then Ok (map Fin (nth (Z.to_nat i) (Embedding.weight self) []))
  else Err IndexError.

End Embedding.

(** [k.shape[-1]**-0.5], a Python float, becomes a float32 when it
    multiplies the tensor. *)
Definition pow_neg_half (n : nat) : result t :=
  match n with
  | 0 => Err ZeroDivisionError
  | S _ => Ok (fl (/ R_sqrt.sqrt (INR n)))
  end.

Module Head.

(** Lines 26 to 29 of [forward]: the scaled scores, before the mask. *)
Definition scores (self : Head.t) (x : list (list (list t)))
  : result (list (list (list t))) :=
  let* k := Linear.forward3 (Head.key self) x in
  let* q := Linear.forward3 (Head.query self) x in
  let* scale := pow_neg_half (Linear.out_features (Head.key self)) in
  Ok (map2 (fun qb kb => map (map (fun a => mul a scale)) (matmul_nt qb kb)) q k).

(** Lines 31 to 35: the mask and the softmax, on the scores of sequences of
    length [T]. *)
Definition weights (self : Head.t) (T : nat) (wei : list (list (list t)))
  : result (list (list (list t))) :=
  let* wei := if Head.decoding self
              then masked_fill wei T (Head.mask self T) NInf
              else Ok wei in
  Ok (map (map softmax) wei).

(** Lines 24 to 35: the value of [wei] after the softmax. *)
Definition attention (self : Head.t) (x : list (list (list t)))
  : result (list (list (list t))) :=
  let T := shape1 x in
  let* wei := scores self x in
  weights self T wei.

Definition forward (self : Head.t) (x : list (list (list t)))
  : result (list (list (list t))) :=
  let* wei := attention self x in
  let* v := Linear.forward3 (Head.value self) x in
  Ok (map2 matmul wei v).

End Head.

Module MultiHeadAttention.

Definition forward (self : MultiHeadAttention.t) (x : list (list (list t)))
  : result (list (list (list t))) :=
  let* outs := mapM (fun h => Head.forward h x) (MultiHeadAttention.heads self) in
  let* out := cat_last outs in
  Ok out.

End MultiHeadAttention.

Module FeedFoward.

Definition forward1 (self : FeedFoward.t) (x : list t) : result (list t) :=
  let* h := Linear.forward (FeedFoward.net_0 self) x in
  Linear.forward (FeedFoward.net_2 self) (map relu h).

Definition forward (self : FeedFoward.t) (x : list (list (list t)))
  : result (list (list (list t))) :=
  mapM (mapM (forward1 self)) x.

End FeedFoward.

Module Block.

Definition forward (self : Block.t) (x : list (list (list t)))
  : result (list (list (list t))) :=
  let* a := LayerNorm.forward3 (Block.ln1 self) x in
  let* s := MultiHeadAttention.forward (Block.sa self) a in
  let* x := add3 x s in
  let* f := LayerNorm.forward3 (Block.ln2 self) x in
  let* g := FeedFoward.forward (Block.ffwd self) f in
  add3 x g.

End Block.

Fixpoint Sequential (blocks : list Block.t) (x : list (list (list t)))
  : result (list (list (list t))) :=
  match blocks with
  | [] => Ok x
  | b :: rest =>
      let* x := Block.forward b x in
      Sequential rest x
  end.

Module Classifier.

(** Lines 99 to 101: the class scores the softmax is given. *)
Definition logits (self : Classifier.t) (x : list (list t)) : result (list (list t)) :=
  let* x := mapM (Linear.forward (Classifier.fc1 self)) x in
  let x := map (map relu) x in
  mapM (Linear.forward (Classifier.fc2 self)) x.

Definition forward (self : Classifier.t) (x : list (list t)) : result (list (list t)) :=
  let* x := logits self x in
  Ok (map softmax x).

End Classifier.

Definition embed (tok pos : Embedding.t) (idx : list (list Z))
  : result (list (list (list t))) :=
  let T := shape1 idx in
  let* tok_emb := mapM (mapM (Embedding.forward tok)) idx in
  let* pos_emb := mapM (Embedding.forward pos) (map Z.of_nat (seq 0 T)) in
  mapM (fun e => zipM add_vec e pos_emb) tok_emb.

Module Encoder.

Definition features (self : Encoder.t) (idx : list (list Z))
  : result (list (list (list t))) :=
  let* x := embed (Encoder.token_embedding_table self)
                  (Encoder.position_embedding_table self) idx in
  let* x := Sequential (Encoder.blocks self) x in
  LayerNorm.forward3 (Encoder.ln_f self) x.

(** Lines 127 to 131: the mean over the time axis, then the classifier.
    The last dimension of [x] is the [normalized_shape] of [ln_f]. *)
Definition classify (self : Encoder.t) (x : list (list (list t)))
  : result (list (list t)) :=
  let x := mean_dim1 (LayerNorm.normalized_shape (Encoder.ln_f self)) x in
  Classifier.forward (Encoder.classifier self) x.

Definition forward (self : Encoder.t) (idx : list (list Z)) (dev : device)
    (targets : option (list Z)) : result (list (list t)) :=
  let* x := features self idx in
  classify self x.

End Encoder.

End F32.

(** ** main.py: collate_batch *)

(** [torch.nn.utils.rnn.pad_sequence(data, batch_first=True, padding_value)]:
    every sequence is right-padded to the length of the longest one. *)
Definition max_len (data : list (list Z)) : nat :=
  fold_right (fun s m => Nat.max (length s) m) 0%nat data.

Definition pad_sequence (data : list (list Z)) (padding_value : Z) : list (list Z) :=
  map (fun s => s ++ repeat padding_value (max_len data - length s)) data.

(** [torch.nn.functional.pad(x, (0, n), "constant", v)] for [n >= 0]. *)
Definition F_pad_right (x : list (list Z)) (n : Z) (v : Z) : list (list Z) :=
  map (fun s => s ++ repeat v (Z.to_nat n)) x.

(** A sample is a pair (id sequence, label).  [zip( *batch)] of an empty batch
    yields nothing, so unpacking it into [data, labels] raises ValueError. *)
Definition collate_batch (batch : list (list Z * Z)) : result (list (list Z) * list Z) :=
  match batch with
  | [] => Err ValueError
  | _ :: _ =>
      let data := map fst batch in
      let labels := map snd batch in
      let padded_sequences := pad_sequence data 0 in
      let padded_sequences := map (firstn block_size) padded_sequences in
      let padded_sequences :=
        F_pad_right padded_sequences
          (Z.max 0 (Z.of_nat block_size - Z.of_nat (shape1 padded_sequences))) 0 in
      Ok (padded_sequences, labels)
  end.

(** ** main.py: the evaluation loops *)

Definition eval_interval : Z := 100.
Definition max_iters : Z := 500.
(** Number of iterations to evaluate perplexity on the test set. *)
Definition eval_iters : Z := 200.

(** What a call [model(X)] may hand back to the evaluation loops. *)
Inductive pyobj : Type :=
| Tensor2 (m : mat)
| Tensor3 (t : tensor3)
| Tuple (lg : logits) (loss : option float).

(** [model(X)]: [nn.Module.__call__] with the batch as only argument.  The
    loops are written against this interface; the two models of
    transformer.py are its instances. *)
Class Module (M : Type) : Type := {
  call : M -> list (list Z) -> result pyobj
}.

#[export] Instance Encoder_Module : Module Encoder.t := {
  call self X :=
    let* out := Encoder.call self X Missing Missing in
    Ok (Tensor2 out)
}.

#[export] Instance Decoder_Module : Module Decoder.t := {
  call self X :=
    let* out := Decoder.call self X Missing Missing in
    Ok (Tuple (fst out) (snd out))
}.

(** Any callable that returns normally is a model too. *)
#[export] Instance Callable_Module : Module (list (list Z) -> pyobj) := {
  call f X := Ok (f X)
}.

(** [B, T, C = logits.shape] followed by [logits.view(B*T, C)]: the number of
    rows [B*T] and the flattened logits. *)
Definition shape_and_view (lg : pyobj) : result (nat * mat) :=
  match lg with
  | Tensor3 t => Ok (length t * shape1 t, concat t)
  | Tensor2 _ => Err ValueError
  | Tuple _ _ => Err AttributeError
  end.

(** The loss of one batch: lines 60 to 66 of [compute_perplexity]. *)
Definition batch_loss {M : Type} `{Module M} (decoderLMmodel : M)
    (X Y : list (list Z)) : result float :=
  let* lg := call decoderLMmodel X in
  let* sv := shape_and_view lg in
  let* targets := view_flat Y (fst sv) in
  cross_entropy (snd sv) targets.

(** The [for X, Y in data_loader] loop of [compute_perplexity]; [losses] is
    the list built so far. *)
Fixpoint perplexity_loop {M : Type} `{Module M} (decoderLMmodel : M)
    (data_loader : list (list (list Z) * list (list Z))) (eval_iters : Z)
    (losses : list float) : result (list float) :=
  match data_loader with
  | [] => Ok losses
  | (X, Y) :: rest =>
      let* loss := batch_loss decoderLMmodel X Y in
      let losses := losses ++ [loss] in
      if (Z.of_nat (length losses) >=? eval_iters)%Z then Ok losses
      else perplexity_loop decoderLMmodel rest eval_iters losses
  end.

(** [torch.tensor(losses).mean()] and [torch.exp]. *)
Fixpoint reals (l : list float) : option (list R) :=
  match l with
  | [] => Some []
  | NaN :: _ => None
  | Real r :: l' =>
      match reals l' with
      | Some rs => Some (r :: rs)
      | None => None
      end
  end.

Definition tensor_mean (l : list float) : float :=
  match reals l with
  | Some (r :: rs) => Real (mean (r :: rs))
  | _ => NaN
  end.

Definition torch_exp (x : float) : float :=
  match x with
  | NaN => NaN
  | Real r => Real (exp r)
  end.

(** The default of the [eval_iters] parameter in the signature. *)
Definition compute_perplexity_default_eval_iters : Z := 100.

Definition compute_perplexity {M : Type} `{Module M} (decoderLMmodel : M)
    (data_loader : list (list (list Z) * list (list Z))) (eval_iters : arg Z)
  : result float :=
  let eval_iters := with_default compute_perplexity_default_eval_iters eval_iters in
  let* losses := perplexity_loop decoderLMmodel data_loader eval_iters [] in
  let mean_loss := tensor_mean losses in
  Ok (torch_exp mean_loss).

(** Index of the first maximal element. *)
Fixpoint argmax_from (best_i : nat) (best : R) (i : nat) (l : list R) : nat :=
  match l with
  | [] => best_i
  | x :: l' =>
      if Rlt_dec best x then argmax_from i x (S i) l'
      else argmax_from best_i best (S i) l'
  end.

Definition argmax (l : list R) : result Z :=
  match l with
  | [] => Err IndexError
  | x :: l' => Ok (Z.of_nat (argmax_from 0 x 1 l'))
  end.

(** [(predicted == Y).sum().item()] for two vectors, with broadcasting. *)
Definition eq_count (predicted Y : list Z) : result Z :=
  match broadcast (length predicted) (length Y) with
  | Some n =>
      Ok (Z.of_nat (length (filter (fun b : bool => b)
                              (map2 Z.eqb (expand n predicted) (expand n Y)))))
  | None => Err RuntimeError
  end.

(** [_, predicted = torch.max(outputs.data, 1)] then the count of matches.
    A rank-2 output gives one prediction per row; a rank-3 output of shape
    (B, T, C) gives a (B, C) matrix of predictions, each row of which is
    compared with [Y]; a tuple has no [data]. *)
Definition correct_in_batch (outputs : pyobj) (Y : list Z) : result Z :=
  match outputs with
  | Tensor2 m =>
      let* predicted := mapM argmax m in
      eq_count predicted Y
  | Tensor3 t =>
      let* predicted := mapM (fun m => match m with
                                       | [] => Err IndexError
                                       | _ :: _ => mapM argmax (columns m)
                                       end) t in
      let* counts := mapM (fun row => eq_count row Y) predicted in
      Ok (fold_right Z.add 0%Z counts)
  | Tuple _ _ => Err AttributeError
  end.

(** The [for X, Y in data_loader] loop of [compute_classifier_accuracy]. *)
Fixpoint accuracy_loop {M : Type} `{Module M} (classifier : M)
    (data_loader : list (list (list Z) * list Z)) (total_correct total_samples : Z)
  : result (Z * Z) :=
  match data_loader with
  | [] => Ok (total_correct, total_samples)
  | (X, Y) :: rest =>
      let* outputs := call classifier X in
      let* c := correct_in_batch outputs Y in
      accuracy_loop classifier rest (total_correct + c)%Z
                    (total_samples + Z.of_nat (length Y))%Z
  end.

(** [100 * total_correct / total_samples] is Python true division of two
    ints; the quotient is kept exact. *)
Definition compute_classifier_accuracy {M : Type} `{Module M} (classifier : M)
    (data_loader : list (list (list Z) * list Z)) : result Q :=
  let* totals := accuracy_loop classifier data_loader 0%Z 0%Z in
  let '(total_correct, total_samples) := totals in
  if (total_samples =? 0)%Z then Err ZeroDivisionError
  else Ok (inject_Z (100 * total_correct) / inject_Z total_samples)%Q.

(** ** main.py: the entry point *)

(** The command line, at the level the mode flag is spoken of: no [-mode]
    flag, or [-mode v]. *)
Inductive cmdline : Type :=
| NoFlag
| Mode (v : string).

Definition choices : list string := ["e"; "d"; "se"; "sd"]%string.

(** [parser.parse_args()]: a value outside [choices] makes argparse print the
    usage and an error on stderr and leave with [SystemExit(2)]; without the
    flag the attribute is None. *)
Inductive parsed : Type :=
| Namespace (mode : option string)
| SystemExit (status : Z).

Definition parse_args (c : cmdline) : parsed :=
  match c with
  | NoFlag => Namespace None
  | Mode v =>
      if existsb (String.eqb v) choices then Namespace (Some v) else SystemExit 2
  end.

Inductive pipeline : Type :=
| run_classifier
| run_decoder
| run_sanity_check_encoder
| run_sanity_check_decoder.

(** What [main] does: hand over to a pipeline, print a line and return, or
    leave through argparse. *)
Inductive outcome : Type :=
| Runs (p : pipeline)
| Prints (msg : string)
| Exits (status : Z).

Definition invalid_mode_message : string :=
  "Invalid mode. Choose 'c' for classifier or 'd' for decoder."%string.

Definition mode_is (mode : option string) (v : string) : bool :=
  match mode with
  | Some m => String.eqb m v
  | None => false
  end.

Definition main (c : cmdline) : outcome :=
  match parse_args c with
  | SystemExit status => Exits status
  | Namespace mode =>
      if mode_is mode "e" then Runs run_classifier
      else if mode_is mode "d" then Runs run_decoder
      else if mode_is mode "se" then Runs run_sanity_check_encoder
      else if mode_is mode "sd" then Runs run_sanity_check_decoder
      else Prints invalid_mode_message
  end.

(** ** main.py: load_texts *)

(** What the operating system may raise when a directory is listed or a file
    is opened and read as UTF-8 text. *)
Inductive os_error : Type :=
| FileNotFoundError
| NotADirectoryError
| IsADirectoryError
| PermissionError
| UnicodeDecodeError.

Inductive os_result (A : Type) : Type :=
| Done (a : A)
| Raised (e : os_error).

Arguments Done {A} a.
Arguments Raised {A} e.

(** A directory entry: what [open(path, 'r', encoding='utf-8')] and
    [file.read()] give for it. *)
Inductive file_entry : Type :=
| Text (content : string)
| Unreadable (e : os_error).

(** [needle in s] on Python strings. *)
Fixpoint contains (needle s : string) : bool :=
  if String.prefix needle s then true
  else match s with
       | EmptyString => false
       | String _ s' => contains needle s'
       end.

(** The loop of [load_texts] over the names [os.listdir] gave; [texts] is
    the list built so far. *)
Fixpoint read_texts (files : list (string * file_entry)) (texts : list string)
  : os_result (list string) :=
  match files with
  | [] => Done texts
  | (filename, file) :: rest =>
      if contains "test" filename then read_texts rest texts
      else match file with
           | Text content => read_texts rest (texts ++ [content])
           | Unreadable e => Raised e
           end
  end.

(** [listdir] is what [os.listdir(directory)] gives: the entries in the
    order of the listing, or the error raised. *)
Definition load_texts (listdir : os_result (list (string * file_entry)))
  : os_result (list string) :=
  match listdir with
  | Raised e => Raised e
  | Done files => read_texts files []
  end.

(** The entries [load_texts] opens, and the texts of those it can read. *)
Definition opened (files : list (string * file_entry)) : list (string * file_entry) :=
  filter (fun f => negb (contains "test" (fst f))) files.

Definition texts_of (files : list (string * file_entry)) : list string :=
  flat_map (fun f => match snd f with
                     | Text content => [content]
                     | Unreadable _ => []
                     end) files.

(** ** Vocabulary of the statements *)

(** Number of samples a classification loader yields. *)
Definition samples (data_loader : list (list (list Z) * list Z)) : Z :=
  fold_right (fun b n => (Z.of_nat (length (snd b)) + n)%Z) 0%Z data_loader.

(** The prediction for one row of class probabilities equals the label. *)
Definition hit (row : vec) (label : Z) : bool :=
  match argmax row with
  | Ok p => (p =? label)%Z
  | Err _ => false
  end.

(** Number of samples whose predicted class equals the label, given the
    probabilities of all samples and all labels. *)
Definition hits (probs : mat) (labels : list Z) : Z :=
  Z.of_nat (length (filter (fun b : bool => b) (map2 hit probs labels))).

(** Two tensors agree, in example [b], on the positions up to [i]. *)
Definition agree_upto {A : Type} (b i : nat) (x x' : list (list (list A))) : Prop :=
  forall t, t <= i -> nth t (nth b x []) [] = nth t (nth b x' []) [].

(** A tensor of shape (B, T, C), and a matrix of shape (T, C). *)
Definition has_shape2 {A : Type} (r c : nat) (m : list (list A)) : Prop :=
  length m = r /\ Forall (fun row => length row = c) m.

Definition has_shape3 {A : Type} (b r c : nat) (t : list (list (list A))) : Prop :=
  length t = b /\ Forall (has_shape2 r c) t.

(** Entry (b, i, j) of a rank-3 tensor. *)
Definition entry (t : tensor3) (b i j : nat) : R :=
  nth j (nth i (nth b t []) []) 0%R.

(** [returns r P]: the computation returns normally, with a value in [P]. *)
Definition returns {A : Type} (r : result A) (P : A -> Prop) : Prop :=
  exists a, r = Ok a /\ P a.

(** The mask as a table: position (i, j) is masked when [j] comes after [i]. *)
Definition future (T : nat) : list (list bool) :=
  map (fun i => map (fun j => negb (j <=? i)) (seq 0 T)) (seq 0 T).

(** Every affinity of the tensor is a real number. *)
Definition finite3 (w : list (list (list ext))) : Prop :=
  Forall (Forall (Forall (fun e => exists r, e = Fin r))) w.

(** A layer that keeps the batch and time dimensions and does not look
    ahead: it returns on every input of shape (B, T, c), with shape
    (B, T, c'), and its output up to a position only depends on its input up
    to that position. *)
Definition causal_on (B T c c' : nat)
    (F : list (list (list R)) -> result (list (list (list R)))) : Prop :=
  (forall x, has_shape3 B T c x -> returns (F x) (has_shape3 B T c'))
  /\ (forall x x' y y' b i,
        has_shape3 B T c x -> has_shape3 B T c x' ->
        F x = Ok y -> F x' = Ok y' -> b < B -> i < T ->
        agree_upto b i x x' -> agree_upto b i y y').

(** ** A smallest configuration, to run the statements on

    [n_embd = 1], one head of size 1, one layer, a vocabulary of two ids,
    [n_hidden = 1], [n_output = 2]; all weights 1, all biases 0. *)

Definition tiny_linear (i o : nat) (with_bias : bool) : Linear.t :=
  Linear.mk i o (repeat (repeat 1%R i) o)
            (if with_bias then Some (repeat 0%R o) else None).

Definition tiny_head (decoding : bool) : Head.t :=
  Head.mk (tiny_linear 1 1 false) (tiny_linear 1 1 false) (tiny_linear 1 1 false)
          (tril_ones block_size) decoding.

Definition tiny_attention (decoding : bool) : MultiHeadAttention.t :=
  MultiHeadAttention.mk [tiny_head decoding] (tiny_linear 1 1 true).

Definition tiny_norm : LayerNorm.t := LayerNorm.mk 1 [1%R] [0%R].

Definition tiny_block (decoding : bool) : Block.t :=
  Block.mk (tiny_attention decoding)
           (FeedFoward.mk (tiny_linear 1 4 true) (tiny_linear 4 1 true))
           tiny_norm tiny_norm.

Definition tiny_encoder : Encoder.t :=
  Encoder.mk (Embedding.mk 2 1 [[0%R]; [1%R]])
             (Embedding.mk block_size 1 (repeat [0%R] block_size))
             [tiny_block false]
             tiny_norm
             (Classifier.mk (tiny_linear 1 1 true) (tiny_linear 1 2 true)).

Definition tiny_decoder : Decoder.t :=
  Decoder.mk (Embedding.mk 2 1 [[0%R]; [1%R]])
             (Embedding.mk block_size 1 (repeat [0%R] block_size))
             [tiny_block true]
             tiny_norm
             (tiny_linear 1 2 true).

(** The score of one pair of positions in the smallest head. *)
Definition tiny_score (a b : R) : F32.t :=
  F32.mul (F32.add (F32.Fin 0) (F32.fl (a * b))) (F32.Fin 1).

(* ================================================================= *)
(** * Part II.  Properties *)
(* ================================================================= *)

(** ** The constant *)

Lemma block_size_eq : block_size = 32.
Proof. reflexivity. Qed.

(** From here on [block_size] is only used through [block_size_eq]. *)
Opaque block_size.

(** ** Computations that return *)

Lemma returns_bind {A B : Type} (r : result A) (k : A -> result B)
    (P : A -> Prop) (Q : B -> Prop) :
  returns r P -> (forall a, P a -> returns (k a) Q) -> returns (bind r k) Q.
Proof.
  intros [a [-> Ha]] Hk. cbn. now apply Hk.
Qed.

Lemma returns_weaken {A : Type} (r : result A) (P Q : A -> Prop) :
  returns r P -> (forall a, P a -> Q a) -> returns r Q.
Proof.
  intros [a [-> Ha]] HPQ. exists a. auto.
Qed.

Lemma returns_mapM {A B : Type} (f : A -> result B) (Q : B -> Prop) (l : list A) :
  Forall (fun a => returns (f a) Q) l ->
  returns (mapM f l) (fun bs => length bs = length l /\ Forall Q bs).
Proof.
  induction 1 as [|a l [b [Hb HQ]] _ [bs [Hbs [Hlen HF]]]].
  - exists []. repeat split; constructor.
  - exists (b :: bs). cbn. rewrite Hb, Hbs. cbn.
    repeat split; [now rewrite Hlen | now constructor].
Qed.

Lemma Forall_combine {A B : Type} (P : A * B -> Prop) (a : list A) (b : list B) :
  (forall x y, In x a -> In y b -> P (x, y)) -> Forall P (combine a b).
Proof.
  intros H. apply Forall_forall. intros [x y] Hin.
  apply H; [eapply in_combine_l | eapply in_combine_r]; eassumption.
Qed.

Lemma returns_zipM {A B C : Type} (f : A -> B -> result C) (Q : C -> Prop)
    (a : list A) (b : list B) :
  length a = length b ->
  (forall x y, In x a -> In y b -> returns (f x y) Q) ->
  returns (zipM f a b) (fun cs => length cs = length a /\ Forall Q cs).
Proof.
  intros Hlen Hf. unfold zipM.
  eapply returns_weaken.
  - apply returns_mapM with (Q := Q). apply Forall_combine. intros x y Hx Hy. now apply Hf.
  - cbn. intros cs [Hl HQ]. split; [|assumption].
    rewrite Hl, length_combine. lia.
Qed.

(** A function on feature vectors, mapped over a rank-3 tensor. *)
Lemma returns_rows {A B : Type} (f : list A -> result (list B)) (b r c c' : nat)
    (x : list (list (list A))) :
  (forall row, length row = c -> returns (f row) (fun y => length y = c')) ->
  has_shape3 b r c x ->
  returns (mapM (mapM f) x) (has_shape3 b r c').
Proof.
  intros Hf [Hb Hx].
  eapply returns_weaken.
  - apply returns_mapM with (Q := has_shape2 r c').
    eapply Forall_impl; [|exact Hx]. intros m [Hr Hm].
    eapply returns_weaken.
    + apply returns_mapM with (Q := fun y => length y = c').
      eapply Forall_impl; [|exact Hm]. intros row Hrow. now apply Hf.
    + cbn. intros y [Hl HQ]. split; [congruence | assumption].
  - cbn. intros y [Hl HQ]. split; [congruence | assumption].
Qed.

(** ** Lists by position *)

Lemma nth_map_in {A B : Type} (f : A -> B) (l : list A) (d : B) (d' : A) (n : nat) :
  n < length l -> nth n (map f l) d = f (nth n l d').
Proof.
  revert n; induction l as [|a l IH]; intros [|n] Hn; cbn in *; try lia; auto.
  apply IH. lia.
Qed.

Lemma nth_map2_in {A B C : Type} (f : A -> B -> C) (l1 : list A) (l2 : list B)
    (d : C) (d1 : A) (d2 : B) (n : nat) :
  n < length l1 -> n < length l2 ->
  nth n (map2 f l1 l2) d = f (nth n l1 d1) (nth n l2 d2).
Proof.
  revert l2 n; induction l1 as [|a l1 IH]; intros [|b l2] [|n] H1 H2;
    cbn in *; try lia; auto.
  apply IH; lia.
Qed.

Lemma firstn_seq (n start len : nat) :
  firstn n (seq start len) = seq start (Nat.min n len).
Proof.
  revert start len; induction n as [|n IH]; intros start [|len]; cbn; auto.
  now rewrite IH.
Qed.

Lemma firstn_In {A : Type} (n : nat) (l : list A) (x : A) :
  In x (firstn n l) -> In x l.
Proof.
  rewrite <- (firstn_skipn n l) at 2. intros Hin. apply in_or_app. now left.
Qed.

Lemma Forall_nth_in {A : Type} (P : A -> Prop) (l : list A) (d : A) (n : nat) :
  Forall P l -> n < length l -> P (nth n l d).
Proof.
  intros HF Hn. eapply Forall_forall; [exact HF|]. now apply nth_In.
Qed.

(** ** collate_batch *)

Lemma max_len_ge (data : list (list Z)) (s : list Z) :
  In s data -> (length s <= max_len data)%nat.
Proof.
  induction data as [|d data IH]; simpl; [tauto|].
  intros [->|Hin]; [lia|]. specialize (IH Hin). lia.
Qed.

Lemma firstn_repeat {A : Type} (a : A) (n m : nat) :
  firstn n (repeat a m) = repeat a (Nat.min n m).
Proof.
  revert m; induction n as [|n IH]; intros [|m]; simpl; auto.
  now rewrite IH.
Qed.

(** What one sequence becomes when the longest member has length [L] and the
    truncated batch has width [Nat.min L block_size]. *)
Lemma collate_row (s : list Z) (L : nat) :
  (length s <= L)%nat ->
  firstn block_size (s ++ repeat 0%Z (L - length s))
    ++ repeat 0%Z (Z.to_nat (Z.max 0 (Z.of_nat block_size - Z.of_nat (Nat.min L block_size))))
  = firstn block_size s ++ repeat 0%Z (block_size - length s).
Proof.
  intros HL. generalize block_size as bs. intros bs.
  replace (Z.to_nat (Z.max 0 (Z.of_nat bs - Z.of_nat (Nat.min L bs))))
    with (bs - Nat.min L bs)%nat by lia.
  rewrite firstn_app, firstn_repeat, <- app_assoc, <- repeat_app.
  f_equal. f_equal. lia.
Qed.

Lemma shape1_truncated (data : list (list Z)) :
  data <> [] ->
  shape1 (map (firstn block_size) (pad_sequence data 0)) = Nat.min (max_len data) block_size.
Proof.
  unfold pad_sequence. generalize (max_len_ge data). generalize (max_len data) as L.
  destruct data as [|s data]; [congruence|]. intros L HL _. simpl.
  rewrite length_firstn, length_app, repeat_length.
  specialize (HL s (or_introl eq_refl)). lia.
Qed.

(** C5.  For a non-empty batch, [collate_batch] returns; it yields one
    sequence per sample, every one of length exactly [block_size]: the first
    [block_size] ids of the sample's sequence followed by as many pad ids 0
    as are needed to reach [block_size] (so a longer sequence is cut on the
    right and a shorter one is padded on the right); the labels are returned
    in order as one vector. *)
Theorem collate_batch_block_size (batch : list (list Z * Z)) :
  batch <> [] ->
  exists seqs labels,
    collate_batch batch = Ok (seqs, labels)
    /\ seqs = map (fun sample => firstn block_size (fst sample)
                                 ++ repeat 0%Z (block_size - length (fst sample))) batch
    /\ Forall (fun s => length s = block_size) seqs
    /\ length seqs = length batch
    /\ labels = map snd batch.
Proof.
  intros Hne.
  assert (Hrows :
    F_pad_right (map (firstn block_size) (pad_sequence (map fst batch) 0))
      (Z.max 0 (Z.of_nat block_size
                - Z.of_nat (shape1 (map (firstn block_size) (pad_sequence (map fst batch) 0))))) 0
    = map (fun sample => firstn block_size (fst sample)
                         ++ repeat 0%Z (block_size - length (fst sample))) batch).
  { rewrite shape1_truncated by (destruct batch; simpl; congruence).
    unfold F_pad_right, pad_sequence. rewrite !map_map.
    apply map_ext_in. intros [s l] Hin. simpl.
    apply collate_row. apply max_len_ge. now apply (in_map fst) in Hin. }
  destruct batch as [|p batch]; [congruence|].
  eexists _, _. split; [reflexivity|].
  rewrite Hrows. repeat split.
  - apply Forall_forall. intros s Hs. apply in_map_iff in Hs as [[s0 l0] [<- _]].
    simpl. rewrite length_app, length_firstn, repeat_length. lia.
  - now rewrite length_map.
Qed.

Lemma collate_batch_block_size_witness :
  exists seqs labels,
    collate_batch [([1; 2; 3]%Z, 0%Z); (repeat 7%Z 40, 2%Z)] = Ok (seqs, labels)
    /\ seqs = map (fun sample => firstn block_size (fst sample)
                                 ++ repeat 0%Z (block_size - length (fst sample)))
                  [([1; 2; 3]%Z, 0%Z); (repeat 7%Z 40, 2%Z)]
    /\ Forall (fun s => length s = block_size) seqs
    /\ length seqs = 2%nat
    /\ labels = [0; 2]%Z.
Proof.
  apply (collate_batch_block_size [([1; 2; 3]%Z, 0%Z); (repeat 7%Z 40, 2%Z)]).
  discriminate.
Defined.

(** ** The entry point *)

(** The claim C8 at the value [x]: argparse leaves with status 2, the else
    branch of [main] is not reached. *)
Lemma main_rejects_other_value :
  main (Mode "x") = Exits 2 /\ main (Mode "x") <> Prints invalid_mode_message.
Proof. split; [reflexivity | discriminate]. Qed.

(** C8, amended.  Each of the four values e, d, se, sd makes [main] hand over
    to its pipeline; any other supplied value is rejected by the argument
    parser, which leaves with exit status 2 and no pipeline action; without
    the flag, [main] prints the invalid-mode message, runs no pipeline and
    returns normally. *)
Theorem main_dispatch :
  main (Mode "e") = Runs run_classifier
  /\ main (Mode "d") = Runs run_decoder
  /\ main (Mode "se") = Runs run_sanity_check_encoder
  /\ main (Mode "sd") = Runs run_sanity_check_decoder
  /\ (forall v, ~ In v choices -> main (Mode v) = Exits 2)
  /\ (forall v p, main (Mode v) = Runs p -> In v choices)
  /\ main NoFlag = Prints invalid_mode_message.
Proof.
  repeat split; try reflexivity.
  - intros v Hv. unfold main, parse_args.
    destruct (existsb (String.eqb v) choices) eqn:E; [|reflexivity].
    apply existsb_exists in E as [c [Hc Heq]].
    apply String.eqb_eq in Heq. subst c. contradiction.
  - intros v p. unfold main, parse_args.
    destruct (existsb (String.eqb v) choices) eqn:E; [|discriminate].
    intros _. apply existsb_exists in E as [c [Hc Heq]].
    apply String.eqb_eq in Heq. now subst c.
Qed.

(** ** The models called the way the loops call them *)

Lemma Encoder_call_missing_device (self : Encoder.t) (X : list (list Z)) :
  call self X = Err TypeError.
Proof. reflexivity. Qed.

Lemma Decoder_call_missing_device (self : Decoder.t) (X : list (list Z)) :
  call self X = Err TypeError.
Proof. reflexivity. Qed.

(** C2, at every positive count.  [generate] calls [self(idx_cond)] without the
    [device] argument that [forward] requires, so the first iteration raises
    TypeError: no sequence is returned as soon as one new token is asked for. *)
Theorem generate_raises_on_first_step (self : Decoder.t) (g : rng)
    (idx : list (list Z)) (p : positive) :
  Decoder.generate self g idx (Z.pos p) = Err TypeError.
Proof.
  unfold Decoder.generate.
  destruct (Z.to_nat (Z.pos p)) as [|n] eqn:E; [lia|]. reflexivity.
Qed.

(** With no token asked for, the seed comes back as it is. *)
Lemma generate_zero (self : Decoder.t) (g : rng) (idx : list (list Z)) (N : Z) :
  (N <= 0)%Z -> Decoder.generate self g idx N = Ok idx.
Proof.
  intros HN. unfold Decoder.generate.
  replace (Z.to_nat N) with 0 by lia. reflexivity.
Qed.

(** ** compute_perplexity *)

(** The loop never reads past the batch at which the list of losses reaches
    [eval_iters] (and always reads one batch when there is one). *)
Lemma perplexity_loop_prefix {M : Type} `{Module M} (model : M)
    (data_loader : list (list (list Z) * list (list Z))) (n : Z) (losses : list float) :
  perplexity_loop model data_loader n losses
  = perplexity_loop model
      (firstn (Nat.max 1 (Z.to_nat (n - Z.of_nat (length losses)))) data_loader) n losses.
Proof.
  revert losses. induction data_loader as [|[X Y] rest IH]; intros losses.
  - now rewrite firstn_nil.
  - destruct (Nat.max 1 (Z.to_nat (n - Z.of_nat (length losses)))) as [|k] eqn:Ek; [lia|].
    cbn [firstn perplexity_loop].
    destruct (batch_loss model X Y) as [loss|e]; [|reflexivity]. cbn [bind].
    destruct (Z.of_nat (length (losses ++ [loss])) >=? n)%Z eqn:En; [reflexivity|].
    rewrite Z.geb_leb in En. apply Z.leb_gt in En.
    rewrite IH. rewrite length_app in *. cbn [length] in *.
    now replace (Nat.max 1 (Z.to_nat (n - Z.of_nat (length losses + 1)))) with k by lia.
Qed.

Lemma perplexity_loop_length {M : Type} `{Module M} (model : M)
    (data_loader : list (list (list Z) * list (list Z))) (n : Z) (losses out : list float) :
  perplexity_loop model data_loader n losses = Ok out ->
  length out <= Nat.max (length losses + 1) (Z.to_nat n)
  /\ length out <= length losses + length data_loader.
Proof.
  revert losses. induction data_loader as [|[X Y] rest IH]; intros losses.
  - cbn. intros [= <-]. lia.
  - cbn [perplexity_loop].
    destruct (batch_loss model X Y) as [loss|e]; [|discriminate]. cbn [bind].
    destruct (Z.of_nat (length (losses ++ [loss])) >=? n)%Z eqn:En.
    + intros [= <-]. rewrite length_app. cbn [length]. lia.
    + rewrite Z.geb_leb in En. apply Z.leb_gt in En. intros Hout. apply IH in Hout. rewrite length_app in *. cbn [length] in *. lia.
Qed.

(** When every batch yields a loss, the loop appends the losses of the
    leading batches, one by one, until [eval_iters] of them are there. *)
Lemma perplexity_loop_takes {M : Type} `{Module M} (model : M)
    (data_loader : list (list (list Z) * list (list Z))) (n : Z) (losses : list float) :
  Forall (fun b => exists loss, batch_loss model (fst b) (snd b) = Ok loss) data_loader ->
  exists new,
    perplexity_loop model data_loader n losses = Ok (losses ++ new)
    /\ length new = Nat.min (length data_loader)
                             (Nat.max 1 (Z.to_nat (n - Z.of_nat (length losses))))
    /\ Forall2 (fun b loss => batch_loss model (fst b) (snd b) = Ok loss)
               (firstn (length new) data_loader) new.
Proof.
  intros HF. revert losses.
  induction HF as [|[X Y] rest [loss Hloss] _ IH]; intros losses.
  - exists []. cbn. rewrite app_nil_r. repeat split. constructor.
  - cbn [fst snd] in Hloss. cbn [perplexity_loop]. rewrite Hloss. cbn [bind].
    destruct (Z.of_nat (length (losses ++ [loss])) >=? n)%Z eqn:En.
    + rewrite Z.geb_leb in En. apply Z.leb_le in En.
      rewrite length_app in En. cbn [length] in En.
      exists [loss]. split; [reflexivity|]. split; [cbn [length]; lia|].
      cbn. constructor; [assumption | constructor].
    + rewrite Z.geb_leb in En. apply Z.leb_gt in En.
      rewrite length_app in En. cbn [length] in En.
      destruct (IH (losses ++ [loss])) as [new [Hloop [Hlen Hall]]].
      rewrite length_app in Hlen. cbn [length] in Hlen.
      exists (loss :: new). split; [now rewrite Hloop, <- app_assoc|].
      split; [cbn [length]; lia|].
      cbn [length firstn]. constructor; assumption.
Qed.

(** C3, on the code.  Called without an iteration bound, [compute_perplexity]
    uses the bound 100 of its signature, not the module constant
    [eval_iters = 200]: whatever the model, its result only depends on the
    first 100 batches of the loader and at most 100 losses are accumulated;
    when the loader has 100 batches or more and every batch yields a loss,
    the result is exp of the mean of the losses of the first 100 batches.
    And called on a [Decoder] it raises TypeError at the first batch, because
    [decoderLMmodel(X)] does not pass the [device] that [forward] requires. *)
Theorem compute_perplexity_default_bound :
  compute_perplexity_default_eval_iters = 100%Z
  /\ eval_iters = 200%Z
  /\ (forall (M : Type) (inst : Module M) (model : M) data_loader,
        compute_perplexity model data_loader Missing
        = compute_perplexity model (firstn 100 data_loader) Missing)
  /\ (forall (M : Type) (inst : Module M) (model : M) data_loader losses,
        perplexity_loop model data_loader
          (with_default compute_perplexity_default_eval_iters Missing) [] = Ok losses ->
        length losses <= 100)
  /\ (forall (M : Type) (inst : Module M) (model : M) data_loader,
        Forall (fun b => exists loss, batch_loss model (fst b) (snd b) = Ok loss)
               data_loader ->
        100 <= length data_loader ->
        exists losses,
          length losses = 100
          /\ Forall2 (fun b loss => batch_loss model (fst b) (snd b) = Ok loss)
                     (firstn 100 data_loader) losses
          /\ compute_perplexity model data_loader Missing
             = Ok (torch_exp (tensor_mean losses)))
  /\ (forall (d : Decoder.t) X Y rest bound,
        compute_perplexity d ((X, Y) :: rest) bound = Err TypeError).
Proof.
  split; [reflexivity|]. split; [reflexivity|]. split; [|split; [|split]].
  - intros M inst model data_loader. unfold compute_perplexity.
    now rewrite perplexity_loop_prefix.
  - intros M inst model data_loader losses Hl.
    apply perplexity_loop_length in Hl. destruct Hl as [Hl _].
    change (Z.to_nat (with_default compute_perplexity_default_eval_iters Missing))
      with 100 in Hl.
    cbn [length] in Hl. lia.
  - intros M inst model data_loader Hall Hlen.
    destruct (perplexity_loop_takes model data_loader 100 [] Hall)
      as [new [Hloop [Hnew Hfirst]]].
    change (Nat.max 1 (Z.to_nat (100 - Z.of_nat (@length float [])))) with 100 in Hnew.
    rewrite Nat.min_r in Hnew by assumption.
    exists new. split; [assumption|]. split; [now rewrite <- Hnew|].
    unfold compute_perplexity.
    change (with_default compute_perplexity_default_eval_iters Missing) with 100%Z.
    now rewrite Hloop.
  - reflexivity.
Qed.

(** ** compute_classifier_accuracy *)

Lemma expand_same {A : Type} (n : nat) (l : list A) :
  length l = n -> expand n l = l.
Proof.
  destruct l as [|x [|y l]]; cbn; intros <-; reflexivity.
Qed.

Lemma broadcast_same (n : nat) : broadcast n n = Some n.
Proof. unfold broadcast. now rewrite Nat.eqb_refl. Qed.

Lemma map2_length {A B C : Type} (f : A -> B -> C) (l1 : list A) (l2 : list B) :
  length (map2 f l1 l2) = Nat.min (length l1) (length l2).
Proof.
  revert l2; induction l1 as [|a l1 IH]; intros [|b l2]; cbn; auto.
Qed.

Lemma map2_app {A B C : Type} (f : A -> B -> C) (a1 a2 : list A) (b1 b2 : list B) :
  length a1 = length b1 ->
  map2 f (a1 ++ a2) (b1 ++ b2) = map2 f a1 b1 ++ map2 f a2 b2.
Proof.
  revert b1; induction a1 as [|x a1 IH]; intros [|y b1]; cbn; try discriminate; auto.
  intros [= Hl]. now rewrite IH.
Qed.

Lemma map2_ext_in {A B C : Type} (f g : A -> B -> C) (l1 : list A) (l2 : list B) :
  (forall a b, In a l1 -> In b l2 -> f a b = g a b) ->
  map2 f l1 l2 = map2 g l1 l2.
Proof.
  revert l2; induction l1 as [|a l1 IH]; intros [|b l2] Hfg; cbn; auto.
  rewrite Hfg by (now left). f_equal. apply IH. intros; apply Hfg; now right.
Qed.

(** On rows that are not empty, [torch.max] finds an index. *)
Lemma mapM_argmax (m : mat) :
  Forall (fun row => row <> []) m ->
  exists predicted, mapM argmax m = Ok predicted
    /\ length predicted = length m
    /\ forall Y, map2 Z.eqb predicted Y = map2 hit m Y.
Proof.
  induction 1 as [|row m Hrow _ IH].
  - exists []. repeat split.
  - destruct IH as [ps [Hps [Hlen Heq]]].
    destruct row as [|x row]; [congruence|].
    exists (Z.of_nat (argmax_from 0 x 1 row) :: ps). cbn. rewrite Hps. cbn.
    repeat split; [now rewrite Hlen|].
    intros [|y Y]; [reflexivity|]. cbn. now rewrite Heq.
Qed.

Lemma correct_in_batch_hits (m : mat) (Y : list Z) :
  length m = length Y -> Forall (fun row => row <> []) m ->
  correct_in_batch (Tensor2 m) Y = Ok (hits m Y).
Proof.
  intros Hlen Hrows. destruct (mapM_argmax m Hrows) as [ps [Hps [Hl Heq]]].
  cbn. rewrite Hps. cbn. unfold eq_count.
  replace (length ps) with (length Y) by congruence.
  rewrite broadcast_same, !expand_same by congruence.
  now rewrite Heq.
Qed.

Lemma hits_bounds (m : mat) (Y : list Z) :
  (0 <= hits m Y <= Z.of_nat (length Y))%Z.
Proof.
  unfold hits. pose proof (filter_length_le (fun b : bool => b) (map2 hit m Y)) as Hf.
  rewrite map2_length in Hf. lia.
Qed.

Lemma hits_app (m1 m2 : mat) (Y1 Y2 : list Z) :
  length m1 = length Y1 ->
  hits (m1 ++ m2) (Y1 ++ Y2) = (hits m1 Y1 + hits m2 Y2)%Z.
Proof.
  intros Hl. unfold hits. rewrite map2_app by assumption.
  rewrite filter_app, length_app. lia.
Qed.

Lemma hits_all (m : mat) (Y : list Z) :
  Forall2 (fun row y => hit row y = true) m Y -> hits m Y = Z.of_nat (length Y).
Proof.
  unfold hits. induction 1 as [|row y m Y Hh _ IH]; [reflexivity|].
  cbn [map2 filter]. rewrite Hh. cbn [length]. lia.
Qed.

Lemma samples_concat (data_loader : list (list (list Z) * list Z)) :
  samples data_loader = Z.of_nat (length (concat (map snd data_loader))).
Proof.
  induction data_loader as [|[X Y] rest IH]; [reflexivity|].
  cbn. rewrite length_app. unfold samples in IH. cbn in IH. lia.
Qed.

(** The loop adds the hits and the sizes of the batches to its counters. *)
Lemma accuracy_loop_totals {M : Type} `{Module M} (classifier : M)
    (data_loader : list (list (list Z) * list Z)) (outs : list mat) (c t : Z) :
  Forall2 (fun b m => call classifier (fst b) = Ok (Tensor2 m)
                      /\ length m = length (snd b)
                      /\ Forall (fun row => row <> []) m) data_loader outs ->
  accuracy_loop classifier data_loader c t
  = Ok ((c + hits (concat outs) (concat (map snd data_loader)))%Z,
        (t + samples data_loader)%Z).
Proof.
  intros HF. revert c t.
  induction HF as [|[X Y] m rest outs [Hcall [Hlen Hrows]] _ IH]; intros c t.
  - cbn. do 2 f_equal; unfold hits; cbn; lia.
  - cbn [accuracy_loop]. cbn [fst snd] in *. rewrite Hcall. cbn [bind].
    rewrite correct_in_batch_hits by assumption. cbn [bind].
    rewrite IH. cbn [map concat snd]. rewrite hits_app by assumption.
    do 2 f_equal; [lia|]. unfold samples. cbn. lia.
Qed.

(** The loop's second counter is the number of samples. *)
Lemma accuracy_loop_samples {M : Type} `{Module M} (classifier : M)
    (data_loader : list (list (list Z) * list Z)) (c t c' t' : Z) :
  accuracy_loop classifier data_loader c t = Ok (c', t') ->
  t' = (t + samples data_loader)%Z.
Proof.
  revert c t. induction data_loader as [|[X Y] rest IH]; intros c t.
  - cbn. intros [= <- <-]. lia.
  - cbn [accuracy_loop].
    destruct (call classifier X) as [o|e]; [|discriminate]. cbn [bind].
    destruct (correct_in_batch o Y) as [k|e]; [|discriminate]. cbn [bind].
    intros Hl. apply IH in Hl. unfold samples in *. cbn. lia.
Qed.

Lemma percentage_bounds (c t : Z) :
  (0 <= c <= t)%Z -> (0 < t)%Z ->
  (0 <= inject_Z (100 * c) / inject_Z t)%Q
  /\ (inject_Z (100 * c) / inject_Z t <= 100)%Q
  /\ (c = t -> inject_Z (100 * c) / inject_Z t == 100)%Q.
Proof.
  intros Hc Ht. destruct t as [|p|p]; try lia.
  unfold Qle, Qeq, Qdiv, Qmult, Qinv, inject_Z. cbn [Qnum Qden].
  repeat split; try intros ->; nia.
Qed.

(** The claim C7 at the empty loader: no value is returned, the division
    raises. *)
Lemma accuracy_of_empty_loader_raises :
  compute_classifier_accuracy (fun _ : list (list Z) => Tensor2 []) []
  = Err ZeroDivisionError
  /\ ~ (exists acc : Q,
          compute_classifier_accuracy (fun _ : list (list Z) => Tensor2 []) [] = Ok acc
          /\ (0 <= acc)%Q /\ (acc <= 100)%Q).
Proof.
  split; [reflexivity|]. intros [acc [Hacc _]]. discriminate Hacc.
Qed.

(** C7, amended.  When the loader yields at least one sample and every call
    [classifier(X)] returns one non-empty row of class scores per sample,
    [compute_classifier_accuracy] returns 100 times the number of samples whose
    argmax class equals the label, divided by the number of samples; the value
    lies in [0, 100], and it is 100 when every sample is predicted right. *)
Theorem accuracy_in_range {M : Type} `{Module M} (classifier : M)
    (data_loader : list (list (list Z) * list Z)) (outs : list mat) :
  Forall2 (fun b m => call classifier (fst b) = Ok (Tensor2 m)
                      /\ length m = length (snd b)
                      /\ Forall (fun row => row <> []) m) data_loader outs ->
  (0 < samples data_loader)%Z ->
  exists acc : Q,
    compute_classifier_accuracy classifier data_loader = Ok acc
    /\ acc = (inject_Z (100 * hits (concat outs) (concat (map snd data_loader)))
              / inject_Z (samples data_loader))%Q
    /\ (0 <= acc)%Q /\ (acc <= 100)%Q
    /\ (Forall2 (fun row y => hit row y = true)
                (concat outs) (concat (map snd data_loader)) ->
        (acc == 100)%Q).
Proof.
  intros HF Hpos. eexists. unfold compute_classifier_accuracy.
  rewrite (accuracy_loop_totals classifier data_loader outs 0%Z 0%Z HF). cbn [bind].
  rewrite !Z.add_0_l.
  destruct (samples data_loader =? 0)%Z eqn:E; [apply Z.eqb_eq in E; lia|].
  split; [reflexivity|]. split; [reflexivity|].
  pose proof (hits_bounds (concat outs) (concat (map snd data_loader))) as Hb.
  rewrite <- samples_concat in Hb.
  destruct (percentage_bounds _ _ Hb Hpos) as [H0 [H100 Hall]].
  repeat split; try assumption.
  intros Hhit. apply Hall. rewrite (hits_all _ _ Hhit). now rewrite samples_concat.
Qed.

Lemma accuracy_in_range_witness :
  exists acc : Q,
    compute_classifier_accuracy
      (fun _ : list (list Z) => Tensor2 [[1; 0]; [0; 1]]%R)
      [([[5; 6]; [7; 8]]%Z, [0; 0]%Z)] = Ok acc
    /\ acc = (inject_Z (100 * hits (concat [[[1; 0]; [0; 1]]%R]) (concat (map snd [([[5; 6]; [7; 8]]%Z, [0; 0]%Z)])))
              / inject_Z (samples [([[5; 6]; [7; 8]]%Z, [0; 0]%Z)]))%Q
    /\ (0 <= acc)%Q /\ (acc <= 100)%Q
    /\ (Forall2 (fun row y => hit row y = true)
                (concat [[[1; 0]; [0; 1]]%R]) (concat (map snd [([[5; 6]; [7; 8]]%Z, [0; 0]%Z)])) ->
        (acc == 100)%Q).
Proof.
  apply (accuracy_in_range (fun _ : list (list Z) => Tensor2 [[1; 0]; [0; 1]]%R)
           [([[5; 6]; [7; 8]]%Z, [0; 0]%Z)] [[[1; 0]; [0; 1]]%R]).
  - constructor; [|constructor]. cbn. split; [reflexivity|]. split; [reflexivity|].
    repeat constructor; discriminate.
  - reflexivity.
Defined.

(** Whatever the classifier, a value is only returned when the loader
    yielded a sample, and it is 100 times a count divided by the number of
    samples. *)
Lemma accuracy_returns_with_a_sample {M : Type} `{Module M} (classifier : M)
    (data_loader : list (list (list Z) * list Z)) (acc : Q) :
  compute_classifier_accuracy classifier data_loader = Ok acc ->
  (0 < samples data_loader)%Z
  /\ exists total_correct,
       acc = (inject_Z (100 * total_correct) / inject_Z (samples data_loader))%Q.
Proof.
  assert (Hsamples_nonneg : (0 <= samples data_loader)%Z).
  { rewrite samples_concat. lia. }
  unfold compute_classifier_accuracy.
  destruct (accuracy_loop classifier data_loader 0 0) as [[c t]|e] eqn:El; cbn [bind];
    [|discriminate].
  apply accuracy_loop_samples in El. rewrite Z.add_0_l in El. subst t.
  destruct (samples data_loader =? 0)%Z eqn:E; [discriminate|].
  apply Z.eqb_neq in E. intros [= <-]. split; [lia|]. now exists c.
Qed.

(** C10.  [compute_classifier_accuracy] divides by the number of samples the
    loader yields.  Whatever the classifier, a value is only returned when
    the loader yielded at least one sample, and a loader that yields no batch
    raises the division by zero.  When every call [classifier(X)] returns one
    non-empty row of class scores per sample, a value is returned exactly
    when the loader yields at least one sample, and it is 100 times the
    number of hits divided by the number of samples; when the batches hold no
    sample, the division by zero is what is raised. *)
Theorem accuracy_needs_a_sample {M : Type} `{Module M} (classifier : M)
    (data_loader : list (list (list Z) * list Z)) :
  (forall acc, compute_classifier_accuracy classifier data_loader = Ok acc ->
     (0 < samples data_loader)%Z
     /\ exists total_correct,
          acc = (inject_Z (100 * total_correct) / inject_Z (samples data_loader))%Q)
  /\ (data_loader = [] ->
      compute_classifier_accuracy classifier data_loader = Err ZeroDivisionError)
  /\ (forall outs : list mat,
      Forall2 (fun b m => call classifier (fst b) = Ok (Tensor2 m)
                          /\ length m = length (snd b)
                          /\ Forall (fun row => row <> []) m) data_loader outs ->
      ((exists acc, compute_classifier_accuracy classifier data_loader = Ok acc)
       <-> (0 < samples data_loader)%Z)
      /\ (forall acc, compute_classifier_accuracy classifier data_loader = Ok acc ->
            acc = (inject_Z (100 * hits (concat outs) (concat (map snd data_loader)))
                   / inject_Z (samples data_loader))%Q)
      /\ (samples data_loader = 0%Z ->
          compute_classifier_accuracy classifier data_loader = Err ZeroDivisionError)).
Proof.
  split; [|split].
  - intros acc. apply accuracy_returns_with_a_sample.
  - intros ->. reflexivity.
  - intros outs HF.
    assert (Hval : compute_classifier_accuracy classifier data_loader
                   = if (samples data_loader =? 0)%Z then Err ZeroDivisionError
                     else Ok (inject_Z (100 * hits (concat outs)
                                                (concat (map snd data_loader)))
                              / inject_Z (samples data_loader))%Q).
    { unfold compute_classifier_accuracy.
      rewrite (accuracy_loop_totals classifier data_loader outs 0%Z 0%Z HF). cbn [bind].
      now rewrite !Z.add_0_l. }
    split; [split|split].
    + intros [acc Hacc].
      now apply (accuracy_returns_with_a_sample classifier data_loader acc).
    + intros Hpos. rewrite Hval.
      destruct (samples data_loader =? 0)%Z eqn:E; [apply Z.eqb_eq in E; lia|].
      now eexists.
    + intros acc. rewrite Hval.
      destruct (samples data_loader =? 0)%Z; [discriminate|]. now intros [= <-].
    + intros E. rewrite Hval, E. reflexivity.
Qed.

(** A loader of three samples; the Encoder on a loader without batch; and a
    loader whose only batch is empty. *)
Lemma accuracy_needs_a_sample_witness :
  (exists acc,
     compute_classifier_accuracy
       (fun _ : list (list Z) => Tensor2 [[0; 1]; [0; 1]; [1; 0]]%R)
       [([[5; 6]; [7; 8]; [9; 9]]%Z, [1; 0; 0]%Z)] = Ok acc
     /\ acc = (inject_Z (100 * hits [[0; 1]; [0; 1]; [1; 0]]%R [1; 0; 0]%Z)
               / inject_Z 3)%Q)
  /\ compute_classifier_accuracy tiny_encoder [] = Err ZeroDivisionError
  /\ compute_classifier_accuracy (fun _ : list (list Z) => Tensor2 []) [([], [])]
     = Err ZeroDivisionError.
Proof.
  split; [|split].
  - destruct (accuracy_needs_a_sample
                (fun _ : list (list Z) => Tensor2 [[0; 1]; [0; 1]; [1; 0]]%R)
                [([[5; 6]; [7; 8]; [9; 9]]%Z, [1; 0; 0]%Z)]) as (_ & _ & Hcall).
    destruct (Hcall [[[0; 1]; [0; 1]; [1; 0]]%R]) as (Hiff & Hvalue & _).
    + constructor; [|constructor]. cbn. split; [reflexivity|]. split; [reflexivity|].
      repeat constructor; discriminate.
    + destruct (proj2 Hiff eq_refl) as [acc Hacc].
      exists acc. split; [exact Hacc|]. exact (Hvalue acc Hacc).
  - now apply (accuracy_needs_a_sample tiny_encoder []).
  - destruct (accuracy_needs_a_sample (fun _ : list (list Z) => Tensor2 []) [([], [])])
      as (_ & _ & Hcall).
    destruct (Hcall [[]]) as (_ & _ & Hzero).
    + constructor; [|constructor]. cbn. repeat split. constructor.
    + now apply Hzero.
Defined.

(** ** Shapes through the layers *)

Lemma Linear_forward_returns (i o : nat) (l : Linear.t) (x : vec) :
  Linear.wf i o l -> length x = i ->
  returns (Linear.forward l x) (fun y => length y = o).
Proof.
  intros (Hi & Ho & Hw & Hr & Hb) Hx. unfold Linear.forward.
  rewrite Hx, Hi, Nat.eqb_refl. eexists. split; [reflexivity|].
  destruct (Linear.bias l) as [b|].
  - rewrite map2_length, Hw, Hb. lia.
  - now rewrite length_map.
Qed.

Lemma Linear_forward3_returns (i o : nat) (l : Linear.t) (b r : nat) (x : tensor3) :
  Linear.wf i o l -> has_shape3 b r i x ->
  returns (Linear.forward3 l x) (has_shape3 b r o).
Proof.
  intros Hl Hx. unfold Linear.forward3. eapply returns_rows; [|exact Hx].
  intros row Hrow. now apply Linear_forward_returns with (i := i).
Qed.

Lemma has_shape3_shape1 {A : Type} (b r c : nat) (x : list (list (list A))) :
  has_shape3 b r c x -> 1 <= b -> shape1 x = r.
Proof.
  intros [Hb Hx] Hpos. destruct x as [|m x]; cbn in *; [lia|].
  inversion Hx as [|? ? [Hm _] _]. exact Hm.
Qed.

Lemma has_shape2_shape1 {A : Type} (r c : nat) (m : list (list A)) :
  has_shape2 r c m -> 1 <= r -> shape1 m = c.
Proof.
  intros [Hr Hm] Hpos. destruct m as [|row m]; cbn in *; [lia|].
  now inversion Hm.
Qed.

(** ** Softmax *)

Lemma eexp_nonneg (x : ext) : (0 <= eexp x)%R.
Proof. destruct x; cbn; [lra | left; apply exp_pos]. Qed.

Lemma sum_cons (x : R) (l : list R) : sum (x :: l) = (x + sum l)%R.
Proof. reflexivity. Qed.

Lemma sum_nonneg (l : list R) :
  Forall (fun y => (0 <= y)%R) l -> (0 <= sum l)%R.
Proof.
  induction 1 as [|y l Hy _ IH]; [cbn; lra|]. rewrite sum_cons. lra.
Qed.

Lemma sum_ge_in (l : list R) (x : R) :
  Forall (fun y => (0 <= y)%R) l -> In x l -> (x <= sum l)%R.
Proof.
  induction 1 as [|y l Hy Hl IH]; [intros []|].
  rewrite sum_cons. pose proof (sum_nonneg l Hl) as Hs.
  intros [->|Hin]; [lra|]. specialize (IH Hin). lra.
Qed.

Lemma sum_eexp_pos (l : list ext) (r : R) :
  In (Fin r) l -> (0 < sum (map eexp l))%R.
Proof.
  intros Hin. apply Rlt_le_trans with (exp r); [apply exp_pos|].
  apply sum_ge_in.
  - apply Forall_forall. intros y Hy. apply in_map_iff in Hy as [e [<- _]].
    apply eexp_nonneg.
  - change (exp r) with (eexp (Fin r)). now apply in_map.
Qed.

Lemma softmax_length (l : list ext) : length (softmax l) = length l.
Proof. unfold softmax. now rewrite length_map. Qed.

Lemma softmax_nth (l : list ext) (j : nat) :
  j < length l ->
  nth j (softmax l) 0%R = (eexp (nth j l NegInf) / sum (map eexp l))%R.
Proof.
  intros Hj. unfold softmax. now rewrite nth_map_in with (d' := NegInf).
Qed.

(** ** The causal mask *)

Lemma mask_causal (n_embd hs : nat) (h : Head.t) (T : nat) :
  Head.wf n_embd hs h -> T <= block_size ->
  Head.mask h T = future T.
Proof.
  intros (_ & _ & _ & _ & _ & _ & Htril) HT.
  unfold Head.mask, slice2, future. rewrite Htril. unfold tril_ones.
  rewrite firstn_map, firstn_seq, Nat.min_l by assumption.
  rewrite !map_map. apply map_ext. intros i.
  rewrite firstn_map, firstn_seq, Nat.min_l by assumption.
  rewrite map_map. apply map_ext. intros j.
  now destruct (j <=? i).
Qed.

(** Beyond [block_size] the slice keeps the size of the buffer. *)
Lemma mask_length (n_embd hs : nat) (h : Head.t) (T : nat) :
  Head.wf n_embd hs h ->
  length (Head.mask h T) = Nat.min T block_size.
Proof.
  intros (_ & _ & _ & _ & _ & _ & Htril).
  unfold Head.mask, slice2. rewrite Htril. unfold tril_ones.
  now rewrite !length_map, length_firstn, length_map, length_seq.
Qed.

Lemma mask_shape (n_embd hs : nat) (h : Head.t) (T : nat) :
  Head.wf n_embd hs h ->
  has_shape2 (Nat.min T block_size) (Nat.min T block_size) (Head.mask h T).
Proof.
  intros Hwf. split; [now apply mask_length with (n_embd := n_embd) (hs := hs)|].
  destruct Hwf as (_ & _ & _ & _ & _ & _ & Htril).
  unfold Head.mask, slice2. rewrite Htril. unfold tril_ones.
  apply Forall_forall. intros row Hrow.
  apply in_map_iff in Hrow as [r1 [<- Hr1]].
  apply in_map_iff in Hr1 as [r2 [<- Hr2]].
  apply firstn_In in Hr2. apply in_map_iff in Hr2 as [i [<- _]].
  now rewrite length_map, length_firstn, length_map, length_seq.
Qed.

Lemma future_shape (T : nat) : has_shape2 T T (future T).
Proof.
  unfold future. split; [now rewrite length_map, length_seq|].
  apply Forall_forall. intros row Hrow. apply in_map_iff in Hrow as [i [<- _]].
  now rewrite length_map, length_seq.
Qed.

Lemma shape1_of_shape2 {A : Type} (T : nat) (m : list (list A)) :
  has_shape2 T T m -> shape1 m = T.
Proof.
  intros [Hl Hr]. destruct m as [|row m]; cbn in *; [assumption|].
  now inversion Hr.
Qed.

(** Within [block_size] the mask has the size of the affinities and
    [masked_fill] writes [value] at the future positions only. *)
Lemma masked_fill_causal {A : Type} (n_embd hs : nat) (h : Head.t) (T : nat)
    (w : list (list (list A))) (value : A) :
  Head.wf n_embd hs h -> T <= block_size ->
  Forall (has_shape2 T T) w ->
  masked_fill w T (Head.mask h T) value
  = Ok (map (fun wb => map2 (map2 (fill value)) wb (future T)) w).
Proof.
  intros Hwf HT Hw. rewrite (mask_causal n_embd hs h T Hwf HT).
  destruct (future_shape T) as [Hfl Hfr].
  unfold masked_fill. rewrite Hfl, (shape1_of_shape2 T (future T) (future_shape T)).
  rewrite broadcast_same. f_equal.
  apply map_ext_in. intros wb Hwb.
  eapply Forall_forall in Hw; [|exact Hwb]. destruct Hw as [Hwl Hwr].
  rewrite !expand_same by assumption.
  apply map2_ext_in. intros wrow mrow Hwrow Hmrow.
  eapply Forall_forall in Hwr; [|exact Hwrow].
  eapply Forall_forall in Hfr; [|exact Hmrow].
  now rewrite !expand_same by assumption.
Qed.

(** Past [block_size] the mask keeps the size of the buffer, which does not
    broadcast against the affinities. *)
Lemma masked_fill_too_long {A : Type} (n_embd hs : nat) (h : Head.t) (T : nat)
    (w : list (list (list A))) (value : A) :
  Head.wf n_embd hs h -> block_size < T ->
  masked_fill w T (Head.mask h T) value = Err RuntimeError.
Proof.
  intros Hwf HT. unfold masked_fill.
  rewrite (mask_length n_embd hs h T Hwf), Nat.min_r by lia.
  unfold broadcast.
  destruct (T =? block_size) eqn:E1; [apply Nat.eqb_eq in E1; lia|].
  destruct (T =? 1) eqn:E2; [apply Nat.eqb_eq in E2; rewrite block_size_eq in HT; lia|].
  destruct (block_size =? 1) eqn:E3; [apply Nat.eqb_eq in E3; rewrite block_size_eq in E3; lia|].
  reflexivity.
Qed.

(** What the softmax makes of one affinity. *)
Lemma softmax_entry (row : list ext) (j : nat) :
  j < length row ->
  (nth j row NegInf = NegInf -> nth j (softmax row) 0%R = 0%R)
  /\ (forall r, nth j row NegInf = Fin r -> (0 < nth j (softmax row) 0)%R).
Proof.
  intros Hj. rewrite softmax_nth by assumption. split.
  - intros ->. cbn. unfold Rdiv. apply Rmult_0_l.
  - intros r Hr. rewrite Hr. cbn.
    apply Rmult_lt_0_compat; [apply exp_pos|]. apply Rinv_0_lt_compat.
    apply sum_eexp_pos with (r := r). rewrite <- Hr. now apply nth_In.
Qed.

(** The affinities before masking: [q @ k.transpose(-2, -1)] scaled. *)
Lemma affinities_shape (b T hs : nat) (q k : tensor3) (scale : R) :
  has_shape3 b T hs q -> has_shape3 b T hs k ->
  let wei := map2 (fun qb kb => map (map (fun a => Fin (a * scale)%R)) (matmul_nt qb kb))
                  q k in
  has_shape3 b T T wei /\ finite3 wei.
Proof.
  intros [Hql Hq] [Hkl Hk]. cbn zeta. revert b k Hql Hkl Hk.
  induction Hq as [|qb q [Hqb _] _ IH]; intros b k Hql Hkl Hk.
  - cbn. split; [split; [assumption | constructor] | constructor].
  - destruct k as [|kb k]; [cbn in *; lia|].
    inversion Hk as [|? ? [Hkb _] Hk']; subst.
    destruct (IH (length q) k eq_refl ltac:(cbn in *; lia) Hk') as [[Hl Hsh] Hfin].
    cbn [map2]. split; [split|].
    + cbn [length] in *. now rewrite Hl.
    + constructor; [|assumption]. unfold matmul_nt. split.
      * now rewrite !length_map.
      * apply Forall_forall. intros row Hrow.
        apply in_map_iff in Hrow as [r1 [<- Hr1]].
        apply in_map_iff in Hr1 as [r2 [<- _]].
        now rewrite !length_map.
    + constructor; [|assumption].
      apply Forall_forall. intros row Hrow.
      apply in_map_iff in Hrow as [r1 [<- _]].
      apply Forall_forall. intros e He.
      apply in_map_iff in He as [a [<- _]]. now eexists.
Qed.

(** ** Head.forward *)

Lemma Forall_map2 {A B C : Type} (P : C -> Prop) (f : A -> B -> C)
    (l1 : list A) (l2 : list B) :
  (forall a b, In a l1 -> In b l2 -> P (f a b)) -> Forall P (map2 f l1 l2).
Proof.
  revert l2; induction l1 as [|a l1 IH]; intros [|b l2] Hf; cbn; constructor.
  - apply Hf; now left.
  - apply IH. intros; apply Hf; now right.
Qed.

Lemma matmul_shape (T hs : nat) (a v : mat) :
  has_shape2 T T a -> has_shape2 T hs v -> has_shape2 T hs (matmul a v).
Proof.
  intros [Hal Har] Hv. unfold matmul. split; [now rewrite length_map|].
  apply Forall_forall. intros row Hrow. apply in_map_iff in Hrow as [r [<- Hr]].
  unfold columns. rewrite !length_map, length_seq.
  apply has_shape2_shape1 with (r := T); [assumption|].
  destruct a; [contradiction | cbn in Hal; lia].
Qed.

Lemma map2_matmul_shape (b T hs : nat) (wei v : tensor3) :
  has_shape3 b T T wei -> has_shape3 b T hs v ->
  has_shape3 b T hs (map2 matmul wei v).
Proof.
  intros [Hwl Hw] [Hvl Hv]. split.
  - rewrite map2_length, Hwl, Hvl. apply Nat.min_id.
  - apply Forall_map2. intros a m Ha Hm. apply matmul_shape.
    + eapply Forall_forall in Hw; eassumption.
    + eapply Forall_forall in Hv; eassumption.
Qed.

Lemma softmax_shape (b T : nat) (w : list (list (list ext))) :
  has_shape3 b T T w -> has_shape3 b T T (map (map softmax) w).
Proof.
  intros [Hl Hw]. split; [now rewrite length_map|].
  apply Forall_forall. intros m Hm. apply in_map_iff in Hm as [wb [<- Hwb]].
  eapply Forall_forall in Hw; [|exact Hwb]. destruct Hw as [Hwl Hwr].
  split; [now rewrite length_map|].
  apply Forall_forall. intros row Hrow. apply in_map_iff in Hrow as [r [<- Hr]].
  rewrite softmax_length. eapply Forall_forall in Hwr; eassumption.
Qed.

Lemma masked_shape {A : Type} (b T : nat) (w : list (list (list A))) (value : A) :
  has_shape3 b T T w ->
  has_shape3 b T T (map (fun wb => map2 (map2 (fill value)) wb (future T)) w).
Proof.
  intros [Hl Hw]. destruct (future_shape T) as [Hfl Hfr].
  split; [now rewrite length_map|].
  apply Forall_forall. intros m Hm. apply in_map_iff in Hm as [wb [<- Hwb]].
  eapply Forall_forall in Hw; [|exact Hwb]. destruct Hw as [Hwl Hwr].
  split; [rewrite map2_length, Hwl, Hfl; apply Nat.min_id|].
  apply Forall_map2. intros wrow mrow Hwrow Hmrow.
  eapply Forall_forall in Hwr; [|exact Hwrow].
  eapply Forall_forall in Hfr; [|exact Hmrow].
  cbn beta in Hwr, Hfr. rewrite map2_length, Hwr, Hfr. apply Nat.min_id.
Qed.

(** The value of [wei] after the softmax, whenever the sequence fits the
    mask of a causal head. *)
Lemma attention_value (n_embd hs b T : nat) (h : Head.t) (x : tensor3) :
  Head.wf n_embd hs h -> 1 <= hs ->
  has_shape3 b T n_embd x -> shape1 x = T ->
  (Head.decoding h = true -> T <= block_size) ->
  exists w0,
    has_shape3 b T T w0 /\ finite3 w0
    /\ Head.attention h x
       = Ok (map (map softmax)
               (if Head.decoding h
                then map (fun wb => map2 (map2 (fill NegInf)) wb (future T)) w0
                else w0)).
Proof.
  intros Hwf Hhs Hx HT Hdec.
  pose proof Hwf as (Hk & _ & Hq & _ & _ & _ & _).
  unfold Head.attention. rewrite HT.
  destruct (Linear_forward3_returns n_embd hs _ b T x Hk Hx) as [k [-> Hks]].
  destruct (Linear_forward3_returns n_embd hs _ b T x Hq Hx) as [q [-> Hqs]].
  cbn [bind].
  destruct Hk as (_ & -> & _). destruct hs as [|hs']; [lia|]. cbn [pow_neg_half bind].
  set (scale := (/ sqrt (INR (S hs')))%R).
  destruct (affinities_shape b T (S hs') q k scale Hqs Hks) as [Hsh Hfin].
  eexists. split; [exact Hsh|]. split; [exact Hfin|].
  destruct (Head.decoding h); [|reflexivity].
  rewrite (masked_fill_causal n_embd (S hs') h T _ NegInf Hwf (Hdec eq_refl) (proj2 Hsh)).
  reflexivity.
Qed.

Lemma attention_returns (n_embd hs b T : nat) (h : Head.t) (x : tensor3) :
  Head.wf n_embd hs h -> 1 <= hs ->
  has_shape3 b T n_embd x -> shape1 x = T ->
  (Head.decoding h = true -> T <= block_size) ->
  returns (Head.attention h x) (has_shape3 b T T).
Proof.
  intros Hwf Hhs Hx HT Hdec.
  destruct (attention_value n_embd hs b T h x Hwf Hhs Hx HT Hdec) as [w0 [Hsh [_ Hatt]]].
  eexists. split; [exact Hatt|]. apply softmax_shape.
  destruct (Head.decoding h); [now apply masked_shape | assumption].
Qed.

Lemma Head_forward_returns (n_embd hs b T : nat) (h : Head.t) (x : tensor3) :
  Head.wf n_embd hs h -> 1 <= hs ->
  has_shape3 b T n_embd x -> shape1 x = T ->
  (Head.decoding h = true -> T <= block_size) ->
  returns (Head.forward h x) (has_shape3 b T hs).
Proof.
  intros Hwf Hhs Hx HT Hdec. unfold Head.forward.
  eapply returns_bind; [exact (attention_returns n_embd hs b T h x Hwf Hhs Hx HT Hdec)|].
  intros wei Hwei. cbn beta.
  pose proof Hwf as (_ & _ & _ & _ & Hv & _ & _).
  eapply returns_bind; [exact (Linear_forward3_returns n_embd hs _ b T x Hv Hx)|].
  intros v Hvs. cbn beta. eexists. split; [reflexivity|].
  now apply map2_matmul_shape.
Qed.

(** ** The causal head and block_size *)

Lemma has_shape3_empty {A : Type} (r c r' c' : nat) (t : list (list (list A))) :
  has_shape3 0 r c t -> t = [] /\ has_shape3 0 r' c' t.
Proof.
  intros [Hl _]. destruct t; [|discriminate]. repeat split. constructor.
Qed.

(** C9.  For a causal head built by [__init__] and a batch of at least one
    sequence of length T: when T <= block_size the mask slice has the T by T
    shape of the affinities and [forward] returns, with an output of shape
    (B, T, head_size); when T > block_size the slice stays block_size by
    block_size, does not match, and the masking step raises. *)
Theorem causal_head_needs_block_size (n_embd hs B T : nat) (h : Head.t) (x : tensor3) :
  Head.wf n_embd hs h -> 1 <= hs -> Head.decoding h = true ->
  1 <= B -> has_shape3 B T n_embd x ->
  (T <= block_size ->
     has_shape2 T T (Head.mask h T)
     /\ returns (Head.forward h x) (has_shape3 B T hs))
  /\ (block_size < T ->
     has_shape2 block_size block_size (Head.mask h T)
     /\ ~ has_shape2 T T (Head.mask h T)
     /\ Head.forward h x = Err RuntimeError).
Proof.
  intros Hwf Hhs Hdec HB Hx.
  pose proof (has_shape3_shape1 B T n_embd x Hx HB) as Hs1.
  pose proof (mask_shape n_embd hs h T Hwf) as Hmask.
  split; intros HT.
  - rewrite Nat.min_l in Hmask by assumption. split; [assumption|].
    apply Head_forward_returns with (n_embd := n_embd); auto.
  - rewrite Nat.min_r in Hmask by lia. split; [assumption|]. split.
    + intros [Hl _]. destruct Hmask as [Hl' _]. lia.
    + pose proof Hwf as (Hk & _ & Hq & _ & _ & _ & _).
      unfold Head.forward, Head.attention. rewrite Hs1, Hdec.
      destruct (Linear_forward3_returns n_embd hs _ B T x Hk Hx) as [k [-> _]].
      destruct (Linear_forward3_returns n_embd hs _ B T x Hq Hx) as [q [-> _]].
      cbn [bind].
      destruct Hk as (_ & -> & _). destruct hs as [|hs']; [lia|]. cbn [pow_neg_half bind].
      now rewrite (masked_fill_too_long n_embd (S hs') h T _ NegInf Hwf HT).
Qed.

(** ** MultiHeadAttention.forward *)

Lemma has_shape3_retime {A : Type} (b r r' c : nat) (t : list (list (list A))) :
  has_shape3 b r' c t -> (1 <= b -> r' = r) -> has_shape3 b r c t.
Proof.
  intros Hsh Hr. destruct b as [|b'].
  - now destruct (has_shape3_empty r' c r c t Hsh).
  - now rewrite <- Hr by lia.
Qed.

Lemma has_shape3_self {A : Type} (b r c : nat) (t : list (list (list A))) :
  has_shape3 b r c t -> has_shape3 b (shape1 t) c t.
Proof.
  intros Hsh. apply has_shape3_retime with (r' := r); [assumption|].
  intros Hb. symmetry. now apply has_shape3_shape1 with (b := b) (c := c).
Qed.

Lemma shape1_le {A : Type} (b r c bound : nat) (t : list (list (list A))) :
  has_shape3 b r c t -> r <= bound -> shape1 t <= bound.
Proof.
  intros Hsh Hr. destruct b as [|b'].
  - destruct (has_shape3_empty r c r c t Hsh) as [-> _]. cbn. lia.
  - now rewrite (has_shape3_shape1 (S b') r c t Hsh) by lia.
Qed.

(** [Head.forward] returns on every batch, empty or not. *)
Lemma Head_forward_shape (n_embd hs b T : nat) (h : Head.t) (x : tensor3) :
  Head.wf n_embd hs h -> 1 <= hs ->
  has_shape3 b T n_embd x ->
  (Head.decoding h = true -> T <= block_size) ->
  returns (Head.forward h x) (has_shape3 b T hs).
Proof.
  intros Hwf Hhs Hx Hdec.
  assert (Hfit : Head.decoding h = true -> shape1 x <= block_size).
  { intros Hd. apply shape1_le with (b := b) (r := T) (c := n_embd); auto. }
  eapply returns_weaken.
  - exact (Head_forward_returns n_embd hs b (shape1 x) h x Hwf Hhs
             (has_shape3_self b T n_embd x Hx) eq_refl Hfit).
  - cbn beta. intros out Hout. apply has_shape3_retime with (r' := shape1 x); [assumption|].
    intros Hb. now apply has_shape3_shape1 with (b := b) (c := n_embd).
Qed.

(** Concatenating one more tensor along the last axis. *)
Lemma cat_step_shape {A : Type} (b r c1 c2 : nat) (acc o : list (list (list A))) :
  has_shape3 b r c1 acc -> has_shape3 b r c2 o ->
  has_shape3 b r (c1 + c2) (map2 (map2 (@app A)) acc o).
Proof.
  intros [Hal Ha] [Hol Ho]. split; [rewrite map2_length, Hal, Hol; apply Nat.min_id|].
  apply Forall_map2. intros ma mo Hma Hmo.
  eapply Forall_forall in Ha; [|exact Hma]. destruct Ha as [Har Harows].
  eapply Forall_forall in Ho; [|exact Hmo]. destruct Ho as [Hor Horows].
  split; [rewrite map2_length, Har, Hor; apply Nat.min_id|].
  apply Forall_map2. intros ra ro Hra Hro.
  eapply Forall_forall in Harows; [|exact Hra].
  eapply Forall_forall in Horows; [|exact Hro].
  cbn beta in *. rewrite length_app. lia.
Qed.

Lemma cat_step_row {A : Type} (b r c1 c2 : nat) (acc o : list (list (list A)))
    (ib it : nat) :
  has_shape3 b r c1 acc -> has_shape3 b r c2 o -> ib < b -> it < r ->
  nth it (nth ib (map2 (map2 (@app A)) acc o) []) []
  = nth it (nth ib acc []) [] ++ nth it (nth ib o []) [].
Proof.
  intros [Hal Ha] [Hol Ho] Hib Hit.
  pose proof (Forall_nth_in _ acc [] ib Ha ltac:(lia)) as [Har _].
  pose proof (Forall_nth_in _ o [] ib Ho ltac:(lia)) as [Hor _].
  rewrite nth_map2_in with (d1 := []) (d2 := []) by lia.
  now rewrite nth_map2_in with (d1 := []) (d2 := []) by lia.
Qed.

Lemma cat_fold {A : Type} (b r c : nat) (rest : list (list (list (list A)))) :
  Forall (has_shape3 b r c) rest ->
  forall (c0 : nat) (acc : list (list (list A))),
    has_shape3 b r c0 acc ->
    has_shape3 b r (c0 + length rest * c) (fold_left (map2 (map2 (@app A))) rest acc)
    /\ forall ib it, ib < b -> it < r ->
         nth it (nth ib (fold_left (map2 (map2 (@app A))) rest acc) []) []
         = nth it (nth ib acc []) []
           ++ concat (map (fun o => nth it (nth ib o []) []) rest).
Proof.
  induction 1 as [|o rest Ho _ IH]; intros c0 acc Hacc.
  - cbn. rewrite Nat.add_0_r. split; [assumption|].
    intros ib it _ _. now rewrite app_nil_r.
  - cbn [fold_left length map concat].
    destruct (IH (c0 + c) _ (cat_step_shape b r c0 c acc o Hacc Ho)) as [Hsh Hrow].
    split.
    + replace (c0 + S (length rest) * c) with (c0 + c + length rest * c) by lia.
      exact Hsh.
    + intros ib it Hib Hit. rewrite (Hrow ib it Hib Hit).
      rewrite (cat_step_row b r c0 c acc o ib it Hacc Ho Hib Hit).
      now rewrite app_assoc.
Qed.

Lemma heads_return (n_embd hs b T : nat) (heads : list Head.t) (x : tensor3) :
  Forall (Head.wf n_embd hs) heads -> 1 <= hs ->
  has_shape3 b T n_embd x ->
  (forall h, In h heads -> Head.decoding h = true -> T <= block_size) ->
  returns (mapM (fun h => Head.forward h x) heads)
          (fun outs => length outs = length heads /\ Forall (has_shape3 b T hs) outs).
Proof.
  intros Hwf Hhs Hx Hdec. apply returns_mapM.
  apply Forall_forall. intros h Hh.
  apply Head_forward_shape with (n_embd := n_embd); auto.
  - eapply Forall_forall in Hwf; eassumption.
  - now apply Hdec.
Qed.

(** The value of [MultiHeadAttention.forward], position by position. *)
Lemma MultiHeadAttention_forward_value (n_embd num_heads hs B T : nat)
    (m : MultiHeadAttention.t) (x : tensor3) :
  MultiHeadAttention.wf n_embd num_heads hs m ->
  1 <= num_heads -> 1 <= hs ->
  has_shape3 B T n_embd x ->
  (forall h, In h (MultiHeadAttention.heads m) -> Head.decoding h = true ->
             T <= block_size) ->
  exists outs out,
    mapM (fun h => Head.forward h x) (MultiHeadAttention.heads m) = Ok outs
    /\ length outs = num_heads
    /\ Forall (has_shape3 B T hs) outs
    /\ MultiHeadAttention.forward m x = Ok out
    /\ has_shape3 B T (num_heads * hs) out
    /\ (forall b t, b < B -> t < T ->
          nth t (nth b out []) []
          = concat (map (fun o => nth t (nth b o []) []) outs))
    /\ (forall proj', MultiHeadAttention.forward
                        (MultiHeadAttention.mk (MultiHeadAttention.heads m) proj') x
                      = Ok out).
Proof.
  intros (Hn & Hheads & _) Hnum Hhs Hx Hdec.
  destruct (heads_return n_embd hs B T _ x Hheads Hhs Hx Hdec) as [outs [Houts [Hlen Hsh]]].
  destruct outs as [|o rest]; [cbn in Hlen; lia|].
  inversion Hsh as [|? ? Ho Hrest]; subst.
  destruct (cat_fold B T hs rest Hrest hs o Ho) as [Hcat Hrow].
  exists (o :: rest), (fold_left (map2 (map2 (@app R))) rest o).
  split; [assumption|]. split; [congruence|]. split; [assumption|].
  split; [unfold MultiHeadAttention.forward; now rewrite Houts|].
  split.
  - replace (length (MultiHeadAttention.heads m) * hs) with (hs + length rest * hs);
      [assumption|]. rewrite <- Hlen. cbn [length]. lia.
  - split.
    + intros b t Hb Ht. now rewrite (Hrow b t Hb Ht).
    + intros proj'. unfold MultiHeadAttention.forward. cbn [MultiHeadAttention.heads].
      now rewrite Houts.
Qed.

(** C4.  For a module built by [__init__] with at least one head and an
    input of shape (B, T, n_embd) (T within block_size when a head is
    causal), [forward] returns a tensor of shape
    (B, T, num_heads * head_size) whose feature vector at every position is
    the concatenation, in order, of the feature vectors the heads return at
    that position; the result is the same whatever the projection [proj]
    holds: the projection is not applied. *)
Theorem multi_head_concatenates (n_embd num_heads hs B T : nat)
    (m : MultiHeadAttention.t) (x : tensor3) :
  MultiHeadAttention.wf n_embd num_heads hs m ->
  1 <= num_heads -> 1 <= hs ->
  has_shape3 B T n_embd x ->
  (forall h, In h (MultiHeadAttention.heads m) -> Head.decoding h = true ->
             T <= block_size) ->
  exists outs out,
    mapM (fun h => Head.forward h x) (MultiHeadAttention.heads m) = Ok outs
    /\ length outs = num_heads
    /\ Forall (has_shape3 B T hs) outs
    /\ MultiHeadAttention.forward m x = Ok out
    /\ has_shape3 B T (num_heads * hs) out
    /\ (forall b t, b < B -> t < T ->
          nth t (nth b out []) []
          = concat (map (fun o => nth t (nth b o []) []) outs))
    /\ (forall proj', MultiHeadAttention.forward
                        (MultiHeadAttention.mk (MultiHeadAttention.heads m) proj') x
                      = Ok out).
Proof.
  intros Hwf Hnum Hhs Hx Hdec.
  exact (MultiHeadAttention_forward_value n_embd num_heads hs B T m x Hwf Hnum Hhs Hx Hdec).
Qed.

(** ** Block.forward and the stack of blocks *)

Lemma LayerNorm_forward_returns (n : nat) (ln : LayerNorm.t) (x : list R) :
  LayerNorm.wf n ln -> length x = n ->
  returns (LayerNorm.forward ln x) (fun y => length y = n).
Proof.
  intros (Hn & Hw & Hb) Hx. unfold LayerNorm.forward.
  rewrite Hx, Hn, Nat.eqb_refl. eexists. split; [reflexivity|].
  rewrite map2_length, length_combine, Hx, Hw, Hb. lia.
Qed.

Lemma LayerNorm_forward3_returns (n b r : nat) (ln : LayerNorm.t) (x : tensor3) :
  LayerNorm.wf n ln -> has_shape3 b r n x ->
  returns (LayerNorm.forward3 ln x) (has_shape3 b r n).
Proof.
  intros Hln Hx. unfold LayerNorm.forward3. eapply returns_rows; [|exact Hx].
  intros row Hrow. now apply LayerNorm_forward_returns.
Qed.

Lemma add_vec_returns (n : nat) (a b : list R) :
  length a = n -> length b = n ->
  returns (add_vec a b) (fun y => length y = n).
Proof.
  intros Ha Hb. unfold add_vec. rewrite Ha, Hb, broadcast_same.
  eexists. split; [reflexivity|].
  rewrite !expand_same by assumption. rewrite map2_length, Ha, Hb. apply Nat.min_id.
Qed.

Lemma add_rows_returns (r n : nat) (a b : list (list R)) :
  has_shape2 r n a -> has_shape2 r n b ->
  returns (zipM add_vec a b) (has_shape2 r n).
Proof.
  intros [Hal Ha] [Hbl Hb].
  eapply returns_weaken.
  - apply returns_zipM with (Q := fun y => length y = n); [congruence|].
    intros x y Hx Hy. apply add_vec_returns.
    + eapply Forall_forall in Ha; eassumption.
    + eapply Forall_forall in Hb; eassumption.
  - cbn beta. intros c [Hl HQ]. split; [congruence | assumption].
Qed.

Lemma add3_returns (b r n : nat) (x y : tensor3) :
  has_shape3 b r n x -> has_shape3 b r n y ->
  returns (add3 x y) (has_shape3 b r n).
Proof.
  intros [Hxl Hx] [Hyl Hy]. unfold add3.
  eapply returns_weaken.
  - apply returns_zipM with (Q := has_shape2 r n); [congruence|].
    intros mx my Hmx Hmy. apply add_rows_returns.
    + eapply Forall_forall in Hx; eassumption.
    + eapply Forall_forall in Hy; eassumption.
  - cbn beta. intros c [Hl HQ]. split; [congruence | assumption].
Qed.

Lemma FeedFoward_forward_returns (n b r : nat) (f : FeedFoward.t) (x : tensor3) :
  FeedFoward.wf n f -> has_shape3 b r n x ->
  returns (FeedFoward.forward f x) (has_shape3 b r n).
Proof.
  intros [H0 H2] Hx. unfold FeedFoward.forward. eapply returns_rows; [|exact Hx].
  intros row Hrow. unfold FeedFoward.forward1.
  eapply returns_bind; [exact (Linear_forward_returns n (4 * n) _ row H0 Hrow)|].
  cbn beta. intros hid Hhid.
  apply Linear_forward_returns with (i := 4 * n); [assumption|].
  now rewrite length_map.
Qed.

Lemma head_size_exact (n_embd n_head : nat) :
  1 <= n_head -> 1 <= n_embd -> n_embd mod n_head = 0 ->
  1 <= n_embd / n_head /\ n_head * (n_embd / n_head) = n_embd.
Proof.
  intros Hh He Hmod.
  assert (n_embd = n_head * (n_embd / n_head)) as Heq.
  { apply Nat.Div0.div_exact. assumption. }
  split; [|lia]. destruct (n_embd / n_head); lia.
Qed.

Lemma MultiHeadAttention_forward_returns (n_embd n_head b T : nat) (dec : bool)
    (m : MultiHeadAttention.t) (x : tensor3) :
  MultiHeadAttention.wf n_embd n_head (n_embd / n_head) m ->
  Forall (fun h => Head.decoding h = dec) (MultiHeadAttention.heads m) ->
  1 <= n_head -> 1 <= n_embd -> n_embd mod n_head = 0 ->
  has_shape3 b T n_embd x -> (dec = true -> T <= block_size) ->
  returns (MultiHeadAttention.forward m x) (has_shape3 b T n_embd).
Proof.
  intros Hwf Hdecs Hh He Hmod Hx Hfit.
  destruct (head_size_exact n_embd n_head Hh He Hmod) as [Hhs Hprod].
  destruct (MultiHeadAttention_forward_value n_embd n_head (n_embd / n_head) b T m x
              Hwf Hh Hhs Hx)
    as (outs & out & _ & _ & _ & Hfw & Hsh & _).
  { intros h Hin Hd. apply Hfit. eapply Forall_forall in Hdecs; [|exact Hin].
    cbn beta in Hdecs. congruence. }
  exists out. split; [assumption|]. now rewrite Hprod in Hsh.
Qed.

Lemma Block_forward_returns (n_embd n_head b T : nat) (dec : bool)
    (blk : Block.t) (x : tensor3) :
  Block.wf n_embd n_head dec blk ->
  1 <= n_head -> 1 <= n_embd -> n_embd mod n_head = 0 ->
  has_shape3 b T n_embd x -> (dec = true -> T <= block_size) ->
  returns (Block.forward blk x) (has_shape3 b T n_embd).
Proof.
  intros (Hsa & Hdecs & Hff & Hln1 & Hln2) Hh He Hmod Hx Hfit. unfold Block.forward.
  eapply returns_bind; [exact (LayerNorm_forward3_returns n_embd b T _ x Hln1 Hx)|].
  cbn beta. intros a Ha.
  eapply returns_bind;
    [exact (MultiHeadAttention_forward_returns n_embd n_head b T dec _ a
              Hsa Hdecs Hh He Hmod Ha Hfit)|].
  cbn beta. intros s0 Hs0.
  eapply returns_bind; [exact (add3_returns b T n_embd x s0 Hx Hs0)|].
  cbn beta. intros x1 Hx1.
  eapply returns_bind; [exact (LayerNorm_forward3_returns n_embd b T _ x1 Hln2 Hx1)|].
  cbn beta. intros f Hf.
  eapply returns_bind; [exact (FeedFoward_forward_returns n_embd b T _ f Hff Hf)|].
  cbn beta. intros g Hg.
  exact (add3_returns b T n_embd x1 g Hx1 Hg).
Qed.

Lemma Sequential_returns (n_embd n_head b T : nat) (dec : bool)
    (blocks : list Block.t) (x : tensor3) :
  Forall (Block.wf n_embd n_head dec) blocks ->
  1 <= n_head -> 1 <= n_embd -> n_embd mod n_head = 0 ->
  has_shape3 b T n_embd x -> (dec = true -> T <= block_size) ->
  returns (Sequential blocks x) (has_shape3 b T n_embd).
Proof.
  intros Hblocks Hh He Hmod Hx Hfit. revert x Hx.
  induction Hblocks as [|blk blocks Hblk _ IH]; intros x Hx.
  - exists x. now split.
  - cbn [Sequential].
    eapply returns_bind;
      [exact (Block_forward_returns n_embd n_head b T dec blk x Hblk Hh He Hmod Hx Hfit)|].
    cbn beta. intros y Hy. now apply IH.
Qed.

(** ** Encoder.forward *)

Lemma Embedding_forward_returns (n d : nat) (emb : Embedding.t) (i : Z) :
  Embedding.wf n d emb -> (0 <= i < Z.of_nat n)%Z ->
  returns (Embedding.forward emb i) (fun row => length row = d).
Proof.
  intros (Hn & _ & Hl & Hrows) Hi. unfold Embedding.forward. rewrite Hn.
  destruct (0 <=? i)%Z eqn:E1; [|apply Z.leb_gt in E1; lia].
  destruct (i <? Z.of_nat n)%Z eqn:E2; [|apply Z.ltb_ge in E2; lia].
  eexists. split; [reflexivity|]. cbn beta.
  apply (Forall_nth_in _ _ [] (Z.to_nat i) Hrows). lia.
Qed.

Lemma embed_returns (vocab_size n b T : nat) (tok pos : Embedding.t)
    (idx : list (list Z)) :
  Embedding.wf vocab_size n tok -> Embedding.wf block_size n pos ->
  has_shape2 b T idx -> T <= block_size ->
  Forall (Forall (fun i => (0 <= i < Z.of_nat vocab_size)%Z)) idx ->
  returns (embed tok pos idx) (has_shape3 b T n).
Proof.
  intros Htok Hpos [Hb Hidx] HT Hids. unfold embed.
  assert (Hs1 : shape1 idx <= block_size /\ Forall (fun row => length row = shape1 idx) idx).
  { destruct idx as [|row idx]; cbn; [split; [lia | constructor]|].
    inversion Hidx as [|? ? Hrow Hrest]; subst. split; [lia | assumption]. }
  destruct Hs1 as [Hs1 Hrows].
  eapply returns_bind.
  - apply returns_mapM with (Q := has_shape2 (shape1 idx) n).
    apply Forall_forall. intros row Hrow.
    eapply returns_weaken.
    + apply returns_mapM with (Q := fun e => length e = n).
      eapply Forall_forall in Hids; [|exact Hrow].
      eapply Forall_impl; [|exact Hids]. intros i Hi.
      now apply Embedding_forward_returns with (n := vocab_size).
    + cbn beta. intros e [Hl HQ]. split; [|assumption].
      eapply Forall_forall in Hrows; [|exact Hrow]. cbn beta in Hrows. congruence.
  - cbn beta. intros tok_emb [Htl Hte].
    eapply returns_bind.
    + apply returns_mapM with (Q := fun e => length e = n).
      apply Forall_forall. intros i Hi. apply in_map_iff in Hi as [k [<- Hk]].
      apply in_seq in Hk. apply Embedding_forward_returns with (n := block_size); [assumption|].
      lia.
    + cbn beta. intros pos_emb [Hpl Hpe]. rewrite length_map, length_seq in Hpl.
      eapply returns_weaken.
      * apply returns_mapM with (Q := has_shape2 (shape1 idx) n).
        eapply Forall_impl; [|exact Hte]. intros e He.
        apply add_rows_returns; [assumption | now split].
      * cbn beta. intros x [Hxl Hx].
        apply has_shape3_retime with (r' := shape1 idx); [split; [congruence | assumption]|].
        intros Hb1. destruct idx as [|row idx]; [cbn in Hb; lia|].
        cbn. now inversion Hidx.
Qed.

Lemma map_nth_seq {A : Type} (l : list A) (d : A) :
  map (fun t => nth t l d) (seq 0 (length l)) = l.
Proof.
  induction l as [|a l IH]; [reflexivity|].
  cbn [length seq map nth]. f_equal.
  rewrite <- seq_shift, map_map. exact IH.
Qed.

(** ** float32: rounding to the nearest float *)

Section Rounding.

Local Open Scope R_scope.

Lemma pow2_pos e : 0 < F32.pow2 e.
Proof. apply powerRZ_lt. lra. Qed.

Lemma pow2_add a b : F32.pow2 (a + b) = F32.pow2 a * F32.pow2 b.
Proof. apply powerRZ_add. lra. Qed.

Lemma pow2_inv a : F32.pow2 a * F32.pow2 (- a) = 1.
Proof. rewrite <- pow2_add. now replace (a + - a)%Z with 0%Z by lia. Qed.

Lemma pow2_nonneg_IZR n : (0 <= n)%Z -> F32.pow2 n = IZR (2 ^ n).
Proof.
  intros Hn. unfold F32.pow2. rewrite <- (Z2Nat.id n Hn) at 1.
  rewrite <- pow_powerRZ. rewrite <- (Z2Nat.id n Hn) at 2.
  now rewrite pow_IZR.
Qed.

Lemma pow2_ge_1 n : (0 <= n)%Z -> 1 <= F32.pow2 n.
Proof.
  intros Hn. rewrite pow2_nonneg_IZR by assumption. apply IZR_le.
  assert (0 < 2 ^ n)%Z by (apply Z.pow_pos_nonneg; lia). lia.
Qed.

Lemma pow2_le a b : (a <= b)%Z -> F32.pow2 a <= F32.pow2 b.
Proof.
  intros H. replace b with (a + (b - a))%Z by lia. rewrite pow2_add.
  pose proof (pow2_pos a). pose proof (pow2_ge_1 (b - a) ltac:(lia)). nra.
Qed.

Lemma pow2_exp e : F32.pow2 e = exp (IZR e * ln 2).
Proof. unfold F32.pow2. rewrite powerRZ_Rpower by lra. reflexivity. Qed.

Lemma ln2_pos : 0 < ln 2.
Proof. rewrite <- ln_1. apply ln_increasing; lra. Qed.

Lemma mag_spec x : 0 < x -> F32.pow2 (F32.mag x - 1) <= x < F32.pow2 (F32.mag x).
Proof.
  intros Hx. unfold F32.mag. pose proof ln2_pos as H2.
  destruct (Zfloor_bound (ln x / ln 2)) as [Hlo Hhi].
  set (f := Zfloor (ln x / ln 2)) in *.
  replace (f + 1 - 1)%Z with f by lia. rewrite !pow2_exp, plus_IZR.
  assert (Hq : ln x = ln x / ln 2 * ln 2) by (field; lra).
  assert (Hex : exp (ln x) = x) by now apply exp_ln.
  split.
  - rewrite <- Hex. destruct (Req_dec (IZR f * ln 2) (ln x)) as [->|Hne]; [lra|].
    left. apply exp_increasing. nra.
  - rewrite <- Hex at 1. apply exp_increasing. nra.
Qed.

Lemma mag_unique x e : F32.pow2 (e - 1) <= x < F32.pow2 e -> F32.mag x = e.
Proof.
  intros [Hlo Hhi]. assert (Hx : 0 < x) by (pose proof (pow2_pos (e - 1)); lra).
  destruct (mag_spec x Hx) as [Mlo Mhi].
  destruct (Z.lt_trichotomy (F32.mag x) e) as [Hlt|[Heq|Hgt]]; [|assumption|].
  - pose proof (pow2_le (F32.mag x) (e - 1) ltac:(lia)). lra.
  - pose proof (pow2_le e (F32.mag x - 1) ltac:(lia)). lra.
Qed.

Lemma mag_le x y : 0 < x -> x <= y -> (F32.mag x <= F32.mag y)%Z.
Proof.
  intros Hx Hxy. destruct (mag_spec x Hx) as [Xlo Xhi].
  destruct (mag_spec y ltac:(lra)) as [Ylo Yhi].
  destruct (Z_le_gt_dec (F32.mag x) (F32.mag y)) as [|Hgt]; [assumption|].
  pose proof (pow2_le (F32.mag y) (F32.mag x - 1) ltac:(lia)). lra.
Qed.

(** F32.Znearest *)

Lemma Znearest_cases x :
  F32.Znearest x = Zfloor x \/ F32.Znearest x = (Zfloor x + 1)%Z.
Proof.
  unfold F32.Znearest. destruct (Rlt_dec _ _); [now left|].
  destruct (Rlt_dec _ _); [now right|]. destruct (Z.even _); auto.
Qed.

Lemma Znearest_IZR z : F32.Znearest (IZR z) = z.
Proof.
  unfold F32.Znearest. rewrite ZfloorZ.
  destruct (Rlt_dec (IZR z - IZR z) (1 / 2)) as [|n]; [reflexivity|].
  exfalso. apply n. lra.
Qed.

Lemma Znearest_le x y : x <= y -> (F32.Znearest x <= F32.Znearest y)%Z.
Proof.
  intros Hxy. pose proof (Zfloor_le x y Hxy) as Hf.
  destruct (Z.eq_dec (Zfloor x) (Zfloor y)) as [E|NE].
  - unfold F32.Znearest. rewrite <- E.
    destruct (Rlt_dec (x - IZR (Zfloor x)) (1 / 2)) as [a|a];
    destruct (Rlt_dec (y - IZR (Zfloor x)) (1 / 2)) as [b|b]; try lia; try lra;
    destruct (Rlt_dec (1 / 2) (x - IZR (Zfloor x))) as [c|c];
    destruct (Rlt_dec (1 / 2) (y - IZR (Zfloor x))) as [d|d]; try lia; try lra;
    destruct (Z.even (Zfloor x)); lia.
  - destruct (Znearest_cases x) as [-> | ->], (Znearest_cases y) as [-> | ->]; lia.
Qed.

Lemma Znearest_error x : Rabs (IZR (F32.Znearest x) - x) <= 1 / 2.
Proof.
  destruct (Zfloor_bound x) as [Hlo Hhi]. unfold F32.Znearest.
  destruct (Rlt_dec _ _) as [a|a].
  - apply Rabs_le. lra.
  - assert (Hup : Rabs (IZR (Zfloor x + 1) - x) <= 1 / 2)
      by (rewrite plus_IZR; apply Rabs_le; lra).
    destruct (Rlt_dec _ _) as [b|b]; [assumption|].
    destruct (Z.even _); [|assumption]. apply Rabs_le. lra.
Qed.

Lemma Znearest_small x : 0 <= x -> x < 1 / 2 -> F32.Znearest x = 0%Z.
Proof.
  intros H0 H1. assert (Hf : Zfloor x = 0%Z) by (apply Zfloor_eq; simpl; lra).
  unfold F32.Znearest. rewrite Hf. simpl.
  destruct (Rlt_dec (x - 0) (1 / 2)); [reflexivity|lra].
Qed.

(** F32.round_pos *)

Lemma cexp_ge x : (-149 <= F32.cexp x)%Z.
Proof. unfold F32.cexp. lia. Qed.

Lemma round_pos_nonneg x : 0 < x -> 0 <= F32.round_pos x.
Proof.
  intros Hx. unfold F32.round_pos.
  pose proof (pow2_pos (F32.cexp x)). pose proof (pow2_pos (- F32.cexp x)).
  assert (0 <= F32.Znearest (x * F32.pow2 (- F32.cexp x)))%Z.
  { rewrite <- (Znearest_IZR 0). apply Znearest_le. simpl. nra. }
  apply Rmult_le_pos; [|lra]. now apply IZR_le.
Qed.

(** A positive number below the smallest binade rounds to 0. *)
Lemma round_pos_tiny x : 0 < x -> (F32.mag x < -149)%Z -> F32.round_pos x = 0.
Proof.
  intros Hx Hm. unfold F32.round_pos.
  assert (Hc : F32.cexp x = (-149)%Z) by (unfold F32.cexp; lia). rewrite Hc.
  destruct (mag_spec x Hx) as [_ Hhi].
  pose proof (pow2_le (F32.mag x) (-150) ltac:(lia)) as Hle.
  rewrite Znearest_small; [simpl; lra| |].
  - pose proof (pow2_pos (- -149)). nra.
  - assert (Hs : x * F32.pow2 (- -149) < F32.pow2 (-150) * F32.pow2 (- -149)).
    { apply Rmult_lt_compat_r; [apply pow2_pos|lra]. }
    rewrite <- pow2_add in Hs.
    replace (F32.pow2 (-150 + - -149)) with (1 / 2) in Hs by (unfold F32.pow2; simpl; lra).
    lra.
Qed.

(** Rounding does not leave the binade upwards... *)
Lemma round_pos_le_pow2 x : 0 < x -> (-149 <= F32.mag x)%Z -> F32.round_pos x <= F32.pow2 (F32.mag x).
Proof.
  intros Hx Hm. unfold F32.round_pos. destruct (mag_spec x Hx) as [_ Hhi].
  set (c := F32.cexp x). assert (Hc : (c <= F32.mag x)%Z) by (unfold c, F32.cexp; lia).
  assert (Hs : x * F32.pow2 (- c) <= IZR (2 ^ (F32.mag x - c))).
  { rewrite <- pow2_nonneg_IZR by lia.
    replace (F32.mag x - c)%Z with (F32.mag x + - c)%Z by lia. rewrite pow2_add.
    apply Rmult_le_compat_r; [left; apply pow2_pos|lra]. }
  apply Znearest_le in Hs. rewrite Znearest_IZR in Hs. apply IZR_le in Hs.
  rewrite <- pow2_nonneg_IZR in Hs by lia.
  replace (F32.pow2 (F32.mag x)) with (F32.pow2 (F32.mag x - c) * F32.pow2 c)
    by (rewrite <- pow2_add; f_equal; lia).
  apply Rmult_le_compat_r; [left; apply pow2_pos|assumption].
Qed.

(** ... nor downwards, in a normal binade. *)
Lemma round_pos_ge_pow2 x :
  0 < x -> (-149 <= F32.mag x - 24)%Z -> F32.pow2 (F32.mag x - 1) <= F32.round_pos x.
Proof.
  intros Hx Hm. unfold F32.round_pos. destruct (mag_spec x Hx) as [Hlo _].
  assert (Hc : F32.cexp x = (F32.mag x - 24)%Z) by (unfold F32.cexp; lia). rewrite Hc.
  assert (Hs : IZR (2 ^ 23) <= x * F32.pow2 (- (F32.mag x - 24))).
  { rewrite <- pow2_nonneg_IZR by lia.
    replace 23%Z with (F32.mag x - 1 + - (F32.mag x - 24))%Z by lia. rewrite pow2_add.
    apply Rmult_le_compat_r; [left; apply pow2_pos|lra]. }
  apply Znearest_le in Hs. rewrite Znearest_IZR in Hs. apply IZR_le in Hs.
  rewrite <- pow2_nonneg_IZR in Hs by lia.
  replace (F32.pow2 (F32.mag x - 1)) with (F32.pow2 23 * F32.pow2 (F32.mag x - 24))
    by (rewrite <- pow2_add; f_equal; lia).
  apply Rmult_le_compat_r; [left; apply pow2_pos|assumption].
Qed.

Lemma round_pos_le x y : 0 < x -> x <= y -> F32.round_pos x <= F32.round_pos y.
Proof.
  intros Hx Hxy. assert (Hy : 0 < y) by lra.
  pose proof (mag_le x y Hx Hxy) as Hm.
  destruct (Z.eq_dec (F32.cexp x) (F32.cexp y)) as [E|NE].
  - unfold F32.round_pos. rewrite E.
    apply Rmult_le_compat_r; [left; apply pow2_pos|].
    apply IZR_le, Znearest_le.
    apply Rmult_le_compat_r; [left; apply pow2_pos|assumption].
  - assert (Hlt : (F32.mag x < F32.mag y)%Z /\ (-149 <= F32.mag y - 24)%Z) by (unfold F32.cexp in NE; lia).
    destruct Hlt as [Hlt Hn].
    apply Rle_trans with (F32.pow2 (F32.mag y - 1)); [|now apply round_pos_ge_pow2].
    destruct (Z_lt_ge_dec (F32.mag x) (-149)) as [Ht|Ht].
    + rewrite round_pos_tiny by assumption. left. apply pow2_pos.
    + apply Rle_trans with (F32.pow2 (F32.mag x)); [apply round_pos_le_pow2; [assumption|lia]|].
      apply pow2_le. lia.
Qed.

(** Exact on the numbers of the format: an integer significand below 2^24
    times a power of two not below 2^-149. *)
Lemma round_pos_exact (m e : Z) :
  (0 < m < 2 ^ 24)%Z -> (-149 <= e)%Z -> F32.round_pos (IZR m * F32.pow2 e) = IZR m * F32.pow2 e.
Proof.
  intros Hm He. set (x := IZR m * F32.pow2 e).
  assert (Hx : 0 < x).
  { unfold x. apply Rmult_lt_0_compat; [apply IZR_lt; lia|apply pow2_pos]. }
  assert (Hmag : (F32.mag x <= e + 24)%Z).
  { destruct (mag_spec x Hx) as [Hlo _].
    destruct (Z_le_gt_dec (F32.mag x) (e + 24)) as [|Hgt]; [assumption|exfalso].
    pose proof (pow2_le (e + 24) (F32.mag x - 1) ltac:(lia)) as Hp.
    rewrite pow2_add in Hp. rewrite (pow2_nonneg_IZR 24) in Hp by lia.
    assert (Hk : IZR m < IZR (2 ^ 24)) by (apply IZR_lt; lia).
    pose proof (pow2_pos e) as Hpe.
    apply (Rmult_lt_compat_r (F32.pow2 e)) in Hk; [|assumption].
    rewrite (Rmult_comm (F32.pow2 e)) in Hp. fold x in Hk. lra. }
  unfold F32.round_pos. set (c := F32.cexp x).
  assert (Hc : (c <= e)%Z) by (unfold c, F32.cexp; lia).
  assert (Hs : x * F32.pow2 (- c) = IZR (m * 2 ^ (e - c))).
  { rewrite mult_IZR, <- pow2_nonneg_IZR by lia. unfold x.
    replace (e - c)%Z with (e + - c)%Z by lia. rewrite pow2_add. ring. }
  rewrite Hs, Znearest_IZR, mult_IZR, <- pow2_nonneg_IZR by lia.
  unfold x. rewrite Rmult_assoc, <- pow2_add. do 2 f_equal. lia.
Qed.

Lemma round_pos_error x :
  0 < x -> Rabs (F32.round_pos x - x) <= F32.pow2 (-24) * x + F32.pow2 (-150).
Proof.
  intros Hx. unfold F32.round_pos. set (c := F32.cexp x).
  pose proof (Znearest_error (x * F32.pow2 (- c))) as He.
  pose proof (pow2_pos c) as Hc. pose proof (pow2_inv c) as Hi.
  assert (Hr : Rabs (IZR (F32.Znearest (x * F32.pow2 (- c))) * F32.pow2 c - x) <= F32.pow2 c / 2).
  { replace (IZR (F32.Znearest (x * F32.pow2 (- c))) * F32.pow2 c - x)
      with ((IZR (F32.Znearest (x * F32.pow2 (- c))) - x * F32.pow2 (- c)) * F32.pow2 c)
      by (rewrite Rmult_minus_distr_r, Rmult_assoc, (Rmult_comm (F32.pow2 (- c))), Hi; ring).
    rewrite Rabs_mult, (Rabs_pos_eq (F32.pow2 c)) by lra.
    apply Rle_trans with (1 / 2 * F32.pow2 c); [apply Rmult_le_compat_r; lra|lra]. }
  eapply Rle_trans; [exact Hr|].
  destruct (mag_spec x Hx) as [Hlo _].
  unfold c, F32.cexp. destruct (Z.max_spec (F32.mag x - 24) (-149)) as [[_ ->]|[_ ->]].
  - replace (F32.pow2 (-149) / 2) with (F32.pow2 (-150))
      by (replace (-149)%Z with (-150 + 1)%Z by lia; rewrite pow2_add;
          replace (F32.pow2 1) with 2 by (unfold F32.pow2; simpl; lra); field).
    pose proof (pow2_pos (-24)). nra.
  - replace (F32.pow2 (F32.mag x - 24) / 2) with (F32.pow2 (-24) * F32.pow2 (F32.mag x - 1)).
    + pose proof (pow2_pos (-24)). pose proof (pow2_pos (-150)). nra.
    + replace (F32.mag x - 24)%Z with (-24 + (F32.mag x - 1) + 1)%Z by lia.
      rewrite !pow2_add. replace (F32.pow2 1) with 2 by (unfold F32.pow2; simpl; lra). field.
Qed.

(** F32.rnd *)

Lemma rnd_0 : F32.rnd 0 = 0.
Proof. unfold F32.rnd. destruct (Rlt_dec 0 0); [lra|]. destruct (Rlt_dec 0 0); [lra|reflexivity]. Qed.

Lemma rnd_pos x : 0 < x -> F32.rnd x = F32.round_pos x.
Proof. intros H. unfold F32.rnd. destruct (Rlt_dec 0 x); [reflexivity|contradiction]. Qed.

Lemma rnd_neg x : x < 0 -> F32.rnd x = - F32.round_pos (- x).
Proof.
  intros H. unfold F32.rnd. destruct (Rlt_dec 0 x); [lra|].
  destruct (Rlt_dec x 0); [reflexivity|contradiction].
Qed.

Lemma rnd_opp x : F32.rnd (- x) = - F32.rnd x.
Proof.
  destruct (Rtotal_order x 0) as [H|[->|H]].
  - rewrite (rnd_neg x H), rnd_pos by lra. ring.
  - rewrite Ropp_0, rnd_0. ring.
  - rewrite (rnd_pos x) by lra. rewrite rnd_neg by lra. now rewrite Ropp_involutive.
Qed.

Lemma rnd_nonneg x : 0 <= x -> 0 <= F32.rnd x.
Proof.
  intros [H| <-]; [rewrite rnd_pos by assumption; now apply round_pos_nonneg|].
  rewrite rnd_0. lra.
Qed.

Lemma rnd_nonpos x : x <= 0 -> F32.rnd x <= 0.
Proof.
  intros H. replace x with (- - x) by ring. rewrite rnd_opp.
  pose proof (rnd_nonneg (- x) ltac:(lra)). lra.
Qed.

Lemma rnd_le x y : x <= y -> F32.rnd x <= F32.rnd y.
Proof.
  intros Hxy. destruct (Rlt_dec 0 x) as [Hx|Hx].
  - rewrite !rnd_pos by lra. now apply round_pos_le.
  - destruct (Rlt_dec 0 y) as [Hy|Hy].
    + apply Rle_trans with 0; [apply rnd_nonpos; lra|apply rnd_nonneg; lra].
    + destruct (Req_dec y 0) as [->|Hy0].
      * rewrite rnd_0. apply rnd_nonpos. lra.
      * rewrite (rnd_neg x), (rnd_neg y) by lra.
        apply Ropp_le_contravar. apply round_pos_le; lra.
Qed.

Lemma rnd_exact (m e : Z) :
  (Z.abs m < 2 ^ 24)%Z -> (-149 <= e)%Z -> F32.rnd (IZR m * F32.pow2 e) = IZR m * F32.pow2 e.
Proof.
  intros Hm He. destruct (Z.lt_trichotomy m 0) as [H|[->|H]].
  - replace (IZR m * F32.pow2 e) with (- (IZR (- m) * F32.pow2 e)) by (rewrite opp_IZR; ring).
    rewrite rnd_opp. f_equal. rewrite rnd_pos.
    + apply round_pos_exact; lia.
    + apply Rmult_lt_0_compat; [apply IZR_lt; lia|apply pow2_pos].
  - rewrite Rmult_0_l. apply rnd_0.
  - rewrite rnd_pos.
    + apply round_pos_exact; lia.
    + apply Rmult_lt_0_compat; [apply IZR_lt; lia|apply pow2_pos].
Qed.

Lemma rnd_IZR (m : Z) : (Z.abs m <= 2 ^ 24)%Z -> F32.rnd (IZR m) = IZR m.
Proof.
  intros Hm. destruct (Z.eq_dec (Z.abs m) (2 ^ 24)) as [E|NE].
  - assert (Hc : m = (2 ^ 24)%Z \/ m = (- 2 ^ 24)%Z) by lia.
    destruct Hc as [-> | ->].
    + rewrite <- (pow2_nonneg_IZR 24) by lia.
      rewrite <- (Rmult_1_l (F32.pow2 24)). apply (rnd_exact 1 24); simpl; lia.
    + rewrite opp_IZR, rnd_opp. f_equal. rewrite <- (pow2_nonneg_IZR 24) by lia.
      rewrite <- (Rmult_1_l (F32.pow2 24)). apply (rnd_exact 1 24); simpl; lia.
  - rewrite <- (Rmult_1_r (IZR m)). change 1 with (F32.pow2 0) at 1 2.
    apply rnd_exact; lia.
Qed.

Lemma rnd_pow2 e : (-149 <= e)%Z -> F32.rnd (F32.pow2 e) = F32.pow2 e.
Proof.
  intros He. rewrite <- (Rmult_1_l (F32.pow2 e)). apply (rnd_exact 1 e); simpl; lia.
Qed.

Lemma rnd_1 : F32.rnd 1 = 1.
Proof. apply (rnd_IZR 1). simpl. lia. Qed.

Lemma rnd_error x : Rabs (F32.rnd x - x) <= F32.pow2 (-24) * Rabs x + F32.pow2 (-150).
Proof.
  destruct (Rtotal_order x 0) as [H|[->|H]].
  - rewrite rnd_neg by assumption. rewrite (Rabs_left x) by assumption.
    replace (- F32.round_pos (- x) - x) with (- (F32.round_pos (- x) - - x)) by ring.
    rewrite Rabs_Ropp. apply round_pos_error. lra.
  - rewrite rnd_0, Rminus_0_r, Rabs_R0. pose proof (pow2_pos (-150)). lra.
  - rewrite rnd_pos by assumption. rewrite (Rabs_pos_eq x) by lra.
    now apply round_pos_error.
Qed.

End Rounding.

Section Float32.

Local Open Scope R_scope.

(** ** float32 values *)

Lemma max_value_ge : F32.pow2 24 <= F32.max_value.
Proof.
  unfold F32.max_value. pose proof (pow2_ge_1 104 ltac:(lia)) as H.
  rewrite (pow2_nonneg_IZR 24) by lia.
  assert (Hk : IZR (2 ^ 24) <= 2 * IZR (2 ^ 24 - 1)).
  { rewrite <- mult_IZR. apply IZR_le. simpl. lia. }
  assert (H2 : 2 <= F32.pow2 104).
  { replace 2 with (F32.pow2 1) by (unfold F32.pow2; simpl; lra). apply pow2_le. lia. }
  assert (0 <= IZR (2 ^ 24 - 1)) by (apply IZR_le; simpl; lia).
  nra.
Qed.

Lemma fl_in_range (r : R) :
  Rabs (F32.rnd r) <= F32.max_value -> F32.fl r = F32.Fin (F32.rnd r).
Proof.
  intros H. unfold F32.fl. destruct (Rle_dec _ _); [reflexivity|contradiction].
Qed.

Lemma fl_bounded (r lo hi : R) :
  F32.rnd lo = lo -> F32.rnd hi = hi -> - F32.pow2 24 <= lo -> hi <= F32.pow2 24 ->
  lo <= r <= hi ->
  exists y, F32.fl r = F32.Fin y /\ y = F32.rnd r /\ lo <= y <= hi.
Proof.
  intros Elo Ehi Hlo Hhi [H1 H2]. exists (F32.rnd r).
  pose proof (rnd_le _ _ H1) as L. pose proof (rnd_le _ _ H2) as U.
  rewrite Elo in L. rewrite Ehi in U.
  split; [|split; [reflexivity|lra]].
  apply fl_in_range. pose proof max_value_ge. apply Rabs_le. lra.
Qed.

Lemma fl_unit (r : R) :
  0 <= r <= 1 -> exists y, F32.fl r = F32.Fin y /\ y = F32.rnd r /\ 0 <= y <= 1.
Proof.
  intros H. apply fl_bounded; try assumption.
  - apply rnd_0.
  - apply rnd_1.
  - pose proof (pow2_pos 24). lra.
  - apply (pow2_ge_1 24). lia.
Qed.

Lemma fl_0 : F32.fl 0 = F32.Fin 0.
Proof. destruct (fl_unit 0 ltac:(lra)) as [y [-> [-> _]]]. now rewrite rnd_0. Qed.

Lemma fl_1 : F32.fl 1 = F32.Fin 1.
Proof. destruct (fl_unit 1 ltac:(lra)) as [y [-> [-> _]]]. now rewrite rnd_1. Qed.

(** A result that is not positive stays finite and not positive, or
    overflows to [-inf]. *)
Lemma fl_nonpos (r : R) :
  r <= 0 -> (exists d, F32.fl r = F32.Fin d /\ d <= 0) \/ F32.fl r = F32.NInf.
Proof.
  intros H. pose proof (rnd_nonpos r H) as Hn. unfold F32.fl.
  destruct (Rle_dec _ _); [left; now eexists|].
  destruct (Rlt_dec 0 (F32.rnd r)); [lra|now right].
Qed.

Lemma exp_nonpos (d : R) :
  d <= 0 -> exists y, F32.exp (F32.Fin d) = F32.Fin y /\ 0 <= y <= 1.
Proof.
  intros H. cbn. destruct (fl_unit (exp d)) as [y [E [_ B]]]; [|now exists y].
  split; [left; apply exp_pos|]. rewrite <- exp_0.
  destruct H as [H| ->]; [left; now apply exp_increasing|lra].
Qed.

Lemma exp_zero : F32.exp (F32.Fin 0) = F32.Fin 1.
Proof. cbn. rewrite exp_0. apply fl_1. Qed.

(** What [exp (x - m)] is for an entry [x] under a finite maximum [m]. *)
Lemma exp_sub_below (a mu : R) :
  a <= mu ->
  exists y, F32.exp (F32.sub (F32.Fin a) (F32.Fin mu)) = F32.Fin y /\ 0 <= y <= 1.
Proof.
  intros H. cbn. destruct (fl_nonpos (a + - mu) ltac:(lra)) as [[d [-> Hd]]| ->].
  - now apply exp_nonpos.
  - exists 0. split; [reflexivity|lra].
Qed.

Lemma exp_sub_max (mu : R) :
  F32.exp (F32.sub (F32.Fin mu) (F32.Fin mu)) = F32.Fin 1.
Proof.
  cbn. replace (mu + - mu) with 0 by ring. rewrite fl_0. apply exp_zero.
Qed.

Lemma exp_sub_neg_inf (mu : R) :
  F32.exp (F32.sub F32.NInf (F32.Fin mu)) = F32.Fin 0.
Proof. reflexivity. Qed.

(** ** The maximum of a row *)

Lemma maximum_cases (l : list F32.t) :
  Forall (fun x => x <> F32.NaN /\ x <> F32.PInf) l ->
  (F32.maximum l = F32.NInf /\ Forall (fun x => x = F32.NInf) l)
  \/ (exists mu, F32.maximum l = F32.Fin mu
        /\ Forall (fun x => x = F32.NInf \/ exists a, x = F32.Fin a /\ a <= mu) l
        /\ In (F32.Fin mu) l).
Proof.
  induction 1 as [|x l [Hn Hp] _ IH]; [left; split; [reflexivity|constructor]|].
  cbn [F32.maximum fold_right]. fold (F32.maximum l).
  destruct IH as [[Em Hall]|[mu [Em [Hall Hin]]]]; rewrite Em.
  - destruct x as [| | |a]; try congruence.
    + left. split; [reflexivity|now constructor].
    + right. exists a. split; [reflexivity|]. split; [|now left].
      constructor; [right; exists a; split; [reflexivity|lra]|].
      eapply Forall_impl; [|exact Hall]. intros y ->. now left.
  - destruct x as [| | |a]; try congruence.
    + right. exists mu. split; [reflexivity|]. split; [|now right].
      constructor; [now left|assumption].
    + right. exists (Rmax a mu). split; [reflexivity|]. split.
      * constructor; [right; exists a; split; [reflexivity|apply Rmax_l]|].
        eapply Forall_impl; [|exact Hall].
        intros y [->|[b [-> Hb]]]; [now left|right]. exists b. split; [reflexivity|].
        pose proof (Rmax_r a mu). lra.
      * unfold Rmax. destruct (Rle_dec a mu); [now right|now left].
Qed.

Lemma maximum_normalizable (l : list F32.t) :
  F32.normalizable l ->
  exists mu, F32.maximum l = F32.Fin mu
    /\ Forall (fun x => x = F32.NInf \/ exists a, x = F32.Fin a /\ a <= mu) l
    /\ In (F32.Fin mu) l.
Proof.
  intros [Hall Hex]. destruct (maximum_cases l Hall) as [[_ Hn]|H]; [|exact H].
  exfalso. apply Exists_exists in Hex. destruct Hex as [x [Hin [r ->]]].
  rewrite Forall_forall in Hn. specialize (Hn _ Hin). discriminate.
Qed.

(** ** Sums of floats between 0 and 1 *)

(** 2^24 + 1 lies half way between two floats and goes to the even one. *)
Lemma rnd_2p24_plus_1 : F32.rnd (F32.pow2 24 + 1) = F32.pow2 24.
Proof.
  assert (E24 : F32.pow2 24 = 16777216) by (rewrite pow2_nonneg_IZR by lia; reflexivity).
  assert (E25 : F32.pow2 25 = 33554432) by (rewrite pow2_nonneg_IZR by lia; reflexivity).
  rewrite E24. rewrite rnd_pos by lra. unfold F32.round_pos.
  assert (Hm : F32.mag (16777216 + 1) = 25%Z).
  { apply mag_unique. replace (25 - 1)%Z with 24%Z by lia. rewrite E24, E25. lra. }
  unfold F32.cexp. rewrite Hm. replace (Z.max (25 - 24) (-149)) with 1%Z by lia.
  replace (F32.pow2 (- (1))) with (1 / 2) by (unfold F32.pow2; simpl; lra).
  replace (F32.pow2 1) with 2 by (unfold F32.pow2; simpl; lra).
  assert (Hf : Zfloor ((16777216 + 1) * (1 / 2)) = 8388608%Z)
    by (apply Zfloor_eq; lra).
  unfold F32.Znearest. rewrite Hf.
  destruct (Rlt_dec _ _) as [a|a]; [lra|].
  destruct (Rlt_dec _ _) as [b|b]; [lra|].
  cbn [Z.even]. lra.
Qed.

Lemma fsum_unit (es : list R) (acc : R) :
  Forall (fun e => 0 <= e <= 1) es -> 0 <= acc <= F32.pow2 24 ->
  exists s, fold_left F32.add (map F32.Fin es) (F32.Fin acc) = F32.Fin s
    /\ 0 <= s <= F32.pow2 24
    /\ (1 <= acc \/ In 1 es -> 1 <= s).
Proof.
  intros HF. revert acc. induction HF as [|e es He _ IH]; intros acc Hacc.
  - exists acc. cbn [map fold_left]. repeat split; try lra. intros [H|[]]. exact H.
  - cbn [map fold_left F32.add].
    assert (Hlo : 0 <= F32.rnd (acc + e)) by (apply rnd_nonneg; lra).
    assert (Hhi : F32.rnd (acc + e) <= F32.pow2 24).
    { rewrite <- rnd_2p24_plus_1. apply rnd_le. lra. }
    rewrite fl_in_range by (pose proof max_value_ge; apply Rabs_le; lra).
    destruct (IH (F32.rnd (acc + e)) (conj Hlo Hhi)) as [s [Es [Bs H1]]].
    exists s. split; [exact Es|]. split; [exact Bs|].
    intros H. apply H1. destruct H as [H|[H|H]]; [left|left|now right].
    + rewrite <- rnd_1. apply rnd_le. lra.
    + rewrite <- rnd_1. apply rnd_le. lra.
Qed.

Lemma sum_unit_bounds (es : list R) :
  Forall (fun e => 0 <= e <= 1) es -> 0 <= sum es <= INR (length es).
Proof.
  induction 1 as [|e es He _ IH]; [cbn; lra|].
  cbn [sum fold_right length]. fold (sum es). rewrite S_INR. lra.
Qed.

(** The error of the float sum of [n] such numbers: each addition is off by
    at most [2^-24] of its result, which is at most [n], plus [2^-150]. *)
Lemma fsum_error (es : list R) (acc : R) (k : nat) :
  Forall (fun e => 0 <= e <= 1) es -> 0 <= acc <= INR k ->
  (Z.of_nat (k + length es) <= 2 ^ 24)%Z ->
  exists s, fold_left F32.add (map F32.Fin es) (F32.Fin acc) = F32.Fin s
    /\ Rabs (s - (acc + sum es))
       <= INR (length es) * (F32.pow2 (-24) * INR (k + length es) + F32.pow2 (-150)).
Proof.
  intros HF. revert acc k. induction HF as [|e es He _ IH]; intros acc k Hacc Hk.
  - exists acc. cbn [map fold_left sum fold_right length INR]. split; [reflexivity|].
    rewrite Rplus_0_r, Rminus_diag, Rabs_R0. lra.
  - cbn [map fold_left F32.add length].
    assert (Hk1 : INR k + 1 = IZR (Z.of_nat (S k))) by (rewrite <- INR_IZR_INZ, S_INR; ring).
    assert (Hlo : 0 <= F32.rnd (acc + e)) by (apply rnd_nonneg; lra).
    assert (Hhi : F32.rnd (acc + e) <= INR (S k)).
    { rewrite S_INR, Hk1. rewrite <- rnd_IZR by (cbn [length] in Hk; lia).
      apply rnd_le. rewrite <- Hk1. lra. }
    assert (Hr : INR (S k) <= F32.pow2 24).
    { rewrite S_INR, Hk1, pow2_nonneg_IZR by lia. apply IZR_le. cbn [length] in Hk. lia. }
    rewrite fl_in_range by (pose proof max_value_ge; apply Rabs_le; lra).
    destruct (IH (F32.rnd (acc + e)) (S k) (conj Hlo Hhi)) as [s [Es Bs]].
    { cbn [length] in Hk. lia. }
    exists s. split; [exact Es|].
    pose proof (rnd_error (acc + e)) as Herr.
    rewrite (Rabs_pos_eq (acc + e)) in Herr by lra.
    cbn [sum fold_right]. fold (sum es).
    replace (s - (acc + (e + sum es)))
      with ((s - (F32.rnd (acc + e) + sum es)) + (F32.rnd (acc + e) - (acc + e))) by ring.
    eapply Rle_trans; [apply Rabs_triang|].
    replace (S k + length es)%nat with (k + S (length es))%nat in Bs by lia.
    set (n := INR (k + S (length es))) in *.
    assert (Hn : INR k + 1 <= n).
    { unfold n. rewrite <- S_INR. apply le_INR. lia. }
    pose proof (pow2_pos (-24)) as Hu. pose proof (pow2_pos (-150)) as Heta.
    rewrite (S_INR (length es)).
    assert (Hstep : Rabs (F32.rnd (acc + e) - (acc + e)) <= F32.pow2 (-24) * n + F32.pow2 (-150)).
    { eapply Rle_trans; [exact Herr|]. nra. }
    lra.
Qed.

(** The error of the divisions by the sum. *)
Lemma quotients_error (es : list R) (s : R) :
  Forall (fun e => 0 <= e <= 1) es -> 1 <= s ->
  Rabs (sum (map (fun e => F32.rnd (e / s)) es) - sum es / s)
  <= F32.pow2 (-24) * (sum es / s) + INR (length es) * F32.pow2 (-150).
Proof.
  intros HF Hs. induction HF as [|e es He _ IH].
  - cbn. unfold Rdiv. rewrite Rmult_0_l, Rminus_diag, Rabs_R0. lra.
  - cbn [map sum fold_right length].
    fold (sum es). fold (sum (map (fun e => F32.rnd (e / s)) es)).
    rewrite S_INR.
    assert (Hq : 0 <= e / s) by (apply Rmult_le_pos; [lra|left; apply Rinv_0_lt_compat; lra]).
    pose proof (rnd_error (e / s)) as Herr. rewrite (Rabs_pos_eq _ Hq) in Herr.
    replace (F32.rnd (e / s) + sum (map (fun e0 => F32.rnd (e0 / s)) es) - (e + sum es) / s)
      with ((F32.rnd (e / s) - e / s)
            + (sum (map (fun e0 => F32.rnd (e0 / s)) es) - sum es / s))
      by (unfold Rdiv; ring).
    eapply Rle_trans; [apply Rabs_triang|].
    replace ((e + sum es) / s) with (e / s + sum es / s) by (unfold Rdiv; ring).
    lra.
Qed.

(** ** F.softmax on floats *)

Lemma f32_softmax_length (l : list F32.t) : length (F32.softmax l) = length l.
Proof. unfold F32.softmax. now rewrite !length_map. Qed.

Lemma softmax_exps (l : list F32.t) (mu : R) :
  Forall (fun x => x = F32.NInf \/ exists a, x = F32.Fin a /\ a <= mu) l ->
  exists es, map (fun x => F32.exp (F32.sub x (F32.Fin mu))) l = map F32.Fin es
    /\ Forall (fun e => 0 <= e <= 1) es
    /\ Forall2 (fun x e => (x = F32.NInf -> e = 0) /\ (x = F32.Fin mu -> e = 1)) l es.
Proof.
  induction 1 as [|x l Hx _ [es [E [B F]]]].
  - exists []. repeat split; constructor.
  - destruct Hx as [->|[a [-> Ha]]].
    + exists (0 :: es). cbn [map]. rewrite exp_sub_neg_inf, E.
      split; [reflexivity|]. split; [constructor; [lra|assumption]|].
      constructor; [|assumption]. split; [reflexivity|discriminate].
    + destruct (Req_dec a mu) as [->|Hne].
      * exists (1 :: es). cbn [map]. rewrite exp_sub_max, E.
        split; [reflexivity|]. split; [constructor; [lra|assumption]|].
        constructor; [|assumption]. split; [discriminate|reflexivity].
      * destruct (exp_sub_below a mu Ha) as [y [Ey By]].
        exists (y :: es). cbn [map]. rewrite Ey, E.
        split; [reflexivity|]. split; [constructor; assumption|].
        constructor; [|assumption]. split; [discriminate|]. intros [= ->]. contradiction.
Qed.

Lemma div_unit (e s : R) :
  0 <= e <= 1 -> 1 <= s ->
  F32.div (F32.Fin e) (F32.Fin s) = F32.Fin (F32.rnd (e / s))
  /\ 0 <= F32.rnd (e / s) <= 1.
Proof.
  intros He Hs. cbn. destruct (Req_dec_T s 0) as [->|_]; [lra|].
  assert (Hq : 0 <= e / s <= 1).
  { split.
    - apply Rmult_le_pos; [lra|left; apply Rinv_0_lt_compat; lra].
    - apply Rle_trans with (e / 1); [|lra].
      unfold Rdiv. apply Rmult_le_compat_l; [lra|]. apply Rinv_le_contravar; lra. }
  destruct (fl_unit _ Hq) as [y [-> [-> B]]]. now split.
Qed.

Lemma softmax_normalizable (l : list F32.t) :
  F32.normalizable l ->
  exists ws, F32.softmax l = map F32.Fin ws
    /\ Forall (fun w => 0 <= w <= 1) ws
    /\ Forall2 (fun x w => x = F32.NInf -> w = 0) l ws
    /\ ((Z.of_nat (length l) <= 2 ^ 24)%Z ->
        Rabs (sum ws - 1) <= F32.softmax_tolerance (length l)).
Proof.
  intros Hn. destruct (maximum_normalizable l Hn) as [mu [Em [Hall Hin]]].
  destruct (softmax_exps l mu Hall) as [es [Ee [Be Fe]]].
  assert (Hlen : length es = length l) by (symmetry; eapply Forall2_length; exact Fe).
  assert (H1 : In 1 es).
  { clear - Fe Hin. induction Fe as [|x e l es [_ Hx] _ IH]; [contradiction|].
    destruct Hin as [->|Hin]; [left; now apply Hx|right; now apply IH]. }
  pose proof (pow2_pos 24) as Hp24.
  destruct (fsum_unit es 0 Be ltac:(lra)) as [s [Es [Bs Hs1]]].
  specialize (Hs1 (or_intror H1)).
  exists (map (fun e => F32.rnd (e / s)) es).
  unfold F32.softmax. rewrite Em, Ee. unfold F32.sum. rewrite Es.
  split; [|split; [|split]].
  - rewrite !map_map. apply map_ext_in. intros e He.
    rewrite Forall_forall in Be. now apply div_unit; [apply Be|].
  - rewrite Forall_forall. intros w Hw. apply in_map_iff in Hw.
    destruct Hw as [e [<- He]]. rewrite Forall_forall in Be.
    now apply div_unit; [apply Be|].
  - clear - Fe. induction Fe as [|x e l es [Hx _] _ IH]; cbn [map]; constructor; [|exact IH].
    intros Hxn. rewrite (Hx Hxn). unfold Rdiv. rewrite Rmult_0_l. apply rnd_0.
  - intros Hsmall.
    destruct (fsum_error es 0 0 Be) as [s' [Es' Herr]]; [cbn; lra|cbn [Nat.add]; lia|].
    rewrite Es in Es'. injection Es' as <-. cbn [Nat.add] in Herr.
    rewrite Rplus_0_l, Hlen in Herr.
    pose proof (quotients_error es s Be Hs1) as Hq. rewrite Hlen in Hq.
    destruct (sum_unit_bounds es Be) as [S0 Sn]. rewrite Hlen in Sn.
    set (n := INR (length l)) in *. set (S := sum es) in *.
    pose proof (pow2_pos (-24)) as Hu. pose proof (pow2_pos (-150)) as Heta.
    assert (Hue : 2 * F32.pow2 (-150) <= F32.pow2 (-24)).
    { replace (2 * F32.pow2 (-150)) with (F32.pow2 (-149))
        by (replace (-149)%Z with (1 + -150)%Z by lia; rewrite pow2_add;
            replace (F32.pow2 1) with 2 by (unfold F32.pow2; simpl; lra); ring).
      apply pow2_le. lia. }
    assert (Hinv : 0 < / s <= 1).
    { split; [apply Rinv_0_lt_compat; lra|]. rewrite <- Rinv_1. apply Rinv_le_contravar; lra. }
    assert (HSs : 0 <= S / s <= n) by (unfold Rdiv; nra).
    assert (Hsecond : Rabs (S / s - 1) <= n * (F32.pow2 (-24) * n + F32.pow2 (-150))).
    { replace (S / s - 1) with (- ((s - S) * / s)) by (field; lra).
      rewrite Rabs_Ropp, Rabs_mult, (Rabs_pos_eq (/ s)) by lra.
      pose proof (Rabs_pos (s - S)). nra. }
    unfold F32.softmax_tolerance. fold n.
    replace (sum (map (fun e => F32.rnd (e / s)) es) - 1)
      with ((sum (map (fun e => F32.rnd (e / s)) es) - S / s) + (S / s - 1)) by ring.
    eapply Rle_trans; [apply Rabs_triang|].
    assert (Hn0 : 0 <= n) by (unfold n; apply pos_INR).
    nra.
Qed.

(** A NaN anywhere, and the sum is NaN. *)
Lemma fsum_nan (l : list F32.t) (acc : F32.t) :
  acc = F32.NaN \/ In F32.NaN l -> fold_left F32.add l acc = F32.NaN.
Proof.
  revert acc. induction l as [|x l IH]; intros acc H; cbn [fold_left].
  - destruct H as [H|[]]. exact H.
  - apply IH. destruct H as [->|[->|H]]; [left; reflexivity|left|now right].
    now destruct acc.
Qed.

Lemma row_cases (l : list F32.t) :
  In F32.NaN l
  \/ In F32.PInf l
  \/ Forall (fun x => x <> F32.NaN /\ x <> F32.PInf) l.
Proof.
  induction l as [|x l IH]; [right; right; constructor|].
  destruct x as [| | |a]; [left; now left|right; left; now left| |].
  - destruct IH as [H|[H|H]]; [left; now right|right; left; now right|].
    right; right. constructor; [split; discriminate|assumption].
  - destruct IH as [H|[H|H]]; [left; now right|right; left; now right|].
    right; right. constructor; [split; discriminate|assumption].
Qed.

Lemma maximum_nan (l : list F32.t) : In F32.NaN l -> F32.maximum l = F32.NaN.
Proof.
  induction l as [|x l IH]; [contradiction|]. cbn [F32.maximum fold_right].
  fold (F32.maximum l). intros [->|H]; [reflexivity|]. rewrite (IH H). now destruct x.
Qed.

Lemma maximum_pos_inf (l : list F32.t) :
  In F32.PInf l -> F32.maximum l = F32.NaN \/ F32.maximum l = F32.PInf.
Proof.
  induction l as [|x l IH]; [contradiction|]. cbn [F32.maximum fold_right].
  fold (F32.maximum l). intros [->|H].
  - destruct (F32.maximum l); auto.
  - destruct (IH H) as [-> | ->]; destruct x; auto.
Qed.

(** A row that cannot be normalized comes out as NaN everywhere. *)
Lemma softmax_not_normalizable (l : list F32.t) :
  ~ F32.normalizable l -> Forall (fun w => w = F32.NaN) (F32.softmax l).
Proof.
  intros Hn. unfold F32.softmax. rewrite Forall_forall. intros w Hw.
  apply in_map_iff in Hw. destruct Hw as [e [<- He]].
  apply in_map_iff in He. destruct He as [x [<- Hx]].
  destruct (row_cases l) as [H|[H|H]].
  - rewrite (maximum_nan l H). now destruct x.
  - destruct (maximum_pos_inf l H) as [E|E]; rewrite E; [now destruct x|].
    assert (Hs : F32.sum (map (fun x0 => F32.exp (F32.sub x0 F32.PInf)) l) = F32.NaN).
    { apply fsum_nan. right. apply in_map_iff. exists F32.PInf. now split. }
    rewrite Hs. now destruct (F32.exp (F32.sub x F32.PInf)).
  - destruct (maximum_cases l H) as [[Em Hall]|[mu [_ [_ Hin]]]].
    + rewrite Em. rewrite Forall_forall in Hall. rewrite (Hall x Hx). reflexivity.
    + exfalso. apply Hn. split; [exact H|]. apply Exists_exists.
      exists (F32.Fin mu). split; [exact Hin|now exists mu].
Qed.

End Float32.

(** ** float32: shapes through the layers *)

Lemma f32_Linear_forward_returns (i o : nat) (l : Linear.t) (x : list F32.t) :
  Linear.wf i o l -> length x = i ->
  returns (F32.Linear.forward l x) (fun y => length y = o).
Proof.
  intros (Hi & Ho & Hw & Hr & Hb) Hx. unfold F32.Linear.forward.
  rewrite Hx, Hi, Nat.eqb_refl. eexists. split; [reflexivity|].
  destruct (Linear.bias l) as [b|].
  - rewrite map2_length, Hw, Hb. lia.
  - now rewrite length_map.
Qed.

Lemma f32_Linear_forward3_returns (i o : nat) (l : Linear.t) (b r : nat)
    (x : list (list (list F32.t))) :
  Linear.wf i o l -> has_shape3 b r i x ->
  returns (F32.Linear.forward3 l x) (has_shape3 b r o).
Proof.
  intros Hl Hx. unfold F32.Linear.forward3. eapply returns_rows; [|exact Hx].
  intros row Hrow. now apply f32_Linear_forward_returns with (i := i).
Qed.

Lemma f32_LayerNorm_forward_returns (n : nat) (ln : LayerNorm.t) (x : list F32.t) :
  LayerNorm.wf n ln -> length x = n ->
  returns (F32.LayerNorm.forward ln x) (fun y => length y = n).
Proof.
  intros (Hn & Hw & Hb) Hx. unfold F32.LayerNorm.forward.
  rewrite Hx, Hn, Nat.eqb_refl. eexists. split; [reflexivity|].
  rewrite map2_length, length_combine, Hx, Hw, Hb. lia.
Qed.

Lemma f32_LayerNorm_forward3_returns (n b r : nat) (ln : LayerNorm.t)
    (x : list (list (list F32.t))) :
  LayerNorm.wf n ln -> has_shape3 b r n x ->
  returns (F32.LayerNorm.forward3 ln x) (has_shape3 b r n).
Proof.
  intros Hln Hx. unfold F32.LayerNorm.forward3. eapply returns_rows; [|exact Hx].
  intros row Hrow. now apply f32_LayerNorm_forward_returns.
Qed.

Lemma f32_add_vec_returns (n : nat) (a b : list F32.t) :
  length a = n -> length b = n ->
  returns (F32.add_vec a b) (fun y => length y = n).
Proof.
  intros Ha Hb. unfold F32.add_vec. rewrite Ha, Hb, broadcast_same.
  eexists. split; [reflexivity|].
  rewrite !expand_same by assumption. rewrite map2_length, Ha, Hb. apply Nat.min_id.
Qed.

Lemma f32_add_rows_returns (r n : nat) (a b : list (list F32.t)) :
  has_shape2 r n a -> has_shape2 r n b ->
  returns (zipM F32.add_vec a b) (has_shape2 r n).
Proof.
  intros [Hal Ha] [Hbl Hb].
  eapply returns_weaken.
  - apply returns_zipM with (Q := fun y => length y = n); [congruence|].
    intros x y Hx Hy. apply f32_add_vec_returns.
    + eapply Forall_forall in Ha; eassumption.
    + eapply Forall_forall in Hb; eassumption.
  - cbn beta. intros c [Hl HQ]. split; [congruence | assumption].
Qed.

Lemma f32_add3_returns (b r n : nat) (x y : list (list (list F32.t))) :
  has_shape3 b r n x -> has_shape3 b r n y ->
  returns (F32.add3 x y) (has_shape3 b r n).
Proof.
  intros [Hxl Hx] [Hyl Hy]. unfold F32.add3.
  eapply returns_weaken.
  - apply returns_zipM with (Q := has_shape2 r n); [congruence|].
    intros mx my Hmx Hmy. apply f32_add_rows_returns.
    + eapply Forall_forall in Hx; eassumption.
    + eapply Forall_forall in Hy; eassumption.
  - cbn beta. intros c [Hl HQ]. split; [congruence | assumption].
Qed.

(** The scores before masking: shape (B, T, T). *)
Lemma f32_scores_returns (n_embd hs b T : nat) (h : Head.t)
    (x : list (list (list F32.t))) :
  Head.wf n_embd hs h -> 1 <= hs -> has_shape3 b T n_embd x ->
  returns (F32.Head.scores h x) (has_shape3 b T T).
Proof.
  intros Hwf Hhs Hx. pose proof Hwf as (Hk & _ & Hq & _ & _ & _ & _).
  unfold F32.Head.scores.
  destruct (f32_Linear_forward3_returns n_embd hs _ b T x Hk Hx) as [k [-> [Hkl Hks]]].
  destruct (f32_Linear_forward3_returns n_embd hs _ b T x Hq Hx) as [q [-> [Hql Hqs]]].
  cbn [bind].
  destruct Hk as (_ & -> & _). destruct hs as [|hs']; [lia|]. cbn [F32.pow_neg_half bind].
  eexists. split; [reflexivity|]. split.
  - rewrite map2_length, Hql, Hkl. apply Nat.min_id.
  - apply Forall_map2. intros qb kb Hqb Hkb.
    eapply Forall_forall in Hqs; [|exact Hqb]. destruct Hqs as [Hqr _].
    eapply Forall_forall in Hks; [|exact Hkb]. destruct Hks as [Hkr _].
    unfold F32.matmul_nt. split; [now rewrite !length_map|].
    apply Forall_forall. intros row Hrow.
    apply in_map_iff in Hrow as [r1 [<- Hr1]].
    apply in_map_iff in Hr1 as [r2 [<- _]].
    now rewrite !length_map.
Qed.

Lemma f32_softmax_shape (b T : nat) (w : list (list (list F32.t))) :
  has_shape3 b T T w -> has_shape3 b T T (map (map F32.softmax) w).
Proof.
  intros [Hl Hw]. split; [now rewrite length_map|].
  apply Forall_forall. intros m Hm. apply in_map_iff in Hm as [wb [<- Hwb]].
  eapply Forall_forall in Hw; [|exact Hwb]. destruct Hw as [Hwl Hwr].
  split; [now rewrite length_map|].
  apply Forall_forall. intros row Hrow. apply in_map_iff in Hrow as [r [<- Hr]].
  rewrite f32_softmax_length. eapply Forall_forall in Hwr; eassumption.
Qed.

(** The weights: the softmax of the scores, masked in a causal head whose
    mask the sequences fit. *)
Lemma f32_weights_value (n_embd hs b T : nat) (h : Head.t)
    (scores : list (list (list F32.t))) :
  Head.wf n_embd hs h -> has_shape3 b T T scores ->
  (Head.decoding h = true -> T <= block_size) ->
  F32.Head.weights h T scores
  = Ok (map (map F32.softmax)
          (if Head.decoding h
           then map (fun wb => map2 (map2 (fill F32.NInf)) wb (future T)) scores
           else scores)).
Proof.
  intros Hwf Hsh Hdec. unfold F32.Head.weights.
  destruct (Head.decoding h); [|reflexivity].
  rewrite (masked_fill_causal n_embd hs h T _ F32.NInf Hwf (Hdec eq_refl) (proj2 Hsh)).
  reflexivity.
Qed.

Lemma f32_attention_value (n_embd hs b T : nat) (h : Head.t)
    (x : list (list (list F32.t))) :
  Head.wf n_embd hs h -> 1 <= hs ->
  has_shape3 b T n_embd x -> shape1 x = T ->
  (Head.decoding h = true -> T <= block_size) ->
  exists scores,
    F32.Head.scores h x = Ok scores
    /\ has_shape3 b T T scores
    /\ F32.Head.attention h x
       = Ok (map (map F32.softmax)
               (if Head.decoding h
                then map (fun wb => map2 (map2 (fill F32.NInf)) wb (future T)) scores
                else scores)).
Proof.
  intros Hwf Hhs Hx HT Hdec.
  destruct (f32_scores_returns n_embd hs b T h x Hwf Hhs Hx) as [scores [Hs Hsh]].
  exists scores. split; [exact Hs|]. split; [exact Hsh|].
  unfold F32.Head.attention. rewrite Hs, HT. cbn [bind].
  exact (f32_weights_value n_embd hs b T h scores Hwf Hsh Hdec).
Qed.

Lemma f32_attention_returns (n_embd hs b T : nat) (h : Head.t)
    (x : list (list (list F32.t))) :
  Head.wf n_embd hs h -> 1 <= hs ->
  has_shape3 b T n_embd x -> shape1 x = T ->
  (Head.decoding h = true -> T <= block_size) ->
  returns (F32.Head.attention h x) (has_shape3 b T T).
Proof.
  intros Hwf Hhs Hx HT Hdec.
  destruct (f32_attention_value n_embd hs b T h x Hwf Hhs Hx HT Hdec)
    as [scores [_ [Hsh Hatt]]].
  eexists. split; [exact Hatt|]. apply f32_softmax_shape.
  destruct (Head.decoding h); [now apply masked_shape | assumption].
Qed.

Lemma f32_matmul_shape (T hs : nat) (a v : list (list F32.t)) :
  has_shape2 T T a -> has_shape2 T hs v -> has_shape2 T hs (F32.matmul a v).
Proof.
  intros [Hal Har] Hv. unfold F32.matmul. split; [now rewrite length_map|].
  apply Forall_forall. intros row Hrow. apply in_map_iff in Hrow as [r [<- Hr]].
  unfold F32.columns. rewrite !length_map, length_seq.
  apply has_shape2_shape1 with (r := T); [assumption|].
  destruct a; [contradiction | cbn in Hal; lia].
Qed.

Lemma f32_map2_matmul_shape (b T hs : nat) (wei v : list (list (list F32.t))) :
  has_shape3 b T T wei -> has_shape3 b T hs v ->
  has_shape3 b T hs (map2 F32.matmul wei v).
Proof.
  intros [Hwl Hw] [Hvl Hv]. split.
  - rewrite map2_length, Hwl, Hvl. apply Nat.min_id.
  - apply Forall_map2. intros a m Ha Hm. apply f32_matmul_shape.
    + eapply Forall_forall in Hw; eassumption.
    + eapply Forall_forall in Hv; eassumption.
Qed.

Lemma f32_Head_forward_returns (n_embd hs b T : nat) (h : Head.t)
    (x : list (list (list F32.t))) :
  Head.wf n_embd hs h -> 1 <= hs ->
  has_shape3 b T n_embd x -> shape1 x = T ->
  (Head.decoding h = true -> T <= block_size) ->
  returns (F32.Head.forward h x) (has_shape3 b T hs).
Proof.
  intros Hwf Hhs Hx HT Hdec. unfold F32.Head.forward.
  eapply returns_bind; [exact (f32_attention_returns n_embd hs b T h x Hwf Hhs Hx HT Hdec)|].
  intros wei Hwei. cbn beta.
  pose proof Hwf as (_ & _ & _ & _ & Hv & _ & _).
  eapply returns_bind; [exact (f32_Linear_forward3_returns n_embd hs _ b T x Hv Hx)|].
  intros v Hvs. cbn beta. eexists. split; [reflexivity|].
  now apply f32_map2_matmul_shape.
Qed.

Lemma f32_Head_forward_shape (n_embd hs b T : nat) (h : Head.t)
    (x : list (list (list F32.t))) :
  Head.wf n_embd hs h -> 1 <= hs ->
  has_shape3 b T n_embd x ->
  (Head.decoding h = true -> T <= block_size) ->
  returns (F32.Head.forward h x) (has_shape3 b T hs).
Proof.
  intros Hwf Hhs Hx Hdec.
  assert (Hfit : Head.decoding h = true -> shape1 x <= block_size).
  { intros Hd. apply shape1_le with (b := b) (r := T) (c := n_embd); auto. }
  eapply returns_weaken.
  - exact (f32_Head_forward_returns n_embd hs b (shape1 x) h x Hwf Hhs
             (has_shape3_self b T n_embd x Hx) eq_refl Hfit).
  - cbn beta. intros out Hout. apply has_shape3_retime with (r' := shape1 x); [assumption|].
    intros Hb. now apply has_shape3_shape1 with (b := b) (c := n_embd).
Qed.

Lemma f32_MultiHeadAttention_forward_returns (n_embd n_head b T : nat) (dec : bool)
    (m : MultiHeadAttention.t) (x : list (list (list F32.t))) :
  MultiHeadAttention.wf n_embd n_head (n_embd / n_head) m ->
  Forall (fun h => Head.decoding h = dec) (MultiHeadAttention.heads m) ->
  1 <= n_head -> 1 <= n_embd -> n_embd mod n_head = 0 ->
  has_shape3 b T n_embd x -> (dec = true -> T <= block_size) ->
  returns (F32.MultiHeadAttention.forward m x) (has_shape3 b T n_embd).
Proof.
  intros (Hn & Hheads & _) Hdecs Hh He Hmod Hx Hfit.
  destruct (head_size_exact n_embd n_head Hh He Hmod) as [Hhs Hprod].
  assert (Houts : returns (mapM (fun h => F32.Head.forward h x) (MultiHeadAttention.heads m))
            (fun outs => length outs = length (MultiHeadAttention.heads m)
                         /\ Forall (has_shape3 b T (n_embd / n_head)) outs)).
  { apply returns_mapM. apply Forall_forall. intros h Hin.
    apply f32_Head_forward_shape with (n_embd := n_embd); auto.
    - eapply Forall_forall in Hheads; eassumption.
    - intros Hd. apply Hfit. eapply Forall_forall in Hdecs; [|exact Hin].
      cbn beta in Hdecs. congruence. }
  destruct Houts as [outs [Houts [Hlen Hsh]]].
  unfold F32.MultiHeadAttention.forward. rewrite Houts. cbn [bind].
  destruct outs as [|o rest]; [cbn in Hlen; lia|].
  pose proof (Forall_inv Hsh) as Ho. pose proof (Forall_inv_tail Hsh) as Hrest.
  destruct (cat_fold b T (n_embd / n_head) rest Hrest (n_embd / n_head) o Ho) as [Hcat _].
  eexists. split; [reflexivity|].
  replace (n_embd / n_head + length rest * (n_embd / n_head))
    with (n_head * (n_embd / n_head)) in Hcat
    by (rewrite <- Hn, <- Hlen; cbn [length]; lia).
  now rewrite Hprod in Hcat.
Qed.

Lemma f32_FeedFoward_forward_returns (n b r : nat) (f : FeedFoward.t)
    (x : list (list (list F32.t))) :
  FeedFoward.wf n f -> has_shape3 b r n x ->
  returns (F32.FeedFoward.forward f x) (has_shape3 b r n).
Proof.
  intros [H0 H2] Hx. unfold F32.FeedFoward.forward. eapply returns_rows; [|exact Hx].
  intros row Hrow. unfold F32.FeedFoward.forward1.
  eapply returns_bind; [exact (f32_Linear_forward_returns n (4 * n) _ row H0 Hrow)|].
  cbn beta. intros hid Hhid.
  apply f32_Linear_forward_returns with (i := 4 * n); [assumption|].
  now rewrite length_map.
Qed.

Lemma f32_Block_forward_returns (n_embd n_head b T : nat) (dec : bool)
    (blk : Block.t) (x : list (list (list F32.t))) :
  Block.wf n_embd n_head dec blk ->
  1 <= n_head -> 1 <= n_embd -> n_embd mod n_head = 0 ->
  has_shape3 b T n_embd x -> (dec = true -> T <= block_size) ->
  returns (F32.Block.forward blk x) (has_shape3 b T n_embd).
Proof.
  intros (Hsa & Hdecs & Hff & Hln1 & Hln2) Hh He Hmod Hx Hfit. unfold F32.Block.forward.
  eapply returns_bind; [exact (f32_LayerNorm_forward3_returns n_embd b T _ x Hln1 Hx)|].
  cbn beta. intros a Ha.
  eapply returns_bind;
    [exact (f32_MultiHeadAttention_forward_returns n_embd n_head b T dec _ a
              Hsa Hdecs Hh He Hmod Ha Hfit)|].
  cbn beta. intros s0 Hs0.
  eapply returns_bind; [exact (f32_add3_returns b T n_embd x s0 Hx Hs0)|].
  cbn beta. intros x1 Hx1.
  eapply returns_bind; [exact (f32_LayerNorm_forward3_returns n_embd b T _ x1 Hln2 Hx1)|].
  cbn beta. intros f Hf.
  eapply returns_bind; [exact (f32_FeedFoward_forward_returns n_embd b T _ f Hff Hf)|].
  cbn beta. intros g Hg.
  exact (f32_add3_returns b T n_embd x1 g Hx1 Hg).
Qed.

Lemma f32_Sequential_returns (n_embd n_head b T : nat) (dec : bool)
    (blocks : list Block.t) (x : list (list (list F32.t))) :
  Forall (Block.wf n_embd n_head dec) blocks ->
  1 <= n_head -> 1 <= n_embd -> n_embd mod n_head = 0 ->
  has_shape3 b T n_embd x -> (dec = true -> T <= block_size) ->
  returns (F32.Sequential blocks x) (has_shape3 b T n_embd).
Proof.
  intros Hblocks Hh He Hmod Hx Hfit. revert x Hx.
  induction Hblocks as [|blk blocks Hblk _ IH]; intros x Hx.
  - exists x. now split.
  - cbn [F32.Sequential].
    eapply returns_bind;
      [exact (f32_Block_forward_returns n_embd n_head b T dec blk x Hblk Hh He Hmod Hx Hfit)|].
    cbn beta. intros y Hy. now apply IH.
Qed.

Lemma f32_Embedding_forward_returns (n d : nat) (emb : Embedding.t) (i : Z) :
  Embedding.wf n d emb -> (0 <= i < Z.of_nat n)%Z ->
  returns (F32.Embedding.forward emb i) (fun row => length row = d).
Proof.
  intros (Hn & _ & Hl & Hrows) Hi. unfold F32.Embedding.forward. rewrite Hn.
  destruct (0 <=? i)%Z eqn:E1; [|apply Z.leb_gt in E1; lia].
  destruct (i <? Z.of_nat n)%Z eqn:E2; [|apply Z.ltb_ge in E2; lia].
  eexists. split; [reflexivity|]. cbn beta. rewrite length_map.
  apply (Forall_nth_in _ _ [] (Z.to_nat i) Hrows). lia.
Qed.

Lemma f32_embed_returns (vocab_size n b T : nat) (tok pos : Embedding.t)
    (idx : list (list Z)) :
  Embedding.wf vocab_size n tok -> Embedding.wf block_size n pos ->
  has_shape2 b T idx -> T <= block_size ->
  Forall (Forall (fun i => (0 <= i < Z.of_nat vocab_size)%Z)) idx ->
  returns (F32.embed tok pos idx) (has_shape3 b T n).
Proof.
  intros Htok Hpos [Hb Hidx] HT Hids. unfold F32.embed.
  assert (Hs1 : shape1 idx <= block_size /\ Forall (fun row => length row = shape1 idx) idx).
  { destruct idx as [|row idx]; cbn; [split; [lia | constructor]|].
    inversion Hidx as [|? ? Hrow Hrest]; subst. split; [lia | assumption]. }
  destruct Hs1 as [Hs1 Hrows].
  eapply returns_bind.
  - apply returns_mapM with (Q := has_shape2 (shape1 idx) n).
    apply Forall_forall. intros row Hrow.
    eapply returns_weaken.
    + apply returns_mapM with (Q := fun e => length e = n).
      eapply Forall_forall in Hids; [|exact Hrow].
      eapply Forall_impl; [|exact Hids]. intros i Hi.
      now apply f32_Embedding_forward_returns with (n := vocab_size).
    + cbn beta. intros e [Hl HQ]. split; [|assumption].
      eapply Forall_forall in Hrows; [|exact Hrow]. cbn beta in Hrows. congruence.
  - cbn beta. intros tok_emb [Htl Hte].
    eapply returns_bind.
    + apply returns_mapM with (Q := fun e => length e = n).
      apply Forall_forall. intros i Hi. apply in_map_iff in Hi as [k [<- Hk]].
      apply in_seq in Hk.
      apply f32_Embedding_forward_returns with (n := block_size); [assumption|].
      lia.
    + cbn beta. intros pos_emb [Hpl Hpe]. rewrite length_map, length_seq in Hpl.
      eapply returns_weaken.
      * apply returns_mapM with (Q := has_shape2 (shape1 idx) n).
        eapply Forall_impl; [|exact Hte]. intros e He.
        apply f32_add_rows_returns; [assumption | now split].
      * cbn beta. intros x [Hxl Hx].
        apply has_shape3_retime with (r' := shape1 idx); [split; [congruence | assumption]|].
        intros Hb1. destruct idx as [|row idx]; [cbn in Hb; lia|].
        cbn. now inversion Hidx.
Qed.

Lemma f32_features_return (vocab_size n_embd n_head n_layer n_hidden n_output B T : nat)
    (e : Encoder.t) (idx : list (list Z)) :
  Encoder.wf vocab_size n_embd n_head n_layer n_hidden n_output e ->
  1 <= n_head -> 1 <= n_embd -> n_embd mod n_head = 0 ->
  has_shape2 B T idx -> T <= block_size ->
  Forall (Forall (fun i => (0 <= i < Z.of_nat vocab_size)%Z)) idx ->
  returns (F32.Encoder.features e idx) (has_shape3 B T n_embd).
Proof.
  intros (Htok & Hpos & _ & Hblocks & Hln & Hcls) Hh He Hmod Hidx HT Hids.
  unfold F32.Encoder.features.
  eapply returns_bind;
    [exact (f32_embed_returns vocab_size n_embd B T _ _ idx Htok Hpos Hidx HT Hids)|].
  cbn beta. intros x0 Hx0.
  eapply returns_bind;
    [exact (f32_Sequential_returns n_embd n_head B T false _ x0 Hblocks Hh He Hmod Hx0
              ltac:(discriminate))|].
  cbn beta. intros x1 Hx1.
  exact (f32_LayerNorm_forward3_returns n_embd B T _ x1 Hln Hx1).
Qed.

(** The mean over the time axis: one vector of [n] features per example,
    also when there is no position to average. *)
Lemma f32_mean_dim1_shape (b T n : nat) (x : list (list (list F32.t))) :
  has_shape3 b T n x -> has_shape2 b n (F32.mean_dim1 n x).
Proof.
  intros [Hl Hx]. unfold F32.mean_dim1. split; [now rewrite length_map|].
  apply Forall_forall. intros row Hrow. apply in_map_iff in Hrow as [m [<- Hm]].
  unfold F32.columns. now rewrite !length_map, length_seq.
Qed.

Lemma f32_mean_dim1_entry (b T n : nat) (x : list (list (list F32.t))) (ib c : nat) :
  has_shape3 b T n x -> ib < b -> c < n ->
  nth c (nth ib (F32.mean_dim1 n x) []) F32.NaN
  = F32.mean (map (fun t => F32.entry x ib t c) (seq 0 T)).
Proof.
  intros [Hl Hx] Hib Hc. unfold F32.mean_dim1.
  rewrite nth_map_in with (d' := []) by lia.
  pose proof (Forall_nth_in _ x [] ib Hx ltac:(lia)) as [Hml Hmr].
  unfold F32.columns.
  rewrite nth_map_in with (d' := []) by now rewrite length_map, length_seq.
  rewrite nth_map_in with (d' := 0) by now rewrite length_seq.
  rewrite seq_nth by assumption. cbn [Nat.add]. f_equal.
  unfold F32.entry. rewrite <- Hml.
  rewrite <- (map_nth_seq (nth ib x []) []) at 1.
  now rewrite map_map.
Qed.

Lemma f32_logits_return (input_size hidden_size n_output b : nat)
    (c : Classifier.t) (x : list (list F32.t)) :
  Classifier.wf input_size hidden_size n_output c ->
  has_shape2 b input_size x ->
  returns (F32.Classifier.logits c x) (has_shape2 b n_output).
Proof.
  intros [H1 H2] [Hb Hx]. unfold F32.Classifier.logits.
  eapply returns_bind.
  - apply returns_mapM with (Q := fun y => length y = hidden_size).
    eapply Forall_impl; [|exact Hx]. intros row Hrow.
    now apply f32_Linear_forward_returns with (i := input_size).
  - cbn beta. intros hid [Hhl Hhid].
    eapply returns_weaken.
    + apply returns_mapM with (Q := fun y => length y = n_output).
      apply Forall_forall. intros row Hrow. apply in_map_iff in Hrow as [r [<- Hr]].
      apply f32_Linear_forward_returns with (i := hidden_size); [assumption|].
      rewrite length_map. eapply Forall_forall in Hhid; eassumption.
    + cbn beta. intros lg [Hll Hlg]. rewrite length_map in Hll.
      split; [congruence|assumption].
Qed.

(** ** float32: what the attention weights are *)

(** A row after the mask: the scores up to the position, then [-inf]. *)
Lemma masked_row_visible {A : Type} (value : A) (row : list A) (T i : nat) :
  length row = T -> i < T ->
  map2 (fill value) row (map (fun j => negb (j <=? i)) (seq 0 T))
  = firstn (S i) row ++ repeat value (T - S i).
Proof.
  intros Hrow Hi.
  assert (Hl : length (map2 (fill value) row (map (fun j => negb (j <=? i)) (seq 0 T))) = T).
  { rewrite map2_length, length_map, length_seq, Hrow. apply Nat.min_id. }
  apply nth_ext with (d := value) (d' := value).
  - rewrite Hl, length_app, length_firstn, repeat_length, Hrow. lia.
  - rewrite Hl. intros j Hj.
    rewrite nth_map2_in with (d1 := value) (d2 := false)
      by (rewrite ?length_map, ?length_seq; lia).
    rewrite nth_map_in with (d' := 0) by (rewrite length_seq; lia).
    rewrite seq_nth by assumption. cbn [Nat.add].
    destruct (Nat.leb_spec j i) as [Hji|Hji]; cbn [negb fill].
    + rewrite app_nth1 by (rewrite length_firstn, Hrow; lia).
      rewrite nth_firstn. destruct (Nat.ltb_spec j (S i)); [reflexivity|lia].
    + rewrite app_nth2 by (rewrite length_firstn, Hrow; lia).
      rewrite nth_repeat_lt; [reflexivity|]. rewrite length_firstn, Hrow. lia.
Qed.

Lemma future_row (T i : nat) :
  i < T -> nth i (future T) [] = map (fun j => negb (j <=? i)) (seq 0 T).
Proof.
  intros Hi. unfold future.
  rewrite nth_map_in with (d' := 0) by now rewrite length_seq.
  now rewrite seq_nth by assumption.
Qed.

Lemma masked_scores_row (B T : nat) (scores : list (list (list F32.t))) (b i : nat) :
  has_shape3 B T T scores -> b < B -> i < T ->
  nth i (nth b (map (fun wb => map2 (map2 (fill F32.NInf)) wb (future T)) scores) []) []
  = firstn (S i) (nth i (nth b scores []) []) ++ repeat F32.NInf (T - S i).
Proof.
  intros [Hl Hw] Hb Hi.
  pose proof (Forall_nth_in _ scores [] b Hw ltac:(lia)) as [Hwb Hrows].
  pose proof (Forall_nth_in _ _ [] i Hrows ltac:(lia)) as Hrow. cbn beta in Hrow.
  destruct (future_shape T) as [Hfl _].
  rewrite nth_map_in with (d' := []) by lia.
  rewrite nth_map2_in with (d1 := []) (d2 := []) by lia.
  rewrite future_row by assumption.
  now apply masked_row_visible.
Qed.

(** Entries [-inf] at the end of a row do not change whether it can be
    normalized. *)
Lemma normalizable_masked (l : list F32.t) (k : nat) :
  F32.normalizable (l ++ repeat F32.NInf k) <-> F32.normalizable l.
Proof.
  unfold F32.normalizable. rewrite Forall_app, Exists_app. split.
  - intros [[Hl _] [He|He]]; [now split|exfalso].
    apply Exists_exists in He. destruct He as [x [Hx [r ->]]].
    apply repeat_spec in Hx. discriminate.
  - intros [Hl He]. split; [split; [exact Hl|]|now left].
    apply Forall_forall. intros x Hx. apply repeat_spec in Hx. subst x.
    split; discriminate.
Qed.

Lemma f32_entry_softmax (B T : nat) (w : list (list (list F32.t))) (b i : nat) :
  has_shape3 B T T w -> b < B -> i < T ->
  nth i (nth b (map (map F32.softmax) w) []) [] = F32.softmax (nth i (nth b w []) []).
Proof.
  intros [Hl Hw] Hb Hi.
  rewrite nth_map_in with (d' := []) by lia.
  rewrite nth_map_in with (d' := []); [reflexivity|].
  pose proof (Forall_nth_in _ w [] b Hw ltac:(lia)) as [Hr _]. now rewrite Hr.
Qed.

(** The weights of one position of a causal head. *)
Lemma causal_row (visible : list F32.t) (k : nat) :
  (F32.normalizable visible ->
   forall j, length visible <= j -> j < length visible + k ->
     nth j (F32.softmax (visible ++ repeat F32.NInf k)) F32.NaN = F32.Fin 0)
  /\ (~ F32.normalizable visible ->
      forall j, j < length visible + k ->
        nth j (F32.softmax (visible ++ repeat F32.NInf k)) F32.NaN = F32.NaN).
Proof.
  split.
  - intros Hn j Hlo Hhi. apply (proj2 (normalizable_masked visible k)) in Hn.
    destruct (softmax_normalizable _ Hn) as [ws [-> [_ [Hz _]]]].
    assert (Hlen : length ws = length visible + k).
    { rewrite <- (Forall2_length Hz), length_app, repeat_length. reflexivity. }
    rewrite nth_map_in with (d' := 0%R) by lia. f_equal.
    assert (Hgen : forall (l : list F32.t) (ws' : list R) (n : nat),
              Forall2 (fun x w => x = F32.NInf -> w = 0%R) l ws' ->
              nth n l F32.NaN = F32.NInf -> nth n ws' 0%R = 0%R).
    { intros l ws' n HF. revert n. induction HF as [|x w l ws' Hx _ IH]; intros [|n] Hnth;
        cbn in *; try discriminate; auto. }
    apply (Hgen _ _ j Hz). rewrite app_nth2 by lia.
    apply nth_repeat_lt. lia.
  - intros Hn j Hj.
    assert (Hn' : ~ F32.normalizable (visible ++ repeat F32.NInf k))
      by (intros H; apply Hn; now apply normalizable_masked in H).
    pose proof (softmax_not_normalizable _ Hn') as Hall.
    apply (Forall_nth_in _ _ F32.NaN j Hall).
    rewrite f32_softmax_length, length_app, repeat_length. lia.
Qed.

(** The weights, whatever the scores are. *)
Lemma f32_weights_rows (n_embd hs B T : nat) (h : Head.t)
    (scores : list (list (list F32.t))) :
  Head.wf n_embd hs h -> has_shape3 B T T scores ->
  (Head.decoding h = true -> T <= block_size) ->
  exists wei,
    F32.Head.weights h T scores = Ok wei
    /\ has_shape3 B T T wei
    /\ (Head.decoding h = true ->
        forall b i, b < B -> i < T ->
          nth i (nth b wei []) []
          = F32.softmax (firstn (S i) (nth i (nth b scores []) [])
                         ++ repeat F32.NInf (T - S i)))
    /\ (Head.decoding h = false ->
        wei = map (map F32.softmax) scores
        /\ forall b i, b < B -> i < T ->
             nth i (nth b wei []) [] = F32.softmax (nth i (nth b scores []) [])).
Proof.
  intros Hwf Hsh HT.
  eexists. split; [exact (f32_weights_value n_embd hs B T h scores Hwf Hsh HT)|].
  split.
  { apply f32_softmax_shape.
    destruct (Head.decoding h); [now apply masked_shape|assumption]. }
  split; intros Hdec; rewrite Hdec.
  - intros b i Hb Hi.
    rewrite (f32_entry_softmax B T _ b i (masked_shape B T scores F32.NInf Hsh) Hb Hi).
    now rewrite (masked_scores_row B T scores b i Hsh Hb Hi).
  - split; [reflexivity|]. intros b i Hb Hi.
    exact (f32_entry_softmax B T scores b i Hsh Hb Hi).
Qed.

(** [Head.forward], stage by stage. *)
Lemma f32_Head_forward_stages (n_embd hs B T : nat) (h : Head.t)
    (x : list (list (list F32.t))) :
  Head.wf n_embd hs h -> 1 <= hs ->
  has_shape3 B T n_embd x -> (Head.decoding h = true -> T <= block_size) ->
  exists scores wei v,
    F32.Head.scores h x = Ok scores
    /\ has_shape3 B T T scores
    /\ F32.Head.weights h T scores = Ok wei
    /\ F32.Head.attention h x = Ok wei
    /\ F32.Linear.forward3 (Head.value h) x = Ok v
    /\ has_shape3 B T hs v
    /\ F32.Head.forward h x = Ok (map2 F32.matmul wei v).
Proof.
  intros Hwf Hhs Hx HT.
  destruct (f32_scores_returns n_embd hs B T h x Hwf Hhs Hx) as [scores [Hs Hsh]].
  destruct (f32_weights_rows n_embd hs B T h scores Hwf Hsh HT) as [wei [Hw _]].
  pose proof Hwf as (_ & _ & _ & _ & Hv & _ & _).
  destruct (f32_Linear_forward3_returns n_embd hs _ B T x Hv Hx) as [v [Hv' Hvs]].
  assert (Hatt : F32.Head.attention h x = Ok wei).
  { unfold F32.Head.attention. rewrite Hs. cbn [bind]. rewrite <- Hw.
    destruct B as [|B'].
    - destruct (has_shape3_empty T n_embd 0 n_embd x Hx) as [-> _].
      destruct (has_shape3_empty T T 0 0 scores Hsh) as [-> Hsh0].
      cbn [shape1].
      rewrite (f32_weights_value n_embd hs 0 0 h [] Hwf Hsh0 ltac:(lia)).
      rewrite (f32_weights_value n_embd hs 0 T h [] Hwf Hsh HT).
      now destruct (Head.decoding h).
    - now rewrite (has_shape3_shape1 (S B') T n_embd x Hx ltac:(lia)). }
  exists scores, wei, v. split; [exact Hs|]. split; [exact Hsh|]. split; [exact Hw|].
  split; [exact Hatt|]. split; [exact Hv'|]. split; [exact Hvs|].
  unfold F32.Head.forward. now rewrite Hatt, Hv'.
Qed.

(** C1, amended.  For a head built by [__init__] and an input of shape
    (B, T, n_embd) with 1 <= T <= block_size, [forward] computes the scores,
    from them the weights [wei] of shape (B, T, T), and returns [wei @ v].
    Whatever the scores are (those computed here, or those another order of
    the float additions gives): in a causal head the row of weights of
    position [i] is the softmax of the scores of the positions up to [i]
    followed by [-inf]; when these scores can be normalized (none is NaN or
    [+inf], one is finite) the weight of every later position is exactly 0,
    and otherwise, as after an overflow in the scores, every weight of the
    row is NaN.  In a non-causal head no mask is applied: the weights are the
    softmax of the full rows of scores. *)
Theorem causal_attention_weights (n_embd hs B T : nat) (h : Head.t)
    (x : list (list (list F32.t))) :
  Head.wf n_embd hs h -> 1 <= hs ->
  has_shape3 B T n_embd x -> 1 <= T <= block_size ->
  (exists scores wei v,
     F32.Head.scores h x = Ok scores
     /\ has_shape3 B T T scores
     /\ F32.Head.weights h T scores = Ok wei
     /\ F32.Head.attention h x = Ok wei
     /\ F32.Linear.forward3 (Head.value h) x = Ok v
     /\ F32.Head.forward h x = Ok (map2 F32.matmul wei v))
  /\ (forall scores : list (list (list F32.t)), has_shape3 B T T scores ->
      exists wei,
        F32.Head.weights h T scores = Ok wei
        /\ has_shape3 B T T wei
        /\ (Head.decoding h = true ->
            forall b i, b < B -> i < T ->
              let visible := firstn (S i) (nth i (nth b scores []) []) in
              nth i (nth b wei []) []
              = F32.softmax (visible ++ repeat F32.NInf (T - S i))
              /\ (F32.normalizable visible ->
                  forall j, i < j -> j < T -> F32.entry wei b i j = F32.Fin 0)
              /\ (~ F32.normalizable visible ->
                  forall j, j < T -> F32.entry wei b i j = F32.NaN))
        /\ (Head.decoding h = false -> wei = map (map F32.softmax) scores)).
Proof.
  intros Hwf Hhs Hx [_ HT]. split.
  - destruct (f32_Head_forward_stages n_embd hs B T h x Hwf Hhs Hx (fun _ => HT))
      as (scores & wei & v & Hs & Hsh & Hw & Hatt & Hv & _ & Hfw).
    now exists scores, wei, v.
  - intros scores Hsh.
    destruct (f32_weights_rows n_embd hs B T h scores Hwf Hsh (fun _ => HT))
      as (wei & Hw & Hwsh & Hcausal & Hfree).
    exists wei. split; [exact Hw|]. split; [exact Hwsh|].
    split; [|intros Hdec; exact (proj1 (Hfree Hdec))].
    intros Hdec b i Hb Hi. cbn zeta.
    pose proof (Hcausal Hdec b i Hb Hi) as Hrow. split; [exact Hrow|].
    assert (Hvis : length (firstn (S i) (nth i (nth b scores []) [])) = S i).
    { destruct Hsh as [Hl Hm].
      pose proof (Forall_nth_in _ scores [] b Hm ltac:(lia)) as [Hwb Hrows].
      pose proof (Forall_nth_in _ _ [] i Hrows ltac:(lia)) as Hr. cbn beta in Hr.
      rewrite length_firstn, Hr. lia. }
    destruct (causal_row (firstn (S i) (nth i (nth b scores []) [])) (T - S i))
      as [Hzero Hnan].
    unfold F32.entry. rewrite Hrow. split.
    + intros Hn j Hij Hj. apply Hzero; [exact Hn| |]; rewrite Hvis; lia.
    + intros Hn j Hj. apply Hnan; [exact Hn|]. rewrite Hvis. lia.
Qed.

(** ** float32: the pooled features and the classifier *)

Lemma Ok_inj {A : Type} (a b : A) : Ok a = Ok b -> a = b.
Proof. now injection 1. Qed.

Lemma mean_nil : F32.mean [] = F32.NaN.
Proof.
  unfold F32.mean, F32.sum, F32.of_nat. cbn [fold_left length INR].
  rewrite fl_0. cbn [F32.div]. destruct (Req_dec_T 0 0) as [_|H]; [|now elim H].
  unfold F32.scaled_inf. destruct (Rlt_dec 0 0) as [H|_]; [exfalso; lra|reflexivity].
Qed.

(** Without a position to average, the pooled features are NaN. *)
Lemma mean_dim1_empty (b n : nat) (x : list (list (list F32.t))) :
  has_shape3 b 0 n x -> F32.mean_dim1 n x = repeat (repeat F32.NaN n) b.
Proof.
  intros [Hl Hx]. unfold F32.mean_dim1. subst b.
  induction Hx as [|m x [Hm _] _ IH]; [reflexivity|].
  cbn [map length repeat]. rewrite IH. f_equal.
  destruct m; [|discriminate]. unfold F32.columns. rewrite map_map. cbn [map].
  rewrite mean_nil. clear. generalize 0 as s.
  induction n as [|n IH]; intros s; [reflexivity|]. cbn [seq map repeat]. now rewrite IH.
Qed.

Lemma dot_nan (x w : list F32.t) :
  x <> [] -> length w = length x -> Forall (fun v => v = F32.NaN) x ->
  F32.dot x w = F32.NaN.
Proof.
  intros Hne Hlen Hx. unfold F32.dot, F32.sum. apply fsum_nan. right.
  destruct x as [|v x]; [contradiction|]. destruct w as [|u w]; [discriminate|].
  apply Forall_inv in Hx. subst v. cbn [map2]. now left.
Qed.

(** A layer given NaN features returns NaN features. *)
Lemma f32_Linear_forward_nan (i o : nat) (l : Linear.t) (x : list F32.t) :
  Linear.wf i o l -> 1 <= i -> length x = i -> Forall (fun v => v = F32.NaN) x ->
  F32.Linear.forward l x = Ok (repeat F32.NaN o).
Proof.
  intros (Hi & Ho & Hw & Hr & Hb) Hpos Hx Hnan. unfold F32.Linear.forward.
  rewrite Hx, Hi, Nat.eqb_refl. f_equal.
  assert (Hdot : forall w, In w (Linear.weight l) -> F32.dot x (map F32.Fin w) = F32.NaN).
  { intros w Hin. apply dot_nan; [destruct x; [cbn in Hx; lia|discriminate]| |assumption].
    rewrite length_map, Hx. eapply Forall_forall in Hr; eassumption. }
  rewrite <- Hw in *. clear Hw Ho. revert Hr Hb Hdot.
  generalize (Linear.weight l) as ws. intros ws Hr Hb Hdot.
  destruct (Linear.bias l) as [bs|].
  - revert bs Hb. induction ws as [|w ws IH]; intros bs Hb.
    + reflexivity.
    + destruct bs as [|b0 bs]; [discriminate|]. cbn [map2 length repeat].
      rewrite (Hdot w) by now left. cbn [F32.add]. f_equal.
      apply IH; [now inversion Hr| |now injection Hb].
      intros w' Hin. apply Hdot. now right.
  - clear Hb. induction ws as [|w ws IH].
    + reflexivity.
    + cbn [map length repeat]. rewrite (Hdot w) by now left. f_equal.
      apply IH; [now inversion Hr|]. intros w' Hin. apply Hdot. now right.
Qed.

Lemma Forall_repeat_eq {A : Type} (a : A) (n : nat) : Forall (fun v => v = a) (repeat a n).
Proof. apply Forall_forall. intros x Hx. now apply repeat_spec in Hx. Qed.

Lemma Forall_eq_repeat {A : Type} (a : A) (l : list A) :
  Forall (fun x => x = a) l -> l = repeat a (length l).
Proof. induction 1 as [|x l -> _ IH]; [reflexivity|]. cbn [length repeat]. now rewrite <- IH. Qed.

Lemma map_relu_nan (n : nat) : map F32.relu (repeat F32.NaN n) = repeat F32.NaN n.
Proof. induction n as [|n IH]; [reflexivity|]. cbn [repeat map]. now rewrite IH. Qed.

Lemma mapM_repeat {A B : Type} (f : A -> result B) (a : A) (b : B) (n : nat) :
  f a = Ok b -> mapM f (repeat a n) = Ok (repeat b n).
Proof.
  intros H. induction n as [|n IH]; [reflexivity|]. cbn [repeat mapM].
  now rewrite H, IH.
Qed.

Lemma logits_nan (input_size hidden_size n_output b : nat) (c : Classifier.t) :
  Classifier.wf input_size hidden_size n_output c ->
  1 <= input_size -> 1 <= hidden_size ->
  F32.Classifier.logits c (repeat (repeat F32.NaN input_size) b)
  = Ok (repeat (repeat F32.NaN n_output) b).
Proof.
  intros [H1 H2] Hi Hh. unfold F32.Classifier.logits.
  rewrite (mapM_repeat _ _ (repeat F32.NaN hidden_size)).
  - cbn [bind]. rewrite map_repeat, map_relu_nan.
    apply mapM_repeat.
    apply f32_Linear_forward_nan with (i := hidden_size); auto.
    + apply repeat_length.
    + apply Forall_repeat_eq.
  - apply f32_Linear_forward_nan with (i := input_size); auto.
    + apply repeat_length.
    + apply Forall_repeat_eq.
Qed.

Lemma softmax_nan (n : nat) : F32.softmax (repeat F32.NaN n) = repeat F32.NaN n.
Proof.
  destruct n as [|n]; [reflexivity|].
  assert (Hn : ~ F32.normalizable (repeat F32.NaN (S n))).
  { intros [Hall _]. apply Forall_inv in Hall. now destruct Hall. }
  pose proof (softmax_not_normalizable _ Hn) as Hall.
  pose proof (f32_softmax_length (repeat F32.NaN (S n))) as Hlen.
  rewrite repeat_length in Hlen. revert Hall Hlen.
  generalize (F32.softmax (repeat F32.NaN (S n))) as l. generalize (S n) as k.
  clear. intros k l Hall. revert k. induction Hall as [|x l -> _ IH]; intros k Hlen.
  - now subst k.
  - destruct k as [|k]; [discriminate|]. cbn [repeat]. f_equal. apply IH. now injection Hlen.
Qed.

(** Lines 127 to 132 of [Encoder.forward], whatever the representations
    are. *)
Lemma f32_classify_value (n_embd n_hidden n_output B T : nat) (e : Encoder.t)
    (x : list (list (list F32.t))) :
  LayerNorm.normalized_shape (Encoder.ln_f e) = n_embd ->
  Classifier.wf n_embd n_hidden n_output (Encoder.classifier e) ->
  1 <= n_embd -> has_shape3 B T n_embd x ->
  exists logits probs,
    has_shape2 B n_embd (F32.mean_dim1 n_embd x)
    /\ (forall b c, b < B -> c < n_embd ->
          nth c (nth b (F32.mean_dim1 n_embd x) []) F32.NaN
          = F32.mean (map (fun t => F32.entry x b t c) (seq 0 T)))
    /\ F32.Classifier.logits (Encoder.classifier e) (F32.mean_dim1 n_embd x) = Ok logits
    /\ has_shape2 B n_output logits
    /\ F32.Encoder.classify e x = Ok probs
    /\ probs = map F32.softmax logits
    /\ has_shape2 B n_output probs
    /\ (forall b, b < B ->
          (F32.normalizable (nth b logits []) ->
           exists ps, nth b probs [] = map F32.Fin ps
             /\ Forall (fun p => (0 <= p <= 1)%R) ps
             /\ ((Z.of_nat n_output <= 2 ^ 24)%Z ->
                 (Rabs (sum ps - 1) <= F32.softmax_tolerance n_output)%R))
          /\ (~ F32.normalizable (nth b logits []) ->
              nth b probs [] = repeat F32.NaN n_output))
    /\ (T = 0 -> 1 <= n_hidden -> probs = repeat (repeat F32.NaN n_output) B).
Proof.
  intros Hln Hcls He Hsh.
  pose proof (f32_mean_dim1_shape B T n_embd x Hsh) as Hpool.
  destruct (f32_logits_return n_embd n_hidden n_output B _ _ Hcls Hpool)
    as [logits [Hlg Hlsh]].
  exists logits, (map F32.softmax logits).
  split; [exact Hpool|].
  split; [intros b c Hb Hc; now apply f32_mean_dim1_entry with (b := B)|].
  split; [exact Hlg|]. split; [exact Hlsh|].
  split; [unfold F32.Encoder.classify, F32.Classifier.forward;
          rewrite Hln, Hlg; reflexivity|].
  split; [reflexivity|].
  destruct Hlsh as [Hll Hlrows].
  split; [split; [now rewrite length_map|]|split].
  - apply Forall_forall. intros row Hrow. apply in_map_iff in Hrow as [r [<- Hr]].
    rewrite f32_softmax_length. eapply Forall_forall in Hlrows; eassumption.
  - intros b Hb. rewrite nth_map_in with (d' := []) by lia.
    pose proof (Forall_nth_in _ logits [] b Hlrows ltac:(lia)) as Hlen. cbn beta in Hlen.
    split.
    + intros Hn. destruct (softmax_normalizable _ Hn) as [ps [Hps [Hunit [_ Htol]]]].
      exists ps. split; [exact Hps|]. split; [exact Hunit|]. now rewrite Hlen in Htol.
    + intros Hn. rewrite <- Hlen, <- (f32_softmax_length (nth b logits [])).
      apply Forall_eq_repeat. now apply softmax_not_normalizable.
  - intros -> Hhid. rewrite (mean_dim1_empty B n_embd x Hsh) in Hlg.
    rewrite (logits_nan n_embd n_hidden n_output B _ Hcls He Hhid) in Hlg.
    apply Ok_inj in Hlg. subst logits. rewrite map_repeat. now rewrite softmax_nan.
Qed.

(** [Encoder.forward]: the representations, then lines 127 to 132. *)
Lemma f32_Encoder_forward_stages
    (vocab_size n_embd n_head n_layer n_hidden n_output B T : nat)
    (e : Encoder.t) (idx : list (list Z)) (dev : device) (targets : option (list Z)) :
  Encoder.wf vocab_size n_embd n_head n_layer n_hidden n_output e ->
  1 <= n_head -> 1 <= n_embd -> n_embd mod n_head = 0 ->
  has_shape2 B T idx -> T <= block_size ->
  Forall (Forall (fun i => (0 <= i < Z.of_nat vocab_size)%Z)) idx ->
  exists x probs,
    F32.Encoder.features e idx = Ok x
    /\ has_shape3 B T n_embd x
    /\ F32.Encoder.classify e x = Ok probs
    /\ F32.Encoder.forward e idx dev targets = Ok probs
    /\ has_shape2 B n_output probs.
Proof.
  intros Hwf Hh He Hmod Hidx HT Hids.
  destruct (f32_features_return vocab_size n_embd n_head n_layer n_hidden n_output B T
              e idx Hwf Hh He Hmod Hidx HT Hids) as [x [Hx Hsh]].
  destruct Hwf as (_ & _ & _ & _ & (Hln & _ & _) & Hcls).
  destruct (f32_classify_value n_embd n_hidden n_output B T e x Hln Hcls He Hsh)
    as (logits & probs & _ & _ & _ & _ & Hc & _ & Hp & _).
  exists x, probs. split; [exact Hx|]. split; [exact Hsh|]. split; [exact Hc|].
  split; [|exact Hp]. unfold F32.Encoder.forward. now rewrite Hx.
Qed.

(** C6, amended.  For an encoder built by [__init__] (n_head >= 1 dividing
    n_embd >= 1) and a batch of shape (B, T), T <= block_size, of ids below
    vocab_size, [forward] computes the per-position representations [x], of
    shape (B, T, n_embd), and returns what lines 127 to 132 make of them, a
    tensor of shape (B, n_output).  Whatever the representations are (those
    computed here, or those another order of the float additions gives):
    their mean over the time axis, one vector per example, goes to the
    classifier head, and the result is the softmax of the class scores of the
    head.  A row of class scores that can be normalized (no NaN, no [+inf],
    a finite score) gives numbers between 0 and 1 whose sum is 1 up to the
    rounding of the float operations; any other row gives NaN throughout.
    With sequences of no token (T = 0) the mean is NaN and so is every
    returned entry. *)
Theorem encoder_forward_probabilities
    (vocab_size n_embd n_head n_layer n_hidden n_output B T : nat)
    (e : Encoder.t) (idx : list (list Z)) (dev : device) (targets : option (list Z)) :
  Encoder.wf vocab_size n_embd n_head n_layer n_hidden n_output e ->
  1 <= n_head -> 1 <= n_embd -> n_embd mod n_head = 0 ->
  has_shape2 B T idx -> T <= block_size ->
  Forall (Forall (fun i => (0 <= i < Z.of_nat vocab_size)%Z)) idx ->
  (exists x probs,
     F32.Encoder.features e idx = Ok x
     /\ has_shape3 B T n_embd x
     /\ F32.Encoder.classify e x = Ok probs
     /\ F32.Encoder.forward e idx dev targets = Ok probs
     /\ has_shape2 B n_output probs)
  /\ (forall x : list (list (list F32.t)), has_shape3 B T n_embd x ->
      exists logits probs,
        has_shape2 B n_embd (F32.mean_dim1 n_embd x)
        /\ (forall b c, b < B -> c < n_embd ->
              nth c (nth b (F32.mean_dim1 n_embd x) []) F32.NaN
              = F32.mean (map (fun t => F32.entry x b t c) (seq 0 T)))
        /\ F32.Classifier.logits (Encoder.classifier e) (F32.mean_dim1 n_embd x)
           = Ok logits
        /\ has_shape2 B n_output logits
        /\ F32.Encoder.classify e x = Ok probs
        /\ probs = map F32.softmax logits
        /\ has_shape2 B n_output probs
        /\ (forall b, b < B ->
              (F32.normalizable (nth b logits []) ->
               exists ps, nth b probs [] = map F32.Fin ps
                 /\ Forall (fun p => (0 <= p <= 1)%R) ps
                 /\ ((Z.of_nat n_output <= 2 ^ 24)%Z ->
                     (Rabs (sum ps - 1) <= F32.softmax_tolerance n_output)%R))
              /\ (~ F32.normalizable (nth b logits []) ->
                  nth b probs [] = repeat F32.NaN n_output))
        /\ (T = 0 -> 1 <= n_hidden -> probs = repeat (repeat F32.NaN n_output) B)).
Proof.
  intros Hwf Hh He Hmod Hidx HT Hids. split.
  - exact (f32_Encoder_forward_stages vocab_size n_embd n_head n_layer n_hidden n_output
             B T e idx dev targets Hwf Hh He Hmod Hidx HT Hids).
  - intros x Hsh. destruct Hwf as (_ & _ & _ & _ & (Hln & _ & _) & Hcls).
    exact (f32_classify_value n_embd n_hidden n_output B T e x Hln Hcls He Hsh).
Qed.


(** ** The statements on the smallest configuration *)

Lemma Forall_repeat {A : Type} (P : A -> Prop) (a : A) (n : nat) :
  P a -> Forall P (repeat a n).
Proof.
  intros Ha. apply Forall_forall. intros x Hx. apply repeat_spec in Hx. now subst.
Qed.

Lemma tiny_linear_wf (i o : nat) (with_bias : bool) :
  Linear.wf i o (tiny_linear i o with_bias).
Proof.
  unfold Linear.wf, tiny_linear. cbn [Linear.in_features Linear.out_features
    Linear.weight Linear.bias].
  repeat split.
  - apply repeat_length.
  - apply Forall_repeat. apply repeat_length.
  - destruct with_bias; [apply repeat_length | exact I].
Qed.

Lemma tiny_head_wf (decoding : bool) : Head.wf 1 1 (tiny_head decoding).
Proof.
  unfold Head.wf, tiny_head. cbn [Head.key Head.query Head.value Head.tril].
  repeat split; try apply tiny_linear_wf.
Qed.

Lemma tiny_attention_wf (decoding : bool) :
  MultiHeadAttention.wf 1 1 1 (tiny_attention decoding).
Proof.
  unfold MultiHeadAttention.wf, tiny_attention.
  cbn [MultiHeadAttention.heads MultiHeadAttention.proj].
  split; [reflexivity|]. split; [repeat constructor; apply tiny_head_wf|].
  apply tiny_linear_wf.
Qed.

Lemma tiny_block_wf (decoding : bool) : Block.wf 1 1 decoding (tiny_block decoding).
Proof.
  unfold Block.wf, tiny_block. cbn [Block.sa Block.ffwd Block.ln1 Block.ln2].
  split; [apply tiny_attention_wf|]. split; [repeat constructor|].
  split; [split; apply tiny_linear_wf|]. split; repeat split.
Qed.

Lemma tiny_encoder_wf : Encoder.wf 2 1 1 1 1 2 tiny_encoder.
Proof.
  unfold Encoder.wf, tiny_encoder.
  cbn [Encoder.token_embedding_table Encoder.position_embedding_table Encoder.blocks
       Encoder.ln_f Encoder.classifier].
  split; [repeat split; repeat constructor|].
  split; [split; [reflexivity|]; split; [reflexivity|];
          split; [apply repeat_length | apply Forall_repeat; reflexivity]|].
  split; [reflexivity|].
  split; [repeat constructor; apply tiny_block_wf|].
  split; [repeat split|]. split; apply tiny_linear_wf.
Qed.

Lemma two_le_block_size : 1 <= 2 <= block_size.
Proof. rewrite block_size_eq. lia. Qed.

Lemma causal_head_needs_block_size_witness :
  has_shape2 2 2 (Head.mask (tiny_head true) 2)
  /\ returns (Head.forward (tiny_head true) [[[1%R]; [2%R]]]) (has_shape3 1 2 1).
Proof.
  apply (causal_head_needs_block_size 1 1 1 2 (tiny_head true) [[[1%R]; [2%R]]]
           (tiny_head_wf true) (le_n 1) eq_refl (le_n 1)).
  - repeat split; repeat constructor.
  - apply two_le_block_size.
Defined.

Lemma multi_head_concatenates_witness :
  exists out,
    MultiHeadAttention.forward (tiny_attention true) [[[1%R]; [2%R]]] = Ok out
    /\ has_shape3 1 2 (1 * 1) out.
Proof.
  destruct (multi_head_concatenates 1 1 1 1 2 (tiny_attention true) [[[1%R]; [2%R]]]
              (tiny_attention_wf true) (le_n 1) (le_n 1))
    as (outs & out & _ & _ & _ & Hfw & Hsh & _).
  - repeat split; repeat constructor.
  - intros h _ _. apply two_le_block_size.
  - exists out. split; assumption.
Defined.

(** ** float32 on the smallest configuration *)

Lemma max_value_lt : (F32.max_value < F32.pow2 128)%R.
Proof.
  unfold F32.max_value. replace 128%Z with (24 + 104)%Z by lia. rewrite pow2_add.
  apply Rmult_lt_compat_r; [apply pow2_pos|].
  rewrite pow2_nonneg_IZR by lia. apply IZR_lt. lia.
Qed.

Lemma max_value_ge_127 : (F32.pow2 127 <= F32.max_value)%R.
Proof.
  unfold F32.max_value. replace 127%Z with (23 + 104)%Z by lia. rewrite pow2_add.
  apply Rmult_le_compat_r; [left; apply pow2_pos|].
  rewrite pow2_nonneg_IZR by lia. apply IZR_le. lia.
Qed.

Lemma fl_IZR (m : Z) : (Z.abs m <= 2 ^ 24)%Z -> F32.fl (IZR m) = F32.Fin (IZR m).
Proof.
  intros Hm. rewrite fl_in_range; rewrite rnd_IZR by assumption; [reflexivity|].
  apply Rle_trans with (F32.pow2 24); [|apply max_value_ge].
  rewrite pow2_nonneg_IZR, <- abs_IZR by lia. now apply IZR_le.
Qed.

Lemma fl_pow2 (e : Z) :
  (-149 <= e <= 127)%Z -> F32.fl (F32.pow2 e) = F32.Fin (F32.pow2 e).
Proof.
  intros He. rewrite fl_in_range; rewrite rnd_pow2 by lia; [reflexivity|].
  rewrite Rabs_pos_eq by (left; apply pow2_pos).
  apply Rle_trans with (F32.pow2 127); [apply pow2_le; lia|apply max_value_ge_127].
Qed.

Lemma fl_overflow (r : R) : (F32.pow2 128 <= r)%R -> F32.fl r = F32.PInf.
Proof.
  intros Hr. pose proof (rnd_le _ _ Hr) as Hle. rewrite rnd_pow2 in Hle by lia.
  pose proof max_value_lt as Hm. pose proof (pow2_pos 128) as Hp.
  unfold F32.fl. destruct (Rle_dec _ _) as [H|_].
  - rewrite Rabs_pos_eq in H by lra. lra.
  - destruct (Rlt_dec _ _); [reflexivity|lra].
Qed.

(** The scale of a head of size 1. *)
Lemma pow_neg_half_1 : F32.pow_neg_half 1 = Ok (F32.Fin 1).
Proof.
  cbn [F32.pow_neg_half INR]. now rewrite sqrt_1, Rinv_1, fl_1.
Qed.

(** The one projection of the smallest head leaves a float as it is. *)
Lemma tiny_projection (a : R) :
  F32.fl a = F32.Fin a ->
  F32.Linear.forward (tiny_linear 1 1 false) [F32.Fin a] = Ok [F32.Fin a].
Proof.
  intros Ha. cbv [F32.Linear.forward tiny_linear Linear.in_features Linear.bias
    Linear.weight length Nat.eqb repeat map F32.dot F32.sum map2 fold_left F32.mul F32.add].
  now rewrite Rmult_1_r, Ha, Rplus_0_l, Ha.
Qed.

Lemma tiny_scores (dec : bool) (a b : R) :
  F32.fl a = F32.Fin a -> F32.fl b = F32.Fin b ->
  F32.Head.scores (tiny_head dec) [[[F32.Fin a]; [F32.Fin b]]]
  = Ok [[[tiny_score a a; tiny_score a b]; [tiny_score b a; tiny_score b b]]].
Proof.
  intros Ha Hb. unfold F32.Head.scores, F32.Linear.forward3.
  cbn [tiny_head Head.key Head.query mapM bind].
  rewrite !tiny_projection by assumption. cbn [bind].
  cbn [tiny_linear Linear.out_features]. rewrite pow_neg_half_1. cbn [bind].
  reflexivity.
Qed.

Lemma fl_opp (r : R) : F32.fl (- r) = F32.neg (F32.fl r).
Proof.
  unfold F32.fl. rewrite rnd_opp, Rabs_Ropp.
  destruct (Rle_dec _ _) as [H|H]; [reflexivity|].
  assert (Hp : (0 < F32.max_value)%R).
  { apply Rlt_le_trans with (F32.pow2 24); [apply pow2_pos|apply max_value_ge]. }
  assert (Hy : (F32.max_value < Rabs (F32.rnd r))%R) by lra.
  destruct (Rlt_dec 0 (- F32.rnd r)) as [a|a], (Rlt_dec 0 (F32.rnd r)) as [b|b];
    try reflexivity; try lra.
  exfalso. replace (F32.rnd r) with 0%R in Hy by lra. rewrite Rabs_R0 in Hy. lra.
Qed.

Lemma tiny_score_int (a b : Z) :
  (Z.abs (a * b) <= 2 ^ 24)%Z -> tiny_score (IZR a) (IZR b) = F32.Fin (IZR (a * b)).
Proof.
  intros H. unfold tiny_score. rewrite <- mult_IZR, fl_IZR by assumption.
  cbn [F32.add]. rewrite Rplus_0_l, fl_IZR by assumption.
  cbn [F32.mul]. now rewrite Rmult_1_r, fl_IZR by assumption.
Qed.

Lemma tiny_score_overflow (a b : R) :
  (F32.pow2 128 <= a * b)%R -> tiny_score a b = F32.PInf.
Proof.
  intros H. unfold tiny_score. rewrite fl_overflow by assumption.
  cbn [F32.add F32.mul]. unfold F32.scaled_inf.
  destruct (Rlt_dec 0 1); [reflexivity|lra].
Qed.

(** The claim C1 after an overflow: the score of the first position on
    itself is [+inf], and its weight on the later position is NaN, not 0. *)
Lemma causal_weight_nan_after_overflow :
  exists wei,
    F32.Head.attention (tiny_head true)
      [[[F32.Fin (F32.pow2 70)]; [F32.Fin (- F32.pow2 70)]]] = Ok wei
    /\ F32.entry wei 0 0 1 = F32.NaN
    /\ F32.entry wei 0 0 1 <> F32.Fin 0.
Proof.
  assert (Hx : has_shape3 1 2 1 [[[F32.Fin (F32.pow2 70)]; [F32.Fin (- F32.pow2 70)]]])
    by (repeat split; repeat constructor).
  assert (Hp : F32.fl (F32.pow2 70) = F32.Fin (F32.pow2 70)) by (apply fl_pow2; lia).
  assert (Hn : F32.fl (- F32.pow2 70) = F32.Fin (- F32.pow2 70))
    by (now rewrite fl_opp, Hp).
  destruct (f32_Head_forward_stages 1 1 1 2 (tiny_head true) _ (tiny_head_wf true)
              (le_n 1) Hx (fun _ => proj2 two_le_block_size))
    as (scores & wei & v & Hs & Hsh & Hw & Hatt & _).
  destruct (f32_weights_rows 1 1 1 2 (tiny_head true) scores (tiny_head_wf true) Hsh
              (fun _ => proj2 two_le_block_size))
    as (wei' & Hw' & _ & Hcausal & _).
  rewrite Hw in Hw'. apply Ok_inj in Hw'. subst wei'.
  rewrite (tiny_scores true _ _ Hp Hn) in Hs. apply Ok_inj in Hs. subst scores.
  exists wei. split; [exact Hatt|].
  assert (Hnan : F32.entry wei 0 0 1 = F32.NaN).
  { unfold F32.entry. rewrite (Hcausal eq_refl 0 0) by lia.
    cbn [nth firstn]. rewrite tiny_score_overflow.
    - apply (proj2 (causal_row [F32.PInf] 1)); [|cbn; lia].
      intros [Hall _]. apply Forall_inv in Hall. now destruct Hall.
    - rewrite <- pow2_add. apply pow2_le. lia. }
  split; [exact Hnan|]. rewrite Hnan. discriminate.
Qed.

Lemma causal_attention_weights_witness :
  (exists wei, F32.Head.attention (tiny_head true) [[[F32.Fin 1]; [F32.Fin 2]]] = Ok wei
               /\ F32.entry wei 0 0 1 = F32.Fin 0)
  /\ (exists wei, F32.Head.weights (tiny_head true) 2
                    [[[F32.PInf; F32.Fin 0]; [F32.Fin 0; F32.Fin 0]]] = Ok wei
                  /\ F32.entry wei 0 0 1 = F32.NaN)
  /\ (exists scores wei,
        F32.Head.scores (tiny_head false) [[[F32.Fin 1]; [F32.Fin 2]]] = Ok scores
        /\ F32.Head.attention (tiny_head false) [[[F32.Fin 1]; [F32.Fin 2]]] = Ok wei
        /\ wei = map (map F32.softmax) scores).
Proof.
  assert (Hx : has_shape3 1 2 1 [[[F32.Fin 1]; [F32.Fin 2]]])
    by (repeat split; repeat constructor).
  assert (H1 : F32.fl 1 = F32.Fin 1) by (apply (fl_IZR 1); cbn; lia).
  assert (H2 : F32.fl 2 = F32.Fin 2) by (apply (fl_IZR 2); cbn; lia).
  destruct (causal_attention_weights 1 1 1 2 (tiny_head true) [[[F32.Fin 1]; [F32.Fin 2]]]
              (tiny_head_wf true) (le_n 1) Hx two_le_block_size)
    as [(scores & wei & v & Hs & Hsh & Hw & Hatt & _) Hrows].
  split; [|split].
  - destruct (Hrows scores Hsh) as (wei' & Hw' & _ & Hcausal & _).
    rewrite Hw in Hw'. apply Ok_inj in Hw'. subst wei'.
    rewrite (tiny_scores true 1 2 H1 H2) in Hs. apply Ok_inj in Hs. subst scores.
    exists wei. split; [exact Hatt|].
    destruct (Hcausal eq_refl 0 0 (le_n 1) ltac:(lia)) as [_ [Hzero _]].
    apply Hzero; [|lia|lia].
    cbn [nth firstn]. rewrite (tiny_score_int 1 1) by (cbn; lia).
    split; [repeat constructor; discriminate|]. left. now eexists.
  - destruct (Hrows [[[F32.PInf; F32.Fin 0]; [F32.Fin 0; F32.Fin 0]]])
      as (wei' & Hw' & _ & Hcausal & _); [repeat split; repeat constructor|].
    exists wei'. split; [exact Hw'|].
    destruct (Hcausal eq_refl 0 0 (le_n 1) ltac:(lia)) as [_ [_ Hnan]].
    apply Hnan; [|lia]. cbn [nth firstn].
    intros [Hall _]. apply Forall_inv in Hall. now destruct Hall.
  - destruct (causal_attention_weights 1 1 1 2 (tiny_head false) [[[F32.Fin 1]; [F32.Fin 2]]]
                (tiny_head_wf false) (le_n 1) Hx two_le_block_size)
      as [(scores' & wei' & v' & Hs' & Hsh' & Hw' & Hatt' & _) Hrows'].
    destruct (Hrows' scores' Hsh') as (wei'' & Hw'' & _ & _ & Hfree).
    rewrite Hw' in Hw''. apply Ok_inj in Hw''. subst wei''.
    exists scores', wei'. split; [exact Hs'|]. split; [exact Hatt'|]. now apply Hfree.
Defined.

(** The claim C6 on sequences of no token: the returned row is NaN, not a
    distribution. *)
Lemma encoder_forward_nan_without_tokens :
  F32.Encoder.forward tiny_encoder [[]] cpu None = Ok [[F32.NaN; F32.NaN]].
Proof.
  destruct (f32_Encoder_forward_stages 2 1 1 1 1 2 1 0 tiny_encoder [[]] cpu None
              tiny_encoder_wf (le_n 1) (le_n 1) eq_refl)
    as (x & probs & _ & Hsh & Hc & Hfw & _).
  - repeat split; repeat constructor.
  - lia.
  - repeat constructor.
  - destruct tiny_encoder_wf as (_ & _ & _ & _ & (Hln & _ & _) & Hcls).
    destruct (f32_classify_value 1 1 2 1 0 tiny_encoder x Hln Hcls (le_n 1) Hsh)
      as (logits & probs' & _ & _ & _ & _ & Hc' & _ & _ & _ & Hnan).
    rewrite Hc in Hc'. apply Ok_inj in Hc'. subst probs'.
    rewrite Hfw. now rewrite (Hnan eq_refl (le_n 1)).
Qed.

Lemma fl_half : F32.fl (1 / 2) = F32.Fin (1 / 2).
Proof.
  replace (1 / 2)%R with (F32.pow2 (-1)) by (unfold F32.pow2; simpl; lra).
  apply fl_pow2. lia.
Qed.

(** Two equal finite scores share the weight. *)
Lemma softmax_pair (a : R) :
  F32.softmax [F32.Fin a; F32.Fin a] = [F32.Fin (1 / 2); F32.Fin (1 / 2)].
Proof.
  unfold F32.softmax. cbn [F32.maximum fold_right F32.max].
  rewrite Rmax_left by lra. cbn [map]. rewrite exp_sub_max.
  unfold F32.sum. cbn [fold_left F32.add]. rewrite Rplus_0_l, fl_1. cbn [F32.add].
  replace (1 + 1)%R with 2%R by lra. rewrite (fl_IZR 2) by (cbn; lia).
  cbn [F32.div]. destruct (Req_dec_T 2 0) as [H|_]; [exfalso; lra|].
  now rewrite fl_half.
Qed.

(** A layer of the smallest configuration with a bias copies a float to each
    of its outputs. *)
Lemma tiny_projection_bias (v : F32.t) (o : nat) :
  F32.is_float v ->
  F32.Linear.forward (tiny_linear 1 o true) [v] = Ok (repeat v o).
Proof.
  intros Hv. unfold F32.Linear.forward.
  cbn [tiny_linear Linear.in_features Linear.bias Linear.weight length Nat.eqb].
  change (repeat 1%R 1) with [1%R].
  f_equal. induction o as [|o IH]; [reflexivity|].
  cbn [repeat map2 map]. rewrite IH. f_equal.
  unfold F32.dot, F32.sum. cbn [map2 fold_left].
  destruct v as [| | |a]; cbn [F32.mul F32.add F32.is_float] in *; unfold F32.scaled_inf;
    try (destruct (Rlt_dec 0 1) as [_|H]; [reflexivity|exfalso; lra]);
    try reflexivity.
  rewrite Rmult_1_r, Hv. cbn [F32.add]. rewrite Rplus_0_l, Hv. cbn [F32.add].
  now rewrite Rplus_0_r, Hv.
Qed.

(** The class scores of the smallest encoder: the pooled feature, if
    positive, for both classes. *)
Lemma tiny_logits (v : F32.t) :
  F32.is_float v -> F32.is_float (F32.relu v) ->
  F32.Classifier.logits (Encoder.classifier tiny_encoder) [[v]]
  = Ok [[F32.relu v; F32.relu v]].
Proof.
  intros Hv Hr. unfold F32.Classifier.logits.
  cbn [tiny_encoder Encoder.classifier Classifier.fc1 Classifier.fc2 mapM].
  rewrite (tiny_projection_bias v 1 Hv). cbn [bind repeat map mapM].
  now rewrite (tiny_projection_bias (F32.relu v) 2 Hr).
Qed.

Lemma tiny_mean_finite :
  F32.mean_dim1 1 [[[F32.Fin 1]; [F32.Fin 3]]] = [[F32.Fin 2]].
Proof.
  unfold F32.mean_dim1, F32.columns. cbn [seq map nth].
  unfold F32.mean, F32.sum, F32.of_nat. cbn [fold_left length F32.add].
  rewrite Rplus_0_l, fl_1. cbn [F32.add].
  replace (1 + 3)%R with 4%R by lra. rewrite (fl_IZR 4) by (cbn; lia).
  replace (INR 2) with 2%R by (simpl; lra). rewrite (fl_IZR 2) by (cbn; lia).
  cbn [F32.div]. destruct (Req_dec_T 2 0) as [H|_]; [exfalso; lra|].
  replace (4 / 2)%R with 2%R by lra. now rewrite (fl_IZR 2) by (cbn; lia).
Qed.

Lemma tiny_mean_infinite :
  F32.mean_dim1 1 [[[F32.PInf]; [F32.Fin 3]]] = [[F32.PInf]].
Proof.
  unfold F32.mean_dim1, F32.columns. cbn [seq map nth].
  unfold F32.mean, F32.sum, F32.of_nat. cbn [fold_left length F32.add].
  replace (INR 2) with 2%R by (simpl; lra). rewrite (fl_IZR 2) by (cbn; lia).
  cbn [F32.div]. destruct (Rle_dec 0 2) as [_|H]; [reflexivity|exfalso; lra].
Qed.

Lemma encoder_forward_probabilities_witness :
  (exists probs,
     F32.Encoder.forward tiny_encoder [[0; 1]]%Z cpu None = Ok probs
     /\ has_shape2 1 2 probs)
  /\ (exists ps,
        F32.Encoder.classify tiny_encoder [[[F32.Fin 1]; [F32.Fin 3]]]
        = Ok [map F32.Fin ps]
        /\ ps = [(1 / 2)%R; (1 / 2)%R]
        /\ Forall (fun p => (0 <= p <= 1)%R) ps
        /\ (Rabs (sum ps - 1) <= F32.softmax_tolerance 2)%R)
  /\ F32.Encoder.classify tiny_encoder [[[F32.PInf]; [F32.Fin 3]]]
     = Ok [[F32.NaN; F32.NaN]].
Proof.
  assert (H2 : F32.fl 2 = F32.Fin 2) by (apply (fl_IZR 2); cbn; lia).
  destruct (encoder_forward_probabilities 2 1 1 1 1 2 1 2 tiny_encoder
              [[0; 1]]%Z cpu None tiny_encoder_wf (le_n 1) (le_n 1) eq_refl)
    as [(x & probs & _ & _ & _ & Hfw & Hsh) Hall].
  - repeat split; repeat constructor.
  - apply two_le_block_size.
  - repeat constructor; lia.
  - split; [exists probs; now split|]. split.
    + destruct (Hall [[[F32.Fin 1]; [F32.Fin 3]]])
        as (logits & probs' & _ & _ & Hlg & _ & Hc & Heq & _ & Hrows & _);
        [repeat split; repeat constructor|].
      rewrite tiny_mean_finite, tiny_logits in Hlg;
        [|exact H2|cbn [F32.relu F32.max F32.is_float]; now rewrite Rmax_right by lra].
      apply Ok_inj in Hlg. subst logits.
      cbn [F32.relu F32.max] in *. rewrite Rmax_right in * by lra.
      destruct (Hrows 0 (le_n 1)) as [Hyes _].
      destruct Hyes as [ps [E [Hu Htol]]].
      { cbn [nth]. split; [repeat constructor; discriminate|]. left. now eexists. }
      subst probs'. cbn [map nth] in E, Hc.
      assert (Hps : ps = [(1 / 2)%R; (1 / 2)%R]).
      { rewrite softmax_pair in E. destruct ps as [|p [|q [|]]]; try discriminate.
        now injection E as <- <-. }
      exists ps. split; [now rewrite Hc, E|]. split; [exact Hps|]. split; [exact Hu|].
      apply Htol. cbn. lia.
    + destruct (Hall [[[F32.PInf]; [F32.Fin 3]]])
        as (logits & probs' & _ & _ & Hlg & _ & Hc & Heq & _ & Hrows & _);
        [repeat split; repeat constructor|].
      rewrite tiny_mean_infinite, tiny_logits in Hlg by exact I.
      apply Ok_inj in Hlg. subst logits. cbn [F32.relu F32.max] in *.
      destruct (Hrows 0 (le_n 1)) as [_ Hno].
      rewrite Hc. subst probs'. cbn [map nth] in Hno |- *. rewrite Hno; [reflexivity|].
      intros [Hall' _]. apply Forall_inv in Hall'. now destruct Hall'.
Defined.

(* ================================================================= *)
(** * Part III.  Further properties of the code *)
(* ================================================================= *)

(** ** collate_batch, sample by sample *)

(** The value of [collate_batch] on a non-empty batch. *)
Lemma collate_batch_value (batch : list (list Z * Z)) :
  batch <> [] ->
  collate_batch batch
  = Ok (map (fun sample => firstn block_size (fst sample)
                           ++ repeat 0%Z (block_size - length (fst sample))) batch,
        map snd batch).
Proof.
  intros Hne. destruct batch as [|p batch]; [congruence|].
  unfold collate_batch. f_equal. f_equal.
  rewrite shape1_truncated by (simpl; congruence).
  unfold F_pad_right, pad_sequence. rewrite !map_map.
  apply map_ext_in. intros [s l] Hin. cbn [fst].
  apply collate_row. apply max_len_ge. now apply (in_map fst) in Hin.
Qed.

(** Collation works sample by sample, although [pad_sequence] first pads to
    the longest member of the batch: collating the concatenation of two
    non-empty batches gives the rows and the labels of the first followed by
    those of the second. *)
Theorem collate_batch_app (b1 b2 : list (list Z * Z))
    (rows1 rows2 : list (list Z)) (labels1 labels2 : list Z) :
  collate_batch b1 = Ok (rows1, labels1) ->
  collate_batch b2 = Ok (rows2, labels2) ->
  collate_batch (b1 ++ b2) = Ok (rows1 ++ rows2, labels1 ++ labels2).
Proof.
  intros H1 H2.
  assert (b1 <> []) as Hb1 by (intros ->; discriminate H1).
  assert (b2 <> []) as Hb2 by (intros ->; discriminate H2).
  rewrite (collate_batch_value b1 Hb1) in H1.
  rewrite (collate_batch_value b2 Hb2) in H2.
  injection H1 as <- <-. injection H2 as <- <-.
  rewrite collate_batch_value by (destruct b1; [congruence | discriminate]).
  now rewrite !map_app.
Qed.

Lemma collate_batch_app_witness :
  collate_batch ([([1; 2]%Z, 0%Z)] ++ [([3]%Z, 1%Z)])
  = Ok ([[1; 2]%Z ++ repeat 0%Z (block_size - 2)] ++ [[3]%Z ++ repeat 0%Z (block_size - 1)],
        [0%Z] ++ [1%Z]).
Proof.
  apply (collate_batch_app [([1; 2]%Z, 0%Z)] [([3]%Z, 1%Z)]).
  - rewrite collate_batch_value by discriminate. cbn [map fst snd length].
    rewrite firstn_all2 by (cbn [length]; rewrite block_size_eq; lia). reflexivity.
  - rewrite collate_batch_value by discriminate. cbn [map fst snd length].
    rewrite firstn_all2 by (cbn [length]; rewrite block_size_eq; lia). reflexivity.
Defined.

Lemma firstn_app_zeros (s : list Z) (k n : nat) :
  firstn n (s ++ repeat 0%Z k) ++ repeat 0%Z (n - length (s ++ repeat 0%Z k))
  = firstn n s ++ repeat 0%Z (n - length s).
Proof.
  rewrite firstn_app, firstn_repeat, <- app_assoc, <- repeat_app.
  rewrite length_app, repeat_length. f_equal. f_equal. lia.
Qed.

(** Padding cannot be told from data: the pad id is also id 0 of the
    vocabulary, so a sequence and the same sequence followed by any number of
    ids 0 are collated to the same row. *)
Theorem collate_batch_trailing_zeros (s : list Z) (k : nat) (label : Z)
    (before after : list (list Z * Z)) :
  collate_batch (before ++ (s ++ repeat 0%Z k, label) :: after)
  = collate_batch (before ++ (s, label) :: after).
Proof.
  rewrite !collate_batch_value by (destruct before; discriminate).
  rewrite !map_app. cbn [map fst snd]. now rewrite firstn_app_zeros.
Qed.

(** ** compute_perplexity: the bound, the models, the value *)

(** An iteration bound that is passed is honoured: the result only depends
    on the first [max(1, eval_iters)] batches (the test comes after the
    append, so a bound of 0 or less still reads one batch); and when the
    loader has that many batches and each yields a loss, the perplexity is
    exp of the mean of exactly those losses. *)
Theorem compute_perplexity_explicit_bound {M : Type} `{Module M} (model : M)
    (data_loader : list (list (list Z) * list (list Z))) (n : Z) :
  compute_perplexity model data_loader (Given n)
  = compute_perplexity model (firstn (Nat.max 1 (Z.to_nat n)) data_loader) (Given n)
  /\ (Forall (fun b => exists loss, batch_loss model (fst b) (snd b) = Ok loss)
             data_loader ->
      Nat.max 1 (Z.to_nat n) <= length data_loader ->
      exists losses,
        length losses = Nat.max 1 (Z.to_nat n)
        /\ Forall2 (fun b loss => batch_loss model (fst b) (snd b) = Ok loss)
                   (firstn (Nat.max 1 (Z.to_nat n)) data_loader) losses
        /\ compute_perplexity model data_loader (Given n)
           = Ok (torch_exp (tensor_mean losses))).
Proof.
  split.
  - unfold compute_perplexity. cbn [with_default].
    rewrite perplexity_loop_prefix. cbn [length]. now rewrite Z.sub_0_r.
  - intros Hall Hlen.
    destruct (perplexity_loop_takes model data_loader n [] Hall)
      as [new [Hloop [Hnew Hfirst]]].
    cbn [length] in Hnew. rewrite Z.sub_0_r, Nat.min_r in Hnew by assumption.
    exists new. split; [assumption|]. split; [now rewrite <- Hnew|].
    unfold compute_perplexity. cbn [with_default]. now rewrite Hloop.
Qed.

(** On a [Decoder], [compute_perplexity] returns on the empty loader only,
    and what it returns then is NaN (the mean of no loss); on any batch the
    call [decoderLMmodel(X)] raises TypeError. *)
Theorem compute_perplexity_on_decoder (d : Decoder.t)
    (data_loader : list (list (list Z) * list (list Z))) (bound : arg Z) :
  (data_loader = [] -> compute_perplexity d data_loader bound = Ok NaN)
  /\ (data_loader <> [] -> compute_perplexity d data_loader bound = Err TypeError)
  /\ (forall p, compute_perplexity d data_loader bound = Ok p ->
                data_loader = [] /\ p = NaN).
Proof.
  destruct data_loader as [|[X Y] rest].
  - split; [reflexivity|]. split; [congruence|].
    intros q [= <-]. now split.
  - split; [discriminate|]. split; [reflexivity|]. discriminate.
Qed.

(** A model that returns what [Decoder.forward] returns, the pair
    (logits, loss), makes [compute_perplexity] raise AttributeError at the
    first batch: the loop reads [logits.shape] on the pair.  A model that
    returns a rank-2 tensor makes the unpacking [B, T, C = logits.shape]
    raise ValueError. *)
Theorem compute_perplexity_wants_a_rank3_tensor {M : Type} `{Module M} (model : M)
    (X Y : list (list Z)) (rest : list (list (list Z) * list (list Z))) (bound : arg Z) :
  (forall lg loss, call model X = Ok (Tuple lg loss) ->
     compute_perplexity model ((X, Y) :: rest) bound = Err AttributeError)
  /\ (forall m, call model X = Ok (Tensor2 m) ->
     compute_perplexity model ((X, Y) :: rest) bound = Err ValueError).
Proof.
  split.
  - intros lg loss Hcall.
    unfold compute_perplexity. cbn [perplexity_loop]. unfold batch_loss.
    now rewrite Hcall.
  - intros m Hcall.
    unfold compute_perplexity. cbn [perplexity_loop]. unfold batch_loss.
    now rewrite Hcall.
Qed.

Lemma mapM_Forall {A B : Type} (f : A -> result B) (Q : B -> Prop)
    (l : list A) (ys : list B) :
  mapM f l = Ok ys ->
  (forall a y, In a l -> f a = Ok y -> Q y) -> Forall Q ys.
Proof.
  revert ys. induction l as [|a l IH]; intros ys.
  - cbn. intros [= <-] _. constructor.
  - cbn [mapM]. destruct (f a) as [b|e] eqn:Hb; [|discriminate]. cbn [bind].
    destruct (mapM f l) as [bs|e]; [|discriminate]. cbn [bind].
    intros [= <-] HQ. constructor.
    + apply (HQ a b); [now left | assumption].
    + apply IH; [reflexivity|]. intros a' y Hin. apply HQ. now right.
Qed.





(** ** compute_classifier_accuracy: batch order, and the Encoder *)

Lemma accuracy_loop_permutation {M : Type} `{Module M} (classifier : M)
    (l l' : list (list (list Z) * list Z)) :
  Permutation l l' ->
  forall c t r, accuracy_loop classifier l c t = Ok r ->
                accuracy_loop classifier l' c t = Ok r.
Proof.
  induction 1 as [|[X Y] l l' _ IH|[X1 Y1] [X2 Y2] l|l l' l'' _ IH1 _ IH2]; intros c t r.
  - trivial.
  - cbn [accuracy_loop].
    destruct (call classifier X) as [o|e]; [|discriminate]. cbn [bind].
    destruct (correct_in_batch o Y) as [k|e]; [|discriminate]. cbn [bind].
    apply IH.
  - cbn [accuracy_loop].
    destruct (call classifier X2) as [o2|e]; cbn [bind]; [|discriminate].
    destruct (correct_in_batch o2 Y2) as [k2|e]; cbn [bind]; [|discriminate].
    destruct (call classifier X1) as [o1|e]; cbn [bind]; [|discriminate].
    destruct (correct_in_batch o1 Y1) as [k1|e]; cbn [bind]; [|discriminate].
    replace (c + k1 + k2)%Z with (c + k2 + k1)%Z by lia.
    replace (t + Z.of_nat (length Y1) + Z.of_nat (length Y2))%Z
      with (t + Z.of_nat (length Y2) + Z.of_nat (length Y1))%Z by lia.
    trivial.
  - intros Hl. apply IH2. now apply IH1.
Qed.

(** The loaders shuffle their batches: the accuracy does not depend on the
    order in which the batches come. *)
Theorem accuracy_any_batch_order {M : Type} `{Module M} (classifier : M)
    (data_loader shuffled : list (list (list Z) * list Z)) (acc : Q) :
  Permutation data_loader shuffled ->
  compute_classifier_accuracy classifier data_loader = Ok acc ->
  compute_classifier_accuracy classifier shuffled = Ok acc.
Proof.
  intros Hperm. unfold compute_classifier_accuracy.
  destruct (accuracy_loop classifier data_loader 0 0) as [r|e] eqn:Hl; [|discriminate].
  now rewrite (accuracy_loop_permutation classifier data_loader shuffled Hperm 0%Z 0%Z r Hl).
Qed.

Lemma accuracy_any_batch_order_witness :
  compute_classifier_accuracy
    (fun X : list (list Z) =>
       match X with
       | [[5%Z]] => Tensor2 [[1; 0]]%R
       | _ => Tensor2 [[0; 1]]%R
       end)
    [([[6%Z]], [0%Z]); ([[5%Z]], [0%Z])]
  = Ok (inject_Z (100 * 1) / inject_Z 2)%Q.
Proof.
  apply (accuracy_any_batch_order
           (fun X : list (list Z) =>
              match X with
              | [[5%Z]] => Tensor2 [[1; 0]]%R
              | _ => Tensor2 [[0; 1]]%R
              end)
           [([[5%Z]], [0%Z]); ([[6%Z]], [0%Z])]
           [([[6%Z]], [0%Z]); ([[5%Z]], [0%Z])]).
  - apply perm_swap.
  - unfold compute_classifier_accuracy. cbn [accuracy_loop call Callable_Module bind].
    cbn [correct_in_batch mapM argmax argmax_from bind].
    destruct (Rlt_dec 1 0) as [Hlt|_]; [lra|].
    destruct (Rlt_dec 0 1) as [_|Hn]; [|lra].
    reflexivity.
Defined.

(** Given an [Encoder], [compute_classifier_accuracy] never returns a value:
    on any batch the call [classifier(X)] lacks the [device] argument of
    [forward] and raises TypeError, and with no batch the division raises
    ZeroDivisionError. *)
Theorem accuracy_on_encoder_never_returns (e : Encoder.t)
    (data_loader : list (list (list Z) * list Z)) :
  (data_loader = [] ->
   compute_classifier_accuracy e data_loader = Err ZeroDivisionError)
  /\ (data_loader <> [] ->
      compute_classifier_accuracy e data_loader = Err TypeError)
  /\ (forall acc, compute_classifier_accuracy e data_loader <> Ok acc).
Proof.
  destruct data_loader as [|[X Y] rest].
  - split; [reflexivity|]. split; [congruence | discriminate].
  - split; [discriminate|]. split; [reflexivity | discriminate].
Qed.

(** ** Head.forward: the errors, and sequences of any length *)

Lemma softmax_row_of (B T : nat) (w : list (list (list ext))) (b i : nat) :
  has_shape3 B T T w -> b < B -> i < T ->
  nth i (nth b (map (map softmax) w) []) [] = softmax (nth i (nth b w []) []).
Proof.
  intros [Hl Hw] Hb Hi.
  rewrite nth_map_in with (d' := []) by lia.
  rewrite nth_map_in with (d' := []); [reflexivity|].
  pose proof (Forall_nth_in _ w [] b Hw ltac:(lia)) as [Hr _]. now rewrite Hr.
Qed.

(** A head of size 0 cannot run: Python raises on [0 ** -0.5].  And an input
    whose last dimension is not [n_embd] is refused by the key projection. *)
Theorem head_forward_errors (n_embd hs B T C : nat) (h : Head.t)
    (x : list (list (list R))) :
  Head.wf n_embd hs h -> has_shape3 B T C x ->
  (hs = 0 -> C = n_embd -> Head.forward h x = Err ZeroDivisionError)
  /\ (C <> n_embd -> 1 <= B -> 1 <= T -> Head.forward h x = Err RuntimeError).
Proof.
  intros Hwf Hx. pose proof Hwf as (Hk & _ & Hq & _ & _ & _ & _). split.
  - intros -> ->. unfold Head.forward, Head.attention.
    destruct (Linear_forward3_returns n_embd 0 _ B T x Hk Hx) as [k [-> _]].
    destruct (Linear_forward3_returns n_embd 0 _ B T x Hq Hx) as [q [-> _]].
    cbn [bind]. destruct Hk as (_ & -> & _). reflexivity.
  - intros HC HB HT. destruct Hx as [Hl Hx].
    destruct x as [|m x]; [cbn in Hl; lia|].
    inversion Hx as [|? ? [Hml Hmr] _]; subst.
    destruct m as [|row m]; [cbn in HT; lia|].
    inversion Hmr as [|? ? Hrow _]; subst.
    unfold Head.forward, Head.attention, Linear.forward3. cbn [mapM].
    unfold Linear.forward at 1. destruct Hk as (-> & _).
    destruct (length row =? n_embd) eqn:E; [apply Nat.eqb_eq in E; contradiction|].
    reflexivity.
Qed.

Lemma head_forward_errors_witness :
  Head.forward (tiny_head true) [[[1%R; 2%R]]] = Err RuntimeError.
Proof.
  apply (head_forward_errors 1 1 1 1 2 (tiny_head true) [[[1%R; 2%R]]]
           (tiny_head_wf true)); try lia.
  repeat split; repeat constructor.
Defined.

(** A non-causal head has no length limit: it returns for sequences of any
    length, also beyond [block_size] (the mask buffer is not read). *)
Theorem noncausal_head_any_length (n_embd hs B T : nat) (h : Head.t)
    (x : list (list (list R))) :
  Head.wf n_embd hs h -> 1 <= hs -> Head.decoding h = false ->
  has_shape3 B T n_embd x ->
  returns (Head.forward h x) (has_shape3 B T hs).
Proof.
  intros Hwf Hhs Hdec Hx.
  apply Head_forward_shape with (n_embd := n_embd); auto.
  rewrite Hdec. discriminate.
Qed.

Lemma noncausal_head_any_length_witness :
  returns (Head.forward (tiny_head false) [repeat [1%R] 40]) (has_shape3 1 40 1).
Proof.
  apply (noncausal_head_any_length 1 1 1 40 (tiny_head false) [repeat [1%R] 40]
           (tiny_head_wf false) (le_n 1) eq_refl).
  split; [reflexivity|]. constructor; [|constructor].
  split; [apply repeat_length | apply Forall_repeat; reflexivity].
Defined.

(** ** The embeddings: sequences too long, ids outside the vocabulary *)

Lemma mapM_error_only {A B : Type} (f : A -> result B) (e : exn) (l : list A) :
  (forall a, In a l -> (exists b, f a = Ok b) \/ f a = Err e) ->
  (exists bs, mapM f l = Ok bs) \/ mapM f l = Err e.
Proof.
  induction l as [|a l IH]; intros Hf; [left; now exists []|].
  cbn [mapM]. destruct (Hf a (or_introl eq_refl)) as [[b ->]| ->]; [|now right].
  cbn [bind]. destruct IH as [[bs ->]| ->]; [intros; apply Hf; now right | |].
  - left. now eexists.
  - now right.
Qed.

Lemma mapM_some_error {A B : Type} (f : A -> result B) (e : exn) (l : list A) :
  (forall a, In a l -> (exists b, f a = Ok b) \/ f a = Err e) ->
  Exists (fun a => f a = Err e) l ->
  mapM f l = Err e.
Proof.
  intros Hf Hex. induction Hex as [a l Ha|a l _ IH].
  - cbn [mapM]. now rewrite Ha.
  - cbn [mapM]. destruct (Hf a (or_introl eq_refl)) as [[b ->]| ->]; [|reflexivity].
    cbn [bind]. rewrite IH; [reflexivity|]. intros; apply Hf; now right.
Qed.

Lemma Embedding_forward_cases (emb : Embedding.t) (i : Z) :
  (exists row, Embedding.forward emb i = Ok row) \/ Embedding.forward emb i = Err IndexError.
Proof.
  unfold Embedding.forward.
  destruct ((0 <=? i)%Z && (i <? Z.of_nat (Embedding.num_embeddings emb))%Z)%bool;
    [left; now eexists | now right].
Qed.

Lemma token_lookup_cases (tok : Embedding.t) (idx : list (list Z)) :
  (exists t, mapM (mapM (Embedding.forward tok)) idx = Ok t)
  \/ mapM (mapM (Embedding.forward tok)) idx = Err IndexError.
Proof.
  apply mapM_error_only. intros row _.
  apply mapM_error_only. intros i _. apply Embedding_forward_cases.
Qed.

(** A batch whose sequences are longer than [block_size] makes the position
    lookup fail. *)
Lemma embed_too_long (n_pos : nat) (tok pos : Embedding.t) (idx : list (list Z)) :
  Embedding.num_embeddings pos = n_pos -> n_pos < shape1 idx ->
  embed tok pos idx = Err IndexError.
Proof.
  intros Hpos HT. unfold embed.
  destruct (token_lookup_cases tok idx) as [[t ->]| ->]; [|reflexivity].
  cbn [bind]. rewrite mapM_some_error with (e := IndexError); [reflexivity | |].
  - intros i _. apply Embedding_forward_cases.
  - apply Exists_exists. exists (Z.of_nat n_pos). split.
    + apply in_map. apply in_seq. lia.
    + unfold Embedding.forward. rewrite Hpos.
      destruct (0 <=? Z.of_nat n_pos)%Z; [|reflexivity].
      now rewrite Z.ltb_irrefl.
Qed.

(** An id outside [0, vocab_size) makes the token lookup fail. *)
Lemma embed_unknown_id (vocab_size : nat) (tok pos : Embedding.t) (idx : list (list Z)) :
  Embedding.num_embeddings tok = vocab_size ->
  Exists (Exists (fun i => ~ (0 <= i < Z.of_nat vocab_size)%Z)) idx ->
  embed tok pos idx = Err IndexError.
Proof.
  intros Htok Hex. unfold embed.
  rewrite mapM_some_error with (e := IndexError); [reflexivity | |].
  - intros row _. apply mapM_error_only. intros i _. apply Embedding_forward_cases.
  - eapply Exists_impl; [|exact Hex]. intros row Hrow. cbn beta.
    apply mapM_some_error; [intros i _; apply Embedding_forward_cases|].
    eapply Exists_impl; [|exact Hrow]. intros i Hi. cbn beta.
    unfold Embedding.forward. rewrite Htok.
    destruct (0 <=? i)%Z eqn:E1; [|reflexivity].
    destruct (i <? Z.of_nat vocab_size)%Z eqn:E2; [|reflexivity].
    apply Z.leb_le in E1. apply Z.ltb_lt in E2. exfalso. apply Hi. lia.
Qed.

(** Both models refuse a batch whose sequences are longer than [block_size]:
    the position table has [block_size] rows and the lookup of position
    [block_size] raises IndexError, whatever the token ids are. *)
Theorem sequences_longer_than_block_size_raise (idx : list (list Z)) :
  block_size < shape1 idx ->
  (forall vocab_size n_embd n_head n_layer n_hidden n_output e dev targets,
     Encoder.wf vocab_size n_embd n_head n_layer n_hidden n_output e ->
     Encoder.forward e idx dev targets = Err IndexError)
  /\ (forall vocab_size n_embd n_head n_layer d dev targets,
        Decoder.wf vocab_size n_embd n_head n_layer d ->
        Decoder.forward d idx dev targets = Err IndexError).
Proof.
  intros HT. split.
  - intros ? ? ? ? ? ? e dev targets (_ & (Hn & _) & _).
    unfold Encoder.forward, Encoder.features.
    now rewrite (embed_too_long block_size _ _ idx Hn HT).
  - intros ? ? ? ? d dev targets (_ & (Hn & _) & _).
    unfold Decoder.forward.
    now rewrite (embed_too_long block_size _ _ idx Hn HT).
Qed.

Lemma sequences_longer_than_block_size_raise_witness :
  Encoder.forward tiny_encoder [repeat 0%Z 33] cpu None = Err IndexError.
Proof.
  destruct (sequences_longer_than_block_size_raise [repeat 0%Z 33]) as [He _].
  - cbn [shape1]. rewrite repeat_length, block_size_eq. lia.
  - apply (He 2 1 1 1 1 2). apply tiny_encoder_wf.
Defined.

(** Both models refuse a batch that holds an id outside [0, vocab_size): the
    token lookup raises IndexError (also for a negative id). *)
Theorem unknown_token_id_raises (vocab_size : nat) (idx : list (list Z)) :
  Exists (Exists (fun i => ~ (0 <= i < Z.of_nat vocab_size)%Z)) idx ->
  (forall n_embd n_head n_layer n_hidden n_output e dev targets,
     Encoder.wf vocab_size n_embd n_head n_layer n_hidden n_output e ->
     Encoder.forward e idx dev targets = Err IndexError)
  /\ (forall n_embd n_head n_layer d dev targets,
        Decoder.wf vocab_size n_embd n_head n_layer d ->
        Decoder.forward d idx dev targets = Err IndexError).
Proof.
  intros Hex. split.
  - intros ? ? ? ? ? e dev targets ((Hn & _) & _).
    unfold Encoder.forward, Encoder.features.
    now rewrite (embed_unknown_id vocab_size _ _ idx Hn Hex).
  - intros ? ? ? d dev targets ((Hn & _) & _).
    unfold Decoder.forward.
    now rewrite (embed_unknown_id vocab_size _ _ idx Hn Hex).
Qed.

Lemma unknown_token_id_raises_witness :
  Encoder.forward tiny_encoder [[0; 2]%Z] cpu None = Err IndexError.
Proof.
  destruct (unknown_token_id_raises 2 [[0; 2]%Z]) as [He _].
  - constructor. apply Exists_cons_tl. constructor. lia.
  - apply (He 1 1 1 1 2). apply tiny_encoder_wf.
Defined.

(** ** Block.forward: the residual stream *)

(** A block, and a stack of blocks, keeps the shape (B, T, n_embd) of what
    it is given (causal blocks for T within [block_size]). *)
Theorem blocks_keep_the_shape (n_embd n_head B T : nat) (dec : bool)
    (blocks : list Block.t) (x : list (list (list R))) :
  Forall (Block.wf n_embd n_head dec) blocks ->
  1 <= n_head -> 1 <= n_embd -> n_embd mod n_head = 0 ->
  has_shape3 B T n_embd x -> (dec = true -> T <= block_size) ->
  Forall (fun blk => returns (Block.forward blk x) (has_shape3 B T n_embd)) blocks
  /\ returns (Sequential blocks x) (has_shape3 B T n_embd).
Proof.
  intros Hblocks Hh He Hmod Hx Hfit. split.
  - eapply Forall_impl; [|exact Hblocks]. intros blk Hblk.
    now apply Block_forward_returns with (n_head := n_head) (dec := dec).
  - now apply Sequential_returns with (n_head := n_head) (dec := dec).
Qed.

Lemma blocks_keep_the_shape_witness :
  returns (Sequential [tiny_block true; tiny_block true] [[[1%R]; [2%R]]])
          (has_shape3 1 2 1).
Proof.
  apply (blocks_keep_the_shape 1 1 1 2 true [tiny_block true; tiny_block true]
           [[[1%R]; [2%R]]]); try lia; try reflexivity.
  - repeat constructor; apply tiny_block_wf.
  - repeat split; repeat constructor.
  - intros _. apply two_le_block_size.
Defined.

(** When [n_head] does not divide [n_embd], the heads give
    [n_head * (n_embd // n_head)] features, fewer than [n_embd], and the
    first residual sum of a block raises. *)
Theorem block_needs_divisible_width (n_embd n_head B T : nat) (dec : bool)
    (blk : Block.t) (x : list (list (list R))) :
  Block.wf n_embd n_head dec blk ->
  1 <= n_head <= n_embd -> n_embd mod n_head <> 0 ->
  has_shape3 B T n_embd x -> 1 <= B -> 1 <= T -> (dec = true -> T <= block_size) ->
  Block.forward blk x = Err RuntimeError.
Proof.
  intros (Hsa & Hdecs & _ & Hln1 & _) [Hh Hle] Hmod Hx HB HT Hfit.
  pose proof (Nat.div_mod_eq n_embd n_head) as Hdm.
  pose proof (Nat.mod_upper_bound n_embd n_head ltac:(lia)) as Hub.
  assert (1 <= n_embd / n_head) as Hhs.
  { destruct (n_embd / n_head) eqn:E; [|lia]. rewrite Nat.mul_0_r in Hdm. lia. }
  assert (n_head <> 1) as Hh1.
  { intros ->. rewrite Nat.mod_1_r in Hmod. congruence. }
  unfold Block.forward.
  destruct (LayerNorm_forward3_returns n_embd B T _ x Hln1 Hx) as [a [-> Ha]].
  cbn [bind].
  destruct (MultiHeadAttention_forward_value n_embd n_head (n_embd / n_head) B T _ a
              Hsa Hh Hhs Ha) as (outs & s0 & _ & _ & _ & -> & Hs0 & _).
  { intros h Hin Hd. apply Hfit. eapply Forall_forall in Hdecs; [|exact Hin].
    cbn beta in Hdecs. congruence. }
  cbn [bind].
  destruct Hx as [Hxl Hxs]. destruct Hs0 as [Hsl Hss].
  destruct x as [|xm x]; [cbn in Hxl; lia|].
  destruct s0 as [|sm s0]; [cbn in Hsl; lia|].
  destruct (Forall_inv Hxs) as [Hxml Hxmr].
  destruct (Forall_inv Hss) as [Hsml Hsmr].
  destruct xm as [|xr xm]; [cbn in Hxml; lia|].
  destruct sm as [|sr sm]; [cbn in Hsml; lia|].
  pose proof (Forall_inv Hxmr) as Hxr. pose proof (Forall_inv Hsmr) as Hsr.
  cbn beta in Hxr, Hsr.
  unfold add3, zipM. cbn [combine mapM fst snd].
  unfold add_vec at 1. rewrite Hxr, Hsr. unfold broadcast.
  set (p := n_head * (n_embd / n_head)) in *.
  destruct (n_embd =? p) eqn:E1; [apply Nat.eqb_eq in E1; lia|].
  destruct (n_embd =? 1) eqn:E2; [apply Nat.eqb_eq in E2; nia|].
  destruct (p =? 1) eqn:E3; [apply Nat.eqb_eq in E3; nia|].
  reflexivity.
Qed.

Lemma block_needs_divisible_width_witness :
  Block.forward
    (Block.mk (MultiHeadAttention.mk
                 [Head.mk (tiny_linear 3 1 false) (tiny_linear 3 1 false)
                          (tiny_linear 3 1 false) (tril_ones block_size) false;
                  Head.mk (tiny_linear 3 1 false) (tiny_linear 3 1 false)
                          (tiny_linear 3 1 false) (tril_ones block_size) false]
                 (tiny_linear 2 3 true))
              (FeedFoward.mk (tiny_linear 3 12 true) (tiny_linear 12 3 true))
              (LayerNorm.mk 3 [1; 1; 1]%R [0; 0; 0]%R)
              (LayerNorm.mk 3 [1; 1; 1]%R [0; 0; 0]%R))
    [[[1; 2; 3]%R]]
  = Err RuntimeError.
Proof.
  apply (block_needs_divisible_width 3 2 1 1 false); try lia; try discriminate.
  - split; [|split; [|split; [|split]]].
    + split; [reflexivity|]. split; [|apply tiny_linear_wf].
      repeat constructor; apply tiny_linear_wf.
    + repeat constructor.
    + split; apply tiny_linear_wf.
    + repeat split.
    + repeat split.
  - repeat split; repeat constructor.
Defined.

(** ** Decoder.forward *)


Lemma concat_rows {A : Type} (b r c : nat) (t : list (list (list A))) :
  has_shape3 b r c t -> has_shape2 (b * r) c (concat t).
Proof.
  intros [Hl Ht]. subst b. induction Ht as [|m t [Hml Hmr] _ [IHl IHr]].
  - split; [reflexivity | constructor].
  - cbn [concat length]. split.
    + rewrite length_app, IHl, Hml. lia.
    + apply Forall_app. now split.
Qed.

(** The logits of a valid batch. *)
Lemma Decoder_logits_return (vocab_size n_embd n_head n_layer B T : nat)
    (d : Decoder.t) (idx : list (list Z)) :
  Decoder.wf vocab_size n_embd n_head n_layer d ->
  1 <= n_head -> 1 <= n_embd -> n_embd mod n_head = 0 ->
  has_shape2 B T idx -> T <= block_size ->
  Forall (Forall (fun i => (0 <= i < Z.of_nat vocab_size)%Z)) idx ->
  returns
    (let* x := embed (Decoder.token_embedding_table d)
                     (Decoder.position_embedding_table d) idx in
     let* x := Sequential (Decoder.blocks d) x in
     let* x := LayerNorm.forward3 (Decoder.ln_f d) x in
     Linear.forward3 (Decoder.lm_head d) x)
    (has_shape3 B T vocab_size).
Proof.
  intros (Htok & Hpos & _ & Hblocks & Hln & Hlm) Hh He Hmod Hidx HT Hids.
  eapply returns_bind;
    [exact (embed_returns vocab_size n_embd B T _ _ idx Htok Hpos Hidx HT Hids)|].
  cbn beta. intros x0 Hx0.
  eapply returns_bind;
    [exact (Sequential_returns n_embd n_head B T true _ x0 Hblocks Hh He Hmod Hx0
              (fun _ => HT))|].
  cbn beta. intros x1 Hx1.
  eapply returns_bind; [exact (LayerNorm_forward3_returns n_embd B T _ x1 Hln Hx1)|].
  cbn beta. intros x2 Hx2.
  exact (Linear_forward3_returns n_embd vocab_size _ B T x2 Hlm Hx2).
Qed.

(** Without targets, a decoder built by [__init__] maps a batch of shape
    (B, T), T <= block_size, of ids below vocab_size to logits of shape
    (B, T, vocab_size) and no loss. *)
Theorem decoder_forward_logits (vocab_size n_embd n_head n_layer B T : nat)
    (d : Decoder.t) (idx : list (list Z)) (dev : device) :
  Decoder.wf vocab_size n_embd n_head n_layer d ->
  1 <= n_head -> 1 <= n_embd -> n_embd mod n_head = 0 ->
  has_shape2 B T idx -> T <= block_size ->
  Forall (Forall (fun i => (0 <= i < Z.of_nat vocab_size)%Z)) idx ->
  exists lg,
    Decoder.forward d idx dev None = Ok (Logits3 lg, None)
    /\ has_shape3 B T vocab_size lg.
Proof.
  intros Hwf Hh He Hmod Hidx HT Hids.
  destruct (Decoder_logits_return vocab_size n_embd n_head n_layer B T d idx
              Hwf Hh He Hmod Hidx HT Hids) as [lg [Hlg Hsh]].
  exists lg. split; [|assumption]. unfold Decoder.forward.
  cbn zeta in Hlg.
  destruct (embed _ _ idx) as [x0|]; [|discriminate]. cbn [bind] in *.
  destruct (Sequential _ x0) as [x1|]; [|discriminate]. cbn [bind] in *.
  destruct (LayerNorm.forward3 _ x1) as [x2|]; [|discriminate]. cbn [bind] in *.
  now rewrite Hlg.
Qed.

Lemma tiny_decoder_wf : Decoder.wf 2 1 1 1 tiny_decoder.
Proof.
  unfold Decoder.wf, tiny_decoder.
  cbn [Decoder.token_embedding_table Decoder.position_embedding_table Decoder.blocks
       Decoder.ln_f Decoder.lm_head].
  split; [repeat split; repeat constructor|].
  split; [split; [reflexivity|]; split; [reflexivity|];
          split; [apply repeat_length | apply Forall_repeat; reflexivity]|].
  split; [reflexivity|].
  split; [repeat constructor; apply tiny_block_wf|].
  split; [repeat split | apply tiny_linear_wf].
Qed.

Lemma decoder_forward_logits_witness :
  exists lg,
    Decoder.forward tiny_decoder [[0; 1]; [1; 1]]%Z cpu None = Ok (Logits3 lg, None)
    /\ has_shape3 2 2 2 lg.
Proof.
  apply (decoder_forward_logits 2 1 1 1 2 2 tiny_decoder [[0; 1]; [1; 1]]%Z cpu
           tiny_decoder_wf (le_n 1) (le_n 1) eq_refl).
  - repeat split; repeat constructor.
  - apply two_le_block_size.
  - repeat constructor; lia.
Defined.

Lemma nll_cases (row : list R) (target : Z) :
  (exists v, nll row target = Ok v) \/ nll row target = Err IndexError.
Proof.
  unfold nll.
  destruct ((0 <=? target)%Z && (target <? Z.of_nat (length row))%Z)%bool;
    [left; now eexists | now right].
Qed.




(** What goes wrong with the targets of a valid batch: a number of target
    ids other than B*T makes [targets.view(B*T)] raise RuntimeError, and,
    the number being right, a target id outside [0, vocab_size) makes the
    loss raise IndexError (the id -100, which torch skips as its
    [ignore_index], is left aside). *)
Theorem decoder_forward_target_errors (vocab_size n_embd n_head n_layer B T : nat)
    (d : Decoder.t) (idx targets : list (list Z)) (dev : device) :
  Decoder.wf vocab_size n_embd n_head n_layer d ->
  1 <= n_head -> 1 <= n_embd -> n_embd mod n_head = 0 ->
  has_shape2 B T idx -> T <= block_size ->
  Forall (Forall (fun i => (0 <= i < Z.of_nat vocab_size)%Z)) idx ->
  (length (concat targets) <> B * T ->
   Decoder.forward d idx dev (Some targets) = Err RuntimeError)
  /\ (length (concat targets) = B * T ->
      Exists (fun i => ~ (0 <= i < Z.of_nat vocab_size)%Z /\ i <> (-100)%Z)
             (concat targets) ->
      Decoder.forward d idx dev (Some targets) = Err IndexError).
Proof.
  intros Hwf Hh He Hmod Hidx HT Hids.
  destruct (Decoder_logits_return vocab_size n_embd n_head n_layer B T d idx
              Hwf Hh He Hmod Hidx HT Hids) as [lg [Hlg Hsh]].
  pose proof (concat_rows B T vocab_size lg Hsh) as [Hcl Hcr].
  assert (HBT : length lg * shape1 lg = B * T).
  { destruct Hsh as [Hll Hls]. rewrite Hll. destruct B as [|B']; [reflexivity|].
    now rewrite (has_shape3_shape1 (S B') T vocab_size lg (conj Hll Hls)) by lia. }
  assert (Hfw : Decoder.forward d idx dev (Some targets)
            = let* tg := view_flat targets (length lg * shape1 lg) in
              let* loss := cross_entropy (concat lg) tg in
              Ok (Logits2 (concat lg), Some loss)).
  { unfold Decoder.forward. cbn zeta in Hlg.
    destruct (embed _ _ idx) as [x0|]; [|discriminate]. cbn [bind] in *.
    destruct (Sequential _ x0) as [x1|]; [|discriminate]. cbn [bind] in *.
    destruct (LayerNorm.forward3 _ x1) as [x2|]; [|discriminate]. cbn [bind] in *.
    now rewrite Hlg. }
  rewrite Hfw, HBT. unfold view_flat. split.
  - intros Hne. destruct (length (concat targets) =? B * T) eqn:E;
      [apply Nat.eqb_eq in E; contradiction | reflexivity].
  - intros Heq Hex. rewrite Heq, Nat.eqb_refl. cbn [bind].
    unfold cross_entropy. rewrite Hcl, Heq, Nat.eqb_refl.
    unfold zipM. rewrite mapM_some_error with (e := IndexError); [reflexivity | |].
    + intros [row t] _. cbn [fst snd]. apply nll_cases.
    + assert (Hgen : forall (rows : list (list R)) (ts : list Z),
                length rows = length ts ->
                Forall (fun row => length row = vocab_size) rows ->
                Exists (fun i => ~ (0 <= i < Z.of_nat vocab_size)%Z /\ i <> (-100)%Z) ts ->
                Exists (fun p => nll (fst p) (snd p) = Err IndexError) (combine rows ts)).
      { intros rows ts Hlen Hrows Hts. revert rows Hlen Hrows.
        induction Hts as [t ts [Ht _]|t ts _ IH]; intros [|row rows] Hlen Hrows;
          try discriminate; cbn [combine].
        - left. cbn [fst snd]. unfold nll. rewrite (Forall_inv Hrows).
          destruct (0 <=? t)%Z eqn:E1; [|reflexivity].
          destruct (t <? Z.of_nat vocab_size)%Z eqn:E2; [|reflexivity].
          apply Z.leb_le in E1. apply Z.ltb_lt in E2. exfalso. apply Ht. lia.
        - right. apply IH; [now injection Hlen | now inversion Hrows]. }
      apply Hgen; [congruence | assumption | assumption].
Qed.

Lemma decoder_forward_target_errors_witness :
  Decoder.forward tiny_decoder [[0; 1]]%Z cpu (Some [[1]]%Z) = Err RuntimeError.
Proof.
  destruct (decoder_forward_target_errors 2 1 1 1 1 2 tiny_decoder [[0; 1]]%Z [[1]]%Z cpu
              tiny_decoder_wf (le_n 1) (le_n 1) eq_refl) as [Hcount _].
  - repeat split; repeat constructor.
  - apply two_le_block_size.
  - repeat constructor; lia.
  - apply Hcount. cbn. lia.
Defined.

(** ** load_texts *)

Lemma prefix_spec (a s : string) :
  String.prefix a s = true <-> exists post, s = (a ++ post)%string.
Proof.
  revert s. induction a as [|c a IH]; intros s.
  - destruct s; cbn; split; intros; try reflexivity; now eexists.
  - destruct s as [|b s]; cbn.
    + split; [discriminate | intros [post Hp]; discriminate].
    + destruct (Ascii.ascii_dec c b) as [->|Hne].
      * rewrite IH. split; intros [post Hp]; exists post; [now rewrite Hp | now injection Hp].
      * split; [discriminate|]. intros [post Hp]. injection Hp as Hc _. congruence.
Qed.

(** [contains] is the substring test. *)
Lemma contains_spec (needle s : string) :
  contains needle s = true
  <-> exists pre post, s = (pre ++ needle ++ post)%string.
Proof.
  split.
  - induction s as [|c s IH]; cbn [contains].
    + destruct (String.prefix needle "") eqn:E; [|discriminate].
      intros _. apply prefix_spec in E as [post Hp]. now exists ""%string, post.
    + destruct (String.prefix needle (String c s)) eqn:E.
      * intros _. apply prefix_spec in E as [post Hp]. now exists ""%string, post.
      * intros Hc. destruct (IH Hc) as [pre [post Hp]].
        exists (String c pre), post. cbn. now rewrite Hp.
  - intros [pre [post Hp]]. subst s. induction pre as [|c pre IH].
    + cbn [String.append].
      assert (String.prefix needle (needle ++ post) = true) as E
          by (apply prefix_spec; now exists post).
      destruct (needle ++ post)%string; cbn [contains]; now rewrite E.
    + cbn [String.append contains].
      destruct (String.prefix needle (String c (pre ++ needle ++ post))); [reflexivity|].
      exact IH.
Qed.

Lemma read_texts_opened (files : list (string * file_entry)) (texts : list string) :
  read_texts files texts = read_texts (opened files) texts.
Proof.
  revert texts. induction files as [|[name f] files IH]; intros texts; [reflexivity|].
  unfold opened. cbn [read_texts filter fst].
  destruct (contains "test" name) eqn:E; cbn [negb].
  - apply IH.
  - cbn [read_texts]. rewrite E. destruct f as [content|e]; [apply IH | reflexivity].
Qed.

Lemma read_texts_all_text (files : list (string * file_entry)) (texts : list string) :
  Forall (fun f => exists content, snd f = Text content) (opened files) ->
  read_texts files texts = Done (texts ++ texts_of (opened files)).
Proof.
  revert texts. induction files as [|[name f] files IH]; intros texts Hall.
  - cbn. now rewrite app_nil_r.
  - unfold opened in *. cbn [read_texts filter fst] in *.
    destruct (contains "test" name) eqn:E; cbn [negb] in *.
    + now apply IH.
    + inversion Hall as [|? ? [content Hc] Hrest]; subst. cbn [snd] in Hc. subst f.
      rewrite IH by assumption. unfold texts_of. cbn [flat_map snd].
      now rewrite <- app_assoc.
Qed.

Lemma read_texts_first_unreadable (before after : list (string * file_entry))
    (name : string) (e : os_error) (texts : list string) :
  Forall (fun f => exists content, snd f = Text content) (opened before) ->
  contains "test" name = false ->
  read_texts (before ++ (name, Unreadable e) :: after) texts = Raised e.
Proof.
  revert texts. induction before as [|[n f] before IH]; intros texts Hall Hname.
  - cbn [app read_texts]. now rewrite Hname.
  - unfold opened in *. cbn [app read_texts filter fst] in *.
    destruct (contains "test" n) eqn:E; cbn [negb] in *.
    + now apply IH.
    + inversion Hall as [|? ? [content Hc] Hrest]; subst. cbn [snd] in Hc. subst f.
      now apply IH.
Qed.

(** [load_texts] never opens a file whose name has "test" somewhere in it
    (at the start, in the middle or at the end): such entries can be removed
    from the directory, readable or not, without changing the result.  When
    the other files are all readable, their texts are returned in the order
    of the listing; otherwise the error of the first that is not readable is
    raised. *)
Theorem load_texts_skips_test_files (files : list (string * file_entry)) :
  (forall name, contains "test" name = true
                <-> exists pre post, name = (pre ++ "test" ++ post)%string)
  /\ load_texts (Done files) = load_texts (Done (opened files))
  /\ (Forall (fun f => exists content, snd f = Text content) (opened files) ->
      load_texts (Done files) = Done (texts_of (opened files)))
  /\ (forall before name e after,
        files = before ++ (name, Unreadable e) :: after ->
        Forall (fun f => exists content, snd f = Text content) (opened before) ->
        contains "test" name = false ->
        load_texts (Done files) = Raised e).
Proof.
  split; [intros name; apply contains_spec|].
  split; [apply read_texts_opened|].
  split.
  - intros Hall. unfold load_texts. now rewrite read_texts_all_text.
  - intros before name e after -> Hall Hname. unfold load_texts.
    now apply read_texts_first_unreadable.
Qed.

(** ** The causal head does not look ahead *)

Lemma mapM_nth {A B : Type} (f : A -> result B) (l : list A) (ys : list B)
    (n : nat) (d : A) (d' : B) :
  mapM f l = Ok ys -> n < length l -> f (nth n l d) = Ok (nth n ys d').
Proof.
  revert ys n. induction l as [|a l IH]; intros ys n; [cbn; lia|].
  cbn [mapM]. destruct (f a) as [y|] eqn:Hy; [|discriminate]. cbn [bind].
  destruct (mapM f l) as [ys'|] eqn:Hys; [|discriminate]. cbn [bind].
  intros [= <-] Hn. destruct n as [|n]; [exact Hy|].
  cbn [nth]. apply IH; [reflexivity | cbn in Hn; lia].
Qed.


(** A function mapped over the rows: the row at (b, t) of the result is the
    function on the row at (b, t). *)
Lemma rows_nth {A B : Type} (f : list A -> result (list B)) (B0 T c : nat)
    (x : list (list (list A))) (y : list (list (list B))) (b t : nat) :
  mapM (mapM f) x = Ok y -> has_shape3 B0 T c x -> b < B0 -> t < T ->
  f (nth t (nth b x []) []) = Ok (nth t (nth b y []) []).
Proof.
  intros Hy [Hl Hx] Hb Ht.
  pose proof (mapM_nth (mapM f) x y b [] [] Hy ltac:(lia)) as Hb'.
  apply (mapM_nth f _ _ t [] [] Hb').
  pose proof (Forall_nth_in _ x [] b Hx ltac:(lia)) as [Hr _]. lia.
Qed.

Lemma rows_agree {A B : Type} (f : list A -> result (list B)) (B0 T c : nat)
    (x x' : list (list (list A))) (y y' : list (list (list B))) (b i : nat) :
  mapM (mapM f) x = Ok y -> mapM (mapM f) x' = Ok y' ->
  has_shape3 B0 T c x -> has_shape3 B0 T c x' -> b < B0 -> i < T ->
  agree_upto b i x x' -> agree_upto b i y y'.
Proof.
  intros Hy Hy' Hx Hx' Hb Hi Hag t Ht.
  pose proof (rows_nth f B0 T c x y b t Hy Hx Hb ltac:(lia)) as H1.
  pose proof (rows_nth f B0 T c x' y' b t Hy' Hx' Hb ltac:(lia)) as H2.
  rewrite (Hag t Ht) in H1. congruence.
Qed.

Lemma dot_agree (w u u' : list R) :
  length u = length u' ->
  (forall j, j < length u -> nth j w 0%R = 0%R \/ nth j u 0%R = nth j u' 0%R) ->
  dot w u = dot w u'.
Proof.
  revert u u'. induction w as [|a w IH]; intros u u' Hlen Hj.
  - reflexivity.
  - destruct u as [|b u], u' as [|b' u']; try discriminate; [reflexivity|].
    unfold dot in *. cbn [map2]. rewrite !sum_cons.
    rewrite (IH u u'); [| now injection Hlen |].
    + destruct (Hj 0 ltac:(cbn; lia)) as [Ha|Hb]; cbn [nth] in *; subst; lra.
    + intros j Hjl. apply (Hj (S j)). cbn [length]. lia.
Qed.

(** The value of [Head.forward] for a causal head, within [block_size]. *)
Lemma Head_forward_value (n_embd hs b T : nat) (h : Head.t) (x : list (list (list R))) :
  Head.wf n_embd hs h -> 1 <= hs -> Head.decoding h = true ->
  has_shape3 b T n_embd x -> shape1 x = T -> T <= block_size ->
  exists k q v,
    Linear.forward3 (Head.key h) x = Ok k
    /\ Linear.forward3 (Head.query h) x = Ok q
    /\ Linear.forward3 (Head.value h) x = Ok v
    /\ has_shape3 b T hs k /\ has_shape3 b T hs q /\ has_shape3 b T hs v
    /\ Head.forward h x
       = Ok (map2 matmul
               (map (map softmax)
                  (map (fun wb => map2 (map2 (fill NegInf)) wb (future T))
                     (map2 (fun qb kb =>
                              map (map (fun a => Fin (a * / sqrt (INR hs))%R))
                                  (matmul_nt qb kb)) q k)))
               v).
Proof.
  intros Hwf Hhs Hdec Hx HT Hfit.
  pose proof Hwf as (Hk & _ & Hq & _ & Hv & _ & _).
  destruct (Linear_forward3_returns n_embd hs _ b T x Hk Hx) as [k [Hkx Hks]].
  destruct (Linear_forward3_returns n_embd hs _ b T x Hq Hx) as [q [Hqx Hqs]].
  destruct (Linear_forward3_returns n_embd hs _ b T x Hv Hx) as [v [Hvx Hvs]].
  exists k, q, v. repeat (split; [assumption|]).
  unfold Head.forward, Head.attention. rewrite HT, Hkx, Hqx, Hdec. cbn [bind].
  destruct Hk as (_ & -> & _). destruct hs as [|hs']; [lia|]. cbn [pow_neg_half bind].
  destruct (affinities_shape b T (S hs') q k (/ sqrt (INR (S hs')))%R Hqs Hks) as [Hsh _].
  rewrite (masked_fill_causal n_embd (S hs') h T _ NegInf Hwf Hfit (proj2 Hsh)).
  cbn [bind]. now rewrite Hvx.
Qed.

(** Row [i] of example [b] of that value. *)
Lemma Head_forward_row (hs B T : nat) (k q v : list (list (list R))) (scale : R) (b i : nat) :
  has_shape3 B T hs k -> has_shape3 B T hs q -> has_shape3 B T hs v ->
  b < B -> i < T ->
  nth i (nth b (map2 matmul
                  (map (map softmax)
                     (map (fun wb => map2 (map2 (fill NegInf)) wb (future T))
                        (map2 (fun qb kb =>
                                 map (map (fun a => Fin (a * scale)%R)) (matmul_nt qb kb))
                              q k)))
                  v) []) []
  = map (fun c =>
           dot (softmax (map2 (fill NegInf)
                           (map (fun kj => Fin (dot (nth i (nth b q []) []) kj * scale)%R)
                                (nth b k []))
                           (map (fun j => negb (j <=? i)) (seq 0 T))))
               (map (fun r => nth c r 0%R) (nth b v [])))
        (seq 0 hs).
Proof.
  intros Hks Hqs Hvs Hb Hi.
  destruct (affinities_shape B T hs q k scale Hqs Hks) as [Hraw _].
  pose proof (masked_shape B T _ NegInf Hraw) as Hm.
  pose proof (softmax_shape B T _ Hm) as Hw.
  destruct Hks as [Hkl Hk]. destruct Hqs as [Hql Hq]. destruct Hvs as [Hvl Hv].
  pose proof (Forall_nth_in _ q [] b Hq ltac:(lia)) as [Hqbl _].
  pose proof (Forall_nth_in _ k [] b Hk ltac:(lia)) as [Hkbl _].
  pose proof (Forall_nth_in _ v [] b Hv ltac:(lia)) as Hvb.
  pose proof (has_shape2_shape1 T hs _ Hvb ltac:(lia)) as Hs1.
  destruct (future_shape T) as [Hfl _].
  destruct Hw as [Hwl Hwr].
  pose proof (Forall_nth_in _ _ [] b Hwr ltac:(lia)) as [Hwbl _].
  rewrite nth_map2_in with (d1 := []) (d2 := []) by lia.
  unfold matmul at 1. rewrite nth_map_in with (d' := []) by lia.
  unfold columns. rewrite Hs1, map_map.
  apply map_ext. intros c. f_equal.
  rewrite (softmax_row_of B T _ b i Hm Hb Hi). f_equal.
  rewrite nth_map_in with (d' := []) by (destruct Hraw as [Hrl _]; lia).
  assert (Hrawb :
    nth b (map2 (fun qb kb => map (map (fun a => Fin (a * scale)%R)) (matmul_nt qb kb))
                q k) []
    = map (map (fun a => Fin (a * scale)%R)) (matmul_nt (nth b q []) (nth b k [])))
    by (rewrite nth_map2_in with (d1 := []) (d2 := []) by lia; reflexivity).
  rewrite Hrawb.
  assert (length (map (map (fun a => Fin (a * scale)%R))
                      (matmul_nt (nth b q []) (nth b k []))) = T) as Hlr
      by (unfold matmul_nt; now rewrite !length_map).
  rewrite nth_map2_in with (d1 := []) (d2 := []) by lia.
  f_equal.
  - rewrite nth_map_in with (d' := []) by (unfold matmul_nt; rewrite length_map; lia).
    unfold matmul_nt. rewrite nth_map_in with (d' := []) by lia.
    now rewrite map_map.
  - unfold future. rewrite nth_map_in with (d' := 0) by (rewrite length_seq; lia).
    now rewrite seq_nth by lia.
Qed.

Lemma masked_affinities_nth (T i j : nat) (qi : list R) (kb : list (list R)) (scale : R) :
  length kb = T -> j < T ->
  nth j (map2 (fill NegInf)
           (map (fun kj => Fin (dot qi kj * scale)%R) kb)
           (map (fun j => negb (j <=? i)) (seq 0 T))) NegInf
  = if j <=? i then Fin (dot qi (nth j kb []) * scale)%R else NegInf.
Proof.
  intros Hkb Hj.
  rewrite nth_map2_in with (d1 := NegInf) (d2 := false)
    by (rewrite ?length_map, ?length_seq; lia).
  rewrite nth_map_in with (d' := []) by lia.
  rewrite nth_map_in with (d' := 0) by (rewrite length_seq; lia).
  rewrite seq_nth by lia. cbn [Nat.add].
  now destruct (j <=? i).
Qed.

(** The core: the output of a causal head at position [i] only depends on
    the input up to position [i]. *)
Lemma Head_forward_agree (n_embd hs B T : nat) (h : Head.t)
    (x x' out out' : list (list (list R))) (b i : nat) :
  Head.wf n_embd hs h -> 1 <= hs -> Head.decoding h = true ->
  has_shape3 B T n_embd x -> has_shape3 B T n_embd x' -> T <= block_size ->
  Head.forward h x = Ok out -> Head.forward h x' = Ok out' ->
  b < B -> i < T ->
  agree_upto b i x x' -> agree_upto b i out out'.
Proof.
  intros Hwf Hhs Hdec Hx Hx' Hfit Hout Hout' Hb Hi Hag t Ht.
  pose proof (has_shape3_shape1 B T n_embd x Hx ltac:(lia)) as Hs1.
  pose proof (has_shape3_shape1 B T n_embd x' Hx' ltac:(lia)) as Hs1'.
  destruct (Head_forward_value n_embd hs B T h x Hwf Hhs Hdec Hx Hs1 Hfit)
    as (k & q & v & Hk & Hq & Hv & Hks & Hqs & Hvs & Hval).
  destruct (Head_forward_value n_embd hs B T h x' Hwf Hhs Hdec Hx' Hs1' Hfit)
    as (k' & q' & v' & Hk' & Hq' & Hv' & Hks' & Hqs' & Hvs' & Hval').
  rewrite Hval in Hout. injection Hout as <-.
  rewrite Hval' in Hout'. injection Hout' as <-.
  rewrite (Head_forward_row hs B T k q v _ b t Hks Hqs Hvs Hb ltac:(lia)).
  rewrite (Head_forward_row hs B T k' q' v' _ b t Hks' Hqs' Hvs' Hb ltac:(lia)).
  assert (Hagt : agree_upto b t x x') by (intros u Hu; apply Hag; lia).
  pose proof (rows_agree _ B T n_embd x x' q q' b t Hq Hq' Hx Hx' Hb ltac:(lia) Hagt) as Hqa.
  pose proof (rows_agree _ B T n_embd x x' k k' b t Hk Hk' Hx Hx' Hb ltac:(lia) Hagt) as Hka.
  pose proof (rows_agree _ B T n_embd x x' v v' b t Hv Hv' Hx Hx' Hb ltac:(lia) Hagt) as Hva.
  rewrite <- (Hqa t (le_n t)).
  destruct Hks as [Hkl Hks]. destruct Hks' as [Hkl' Hks'].
  destruct Hvs as [Hvl Hvs]. destruct Hvs' as [Hvl' Hvs'].
  pose proof (Forall_nth_in _ k [] b Hks ltac:(lia)) as [Hkb _].
  pose proof (Forall_nth_in _ k' [] b Hks' ltac:(lia)) as [Hkb' _].
  pose proof (Forall_nth_in _ v [] b Hvs ltac:(lia)) as [Hvb _].
  pose proof (Forall_nth_in _ v' [] b Hvs' ltac:(lia)) as [Hvb' _].
  set (s := (/ sqrt (INR hs))%R).
  set (qt := nth t (nth b q []) []).
  assert (Hrow :
    map2 (fill NegInf) (map (fun kj => Fin (dot qt kj * s)%R) (nth b k' []))
         (map (fun j => negb (j <=? t)) (seq 0 T))
    = map2 (fill NegInf) (map (fun kj => Fin (dot qt kj * s)%R) (nth b k []))
           (map (fun j => negb (j <=? t)) (seq 0 T))).
  { apply nth_ext with (d := NegInf) (d' := NegInf).
    - rewrite !map2_length, !length_map, length_seq. lia.
    - intros j Hj. rewrite map2_length, !length_map, length_seq in Hj.
      rewrite !masked_affinities_nth by lia.
      destruct (Nat.leb_spec j t) as [Hjt|_]; [|reflexivity].
      now rewrite (Hka j Hjt). }
  rewrite Hrow.
  set (row := map2 (fill NegInf)
                (map (fun kj => Fin (dot qt kj * s)%R) (nth b k []))
                (map (fun j => negb (j <=? t)) (seq 0 T))).
  assert (Hrlen : length row = T).
  { unfold row. rewrite map2_length, !length_map, length_seq. lia. }
  apply map_ext. intros c.
  apply dot_agree; [rewrite !length_map; lia|].
  intros j Hj. rewrite length_map in Hj.
  destruct (Nat.leb_spec j t) as [Hjt|Hjt].
  - right. rewrite !nth_map_in with (d' := []) by lia. now rewrite (Hva j Hjt).
  - left. destruct (softmax_entry row j) as [Hzero _]; [lia|].
    apply Hzero. unfold row. rewrite masked_affinities_nth by lia.
    destruct (Nat.leb_spec j t); [lia | reflexivity].
Qed.



(** ** The decoder does not look ahead *)







Lemma causal_head (n_embd hs B T : nat) (h : Head.t) :
  Head.wf n_embd hs h -> 1 <= hs -> Head.decoding h = true -> T <= block_size ->
  causal_on B T n_embd hs (Head.forward h).
Proof.
  intros Hwf Hhs Hdec Hfit. split.
  - intros x Hx. now apply Head_forward_shape with (n_embd := n_embd).
  - intros x x' y y' b i Hx Hx' Hy Hy' Hb Hi Hag.
    now apply (Head_forward_agree n_embd hs B T h x x' y y' b i).
Qed.










(** ** float32: the rows of the attention weights *)

Lemma normalizable_or_not (l : list F32.t) :
  F32.normalizable l \/ ~ F32.normalizable l.
Proof.
  destruct (row_cases l) as [H|[H|H]].
  - right. intros [Hall _]. rewrite Forall_forall in Hall. now destruct (Hall _ H).
  - right. intros [Hall _]. rewrite Forall_forall in Hall. now destruct (Hall _ H).
  - destruct (maximum_cases l H) as [[_ Hn]|[mu [_ [_ Hin]]]].
    + right. intros [_ Hex]. apply Exists_exists in Hex. destruct Hex as [x [Hx [r ->]]].
      rewrite Forall_forall in Hn. specialize (Hn _ Hx). discriminate.
    + left. split; [exact H|]. apply Exists_exists. exists (F32.Fin mu). split; [exact Hin|].
      now exists mu.
Qed.

(** One softmax row, by cases. *)
Lemma softmax_row_cases (l : list F32.t) :
  (F32.normalizable l ->
   exists ws, F32.softmax l = map F32.Fin ws
     /\ length ws = length l
     /\ Forall (fun w => (0 <= w <= 1)%R) ws
     /\ ((Z.of_nat (length l) <= 2 ^ 24)%Z ->
         (Rabs (sum ws - 1) <= F32.softmax_tolerance (length l))%R))
  /\ (~ F32.normalizable l -> F32.softmax l = repeat F32.NaN (length l)).
Proof.
  split.
  - intros Hn. destruct (softmax_normalizable l Hn) as [ws [E [Hu [Hz Htol]]]].
    exists ws. split; [exact E|]. split; [symmetry; exact (Forall2_length Hz)|].
    now split.
  - intros Hn. rewrite <- (f32_softmax_length l).
    apply Forall_eq_repeat. now apply softmax_not_normalizable.
Qed.

(** In both modes and whatever the scores are, every row of the attention
    weights has T entries and is the softmax of what the position sees of its
    scores (all of them, or those up to itself in a causal head): numbers
    between 0 and 1 whose sum is 1 up to the rounding of the float operations
    when these scores can be normalized, NaN throughout otherwise. *)
Theorem attention_rows_are_distributions (n_embd hs B T : nat) (h : Head.t)
    (x : list (list (list F32.t))) :
  Head.wf n_embd hs h -> 1 <= hs ->
  has_shape3 B T n_embd x ->
  (Head.decoding h = true -> T <= block_size) ->
  (exists scores wei,
     F32.Head.scores h x = Ok scores
     /\ has_shape3 B T T scores
     /\ F32.Head.weights h T scores = Ok wei
     /\ F32.Head.attention h x = Ok wei)
  /\ (forall scores : list (list (list F32.t)), has_shape3 B T T scores ->
      exists wei,
        F32.Head.weights h T scores = Ok wei
        /\ forall b i, b < B -> i < T ->
             let row := nth i (nth b scores []) [] in
             let seen := if Head.decoding h then firstn (S i) row else row in
             (F32.normalizable seen ->
              exists ws, nth i (nth b wei []) [] = map F32.Fin ws
                /\ length ws = T
                /\ Forall (fun w => (0 <= w <= 1)%R) ws
                /\ ((Z.of_nat T <= 2 ^ 24)%Z ->
                    (Rabs (sum ws - 1) <= F32.softmax_tolerance T)%R))
             /\ (~ F32.normalizable seen ->
                 nth i (nth b wei []) [] = repeat F32.NaN T)).
Proof.
  intros Hwf Hhs Hx HT. split.
  - destruct (f32_Head_forward_stages n_embd hs B T h x Hwf Hhs Hx HT)
      as (scores & wei & v & Hs & Hsh & Hw & Hatt & _).
    now exists scores, wei.
  - intros scores Hsh.
    destruct (f32_weights_rows n_embd hs B T h scores Hwf Hsh HT)
      as (wei & Hw & _ & Hcausal & Hfree).
    exists wei. split; [exact Hw|].
    intros b i Hb Hi. cbn zeta.
    assert (Hrow : length (nth i (nth b scores []) []) = T).
    { destruct Hsh as [Hl Hm].
      pose proof (Forall_nth_in _ scores [] b Hm ltac:(lia)) as [Hwb Hrows].
      exact (Forall_nth_in _ _ [] i Hrows ltac:(lia)). }
    destruct (Head.decoding h) eqn:Hdec.
    + rewrite (Hcausal eq_refl b i Hb Hi).
      set (visible := firstn (S i) (nth i (nth b scores []) [])).
      assert (Hlen : length (visible ++ repeat F32.NInf (T - S i)) = T).
      { unfold visible. rewrite length_app, length_firstn, repeat_length, Hrow. lia. }
      destruct (softmax_row_cases (visible ++ repeat F32.NInf (T - S i))) as [Hyes Hno].
      rewrite Hlen in Hyes, Hno. split.
      * intros Hn. apply Hyes. now apply normalizable_masked.
      * intros Hn. apply Hno. intros H. apply Hn. now apply normalizable_masked in H.
    + rewrite (proj2 (Hfree eq_refl) b i Hb Hi).
      destruct (softmax_row_cases (nth i (nth b scores []) [])) as [Hyes Hno].
      rewrite Hrow in Hyes, Hno. now split.
Qed.

Lemma attention_rows_are_distributions_witness :
  (exists wei,
     F32.Head.attention (tiny_head true) [[[F32.Fin 1]; [F32.Fin 2]]] = Ok wei
     /\ exists ws, nth 1 (nth 0 wei []) [] = map F32.Fin ws
          /\ length ws = 2
          /\ Forall (fun w => (0 <= w <= 1)%R) ws
          /\ (Rabs (sum ws - 1) <= F32.softmax_tolerance 2)%R)
  /\ (exists wei,
        F32.Head.weights (tiny_head false) 2
          [[[F32.Fin 0; F32.PInf]; [F32.Fin 0; F32.Fin 0]]] = Ok wei
        /\ nth 0 (nth 0 wei []) [] = [F32.NaN; F32.NaN]).
Proof.
  assert (Hx : has_shape3 1 2 1 [[[F32.Fin 1]; [F32.Fin 2]]])
    by (repeat split; repeat constructor).
  assert (H1 : F32.fl 1 = F32.Fin 1) by (apply (fl_IZR 1); cbn; lia).
  assert (H2 : F32.fl 2 = F32.Fin 2) by (apply (fl_IZR 2); cbn; lia).
  split.
  - destruct (attention_rows_are_distributions 1 1 1 2 (tiny_head true)
                [[[F32.Fin 1]; [F32.Fin 2]]] (tiny_head_wf true) (le_n 1) Hx
                (fun _ => proj2 two_le_block_size))
      as [(scores & wei & Hs & Hsh & Hw & Hatt) Hall].
    destruct (Hall scores Hsh) as (wei' & Hw' & Hrows).
    rewrite Hw in Hw'. apply Ok_inj in Hw'. subst wei'.
    rewrite (tiny_scores true 1 2 H1 H2) in Hs. apply Ok_inj in Hs. subst scores.
    exists wei. split; [exact Hatt|].
    destruct (Hrows 0 1 (le_n 1) (le_n 2)) as [Hyes _]. cbn zeta in Hyes.
    destruct Hyes as [ws [E [Hl [Hu Htol]]]].
    + cbn [tiny_head Head.decoding nth firstn].
      rewrite (tiny_score_int 2 1), (tiny_score_int 2 2) by (cbn; lia).
      split; [repeat constructor; discriminate|]. left. now eexists.
    + exists ws. split; [exact E|]. split; [exact Hl|]. split; [exact Hu|].
      apply Htol. cbn. lia.
  - destruct (attention_rows_are_distributions 1 1 1 2 (tiny_head false)
                [[[F32.Fin 1]; [F32.Fin 2]]] (tiny_head_wf false) (le_n 1) Hx
                (fun _ => proj2 two_le_block_size))
      as [_ Hall].
    destruct (Hall [[[F32.Fin 0; F32.PInf]; [F32.Fin 0; F32.Fin 0]]])
      as (wei & Hw & Hrows); [repeat split; repeat constructor|].
    exists wei. split; [exact Hw|].
    destruct (Hrows 0 0 (le_n 1) ltac:(lia)) as [_ Hno]. cbn zeta in Hno.
    apply Hno. cbn [tiny_head Head.decoding nth].
    intros [Hall' _]. apply Forall_inv_tail, Forall_inv in Hall'. now destruct Hall'.
Defined.

(** ** float32: the first position of a causal head *)

Section Exact.

Local Open Scope R_scope.

(** A rounded number is a float: rounding it again changes nothing. *)
Lemma round_pos_idem (x : R) : 0 < x -> F32.rnd (F32.round_pos x) = F32.round_pos x.
Proof.
  intros Hx. unfold F32.round_pos at 2. unfold F32.round_pos. set (c := F32.cexp x).
  set (N := F32.Znearest (x * F32.pow2 (- c))).
  assert (Hc : (-149 <= c)%Z) by apply cexp_ge.
  assert (H0 : (0 <= N)%Z).
  { unfold N. rewrite <- (Znearest_IZR 0). apply Znearest_le.
    pose proof (pow2_pos (- c)). simpl. nra. }
  assert (Hhi : (N <= 2 ^ 24)%Z).
  { unfold N. rewrite <- (Znearest_IZR (2 ^ 24)). apply Znearest_le.
    rewrite <- pow2_nonneg_IZR by lia.
    destruct (mag_spec x Hx) as [_ Hm].
    apply Rle_trans with (F32.pow2 (F32.mag x) * F32.pow2 (- c)).
    - apply Rmult_le_compat_r; [left; apply pow2_pos|lra].
    - rewrite <- pow2_add. apply pow2_le. unfold c, F32.cexp. lia. }
  destruct (Z.eq_dec N (2 ^ 24)) as [E|NE].
  - rewrite E, <- pow2_nonneg_IZR, <- pow2_add by lia. apply rnd_pow2. lia.
  - apply rnd_exact; lia.
Qed.

Lemma rnd_idem (x : R) : F32.rnd (F32.rnd x) = F32.rnd x.
Proof.
  destruct (Rtotal_order x 0) as [H|[->|H]].
  - rewrite (rnd_neg x H), rnd_opp. f_equal. apply round_pos_idem. lra.
  - now rewrite !rnd_0.
  - rewrite (rnd_pos x H). now apply round_pos_idem.
Qed.

End Exact.

(** A finite result of an operation is a float of the format. *)
Lemma fl_settled (r y : R) : F32.fl r = F32.Fin y -> F32.fl y = F32.Fin y.
Proof.
  unfold F32.fl at 1. destruct (Rle_dec _ _) as [H|_].
  - intros [= <-]. unfold F32.fl. rewrite rnd_idem.
    destruct (Rle_dec _ _); [reflexivity|contradiction].
  - destruct (Rlt_dec _ _); discriminate.
Qed.

Lemma add_settled (a b : F32.t) (y : R) :
  F32.add a b = F32.Fin y -> F32.fl y = F32.Fin y.
Proof.
  destruct a as [| | |ra], b as [| | |rb]; cbn [F32.add]; try discriminate.
  apply fl_settled.
Qed.

Lemma dot_settled (a b : list F32.t) (y : R) :
  F32.dot a b = F32.Fin y -> F32.fl y = F32.Fin y.
Proof.
  unfold F32.dot, F32.sum. generalize (map2 F32.mul a b) as l. intros l.
  assert (Hgen : forall acc, (forall r, acc = F32.Fin r -> F32.fl r = F32.Fin r) ->
            fold_left F32.add l acc = F32.Fin y -> F32.fl y = F32.Fin y).
  { induction l as [|x l IH]; intros acc Hacc; cbn [fold_left].
    - apply Hacc.
    - apply IH. intros r. apply add_settled. }
  apply Hgen. intros r [= <-]. apply fl_0.
Qed.

Lemma maximum_neg_inf (k : nat) : F32.maximum (repeat F32.NInf k) = F32.NInf.
Proof. induction k as [|k IH]; [reflexivity|]. cbn [repeat F32.maximum fold_right].
  fold (F32.maximum (repeat F32.NInf k)). now rewrite IH. Qed.

Lemma fsum_zeros (k : nat) (r : R) :
  F32.fl r = F32.Fin r ->
  fold_left F32.add (repeat (F32.Fin 0) k) (F32.Fin r) = F32.Fin r.
Proof.
  intros Hr. induction k as [|k IH]; [reflexivity|]. cbn [repeat fold_left F32.add].
  now rewrite Rplus_0_r, Hr.
Qed.

(** A position that sees one finite score gives it all the weight. *)
Lemma softmax_single (a : R) (k : nat) :
  F32.softmax (F32.Fin a :: repeat F32.NInf k) = F32.Fin 1 :: repeat (F32.Fin 0) k.
Proof.
  unfold F32.softmax. cbn [F32.maximum fold_right]. fold (F32.maximum (repeat F32.NInf k)).
  rewrite maximum_neg_inf. cbn [F32.max map]. rewrite exp_sub_max.
  assert (He : map (fun x => F32.exp (F32.sub x (F32.Fin a))) (repeat F32.NInf k)
               = repeat (F32.Fin 0) k).
  { rewrite map_repeat. now rewrite exp_sub_neg_inf. }
  rewrite He. unfold F32.sum. cbn [fold_left F32.add]. rewrite Rplus_0_l, fl_1.
  rewrite (fsum_zeros k 1 fl_1). cbn [F32.div].
  destruct (Req_dec_T 1 0) as [H|_]; [exfalso; lra|].
  replace (1 / 1)%R with 1%R by lra. rewrite fl_1. f_equal.
  rewrite map_repeat. cbn [F32.div]. destruct (Req_dec_T 1 0) as [H|_]; [exfalso; lra|].
  replace (0 / 1)%R with 0%R by lra. now rewrite fl_0.
Qed.

(** The weights 1, 0, ..., 0 pick the first of finite numbers. *)
Lemma dot_one_hot (y : R) (ys : list F32.t) :
  F32.fl y = F32.Fin y -> Forall (fun e => exists r, e = F32.Fin r) ys ->
  F32.dot (F32.Fin 1 :: repeat (F32.Fin 0) (length ys)) (F32.Fin y :: ys) = F32.Fin y.
Proof.
  intros Hy Hfin. unfold F32.dot, F32.sum. cbn [map2 fold_left F32.mul F32.add].
  rewrite Rmult_1_l, Hy. cbn [F32.add]. rewrite Rplus_0_l, Hy.
  induction Hfin as [|e ys [r ->] _ IH]; [reflexivity|].
  cbn [length repeat map2 fold_left F32.mul]. rewrite Rmult_0_l, fl_0.
  cbn [F32.add]. rewrite Rplus_0_r, Hy. exact IH.
Qed.

Lemma f32_Linear_forward_settled (l : Linear.t) (x y : list F32.t) :
  F32.Linear.forward l x = Ok y -> Forall F32.is_float y.
Proof.
  unfold F32.Linear.forward. destruct (_ =? _); [|discriminate].
  intros H. apply Ok_inj in H. subst y.
  assert (Hadd : forall a b, F32.is_float (F32.add a b)).
  { intros a b. destruct (F32.add a b) as [| | |r] eqn:E; cbn [F32.is_float]; trivial.
    exact (add_settled a b r E). }
  assert (Hdot : forall a b, F32.is_float (F32.dot a b)).
  { intros a b. destruct (F32.dot a b) as [| | |r] eqn:E; cbn [F32.is_float]; trivial.
    exact (dot_settled a b r E). }
  destruct (Linear.bias l) as [bs|].
  - apply Forall_map2. intros w bo _ _. apply Hadd.
  - apply Forall_forall. intros e He. apply in_map_iff in He as [w [<- _]]. apply Hdot.
Qed.

Lemma f32_Linear_forward3_settled (l : Linear.t) (x y : list (list (list F32.t))) :
  F32.Linear.forward3 l x = Ok y -> Forall (Forall (Forall F32.is_float)) y.
Proof.
  unfold F32.Linear.forward3. intros H.
  apply (mapM_Forall _ _ _ _ H). intros m m' _ Hm.
  apply (mapM_Forall _ _ _ _ Hm). intros r r' _ Hr.
  exact (f32_Linear_forward_settled l r r' Hr).
Qed.

(** The first row of [wei @ v] when the first row of [wei] is 1, 0, ..., 0. *)
Lemma matmul_one_hot (T hs : nat) (wei v : list (list F32.t)) :
  1 <= T -> has_shape2 T T wei -> has_shape2 T hs v ->
  nth 0 wei [] = F32.Fin 1 :: repeat (F32.Fin 0) (T - 1) ->
  Forall (Forall (fun e => F32.finite e /\ F32.is_float e)) v ->
  nth 0 (F32.matmul wei v) [] = nth 0 v [].
Proof.
  intros HT1 [Hwl _] HV Hw0 Hfin.
  unfold F32.matmul. rewrite nth_map_in with (d' := []) by lia. rewrite Hw0.
  rewrite (has_shape2_shape1 T hs _ HV HT1).
  destruct HV as [HVl HVr]. revert Hfin HVl HVr.
  generalize v as V. intros [|r0 rest] Hfin HVl HVr; [cbn in HVl; lia|].
  cbn [nth] in *. cbn [length] in HVl.
  pose proof (Forall_inv HVr) as Hr0. cbn beta in Hr0.
  pose proof (Forall_inv Hfin) as Hf0. pose proof (Forall_inv_tail Hfin) as Hfrest.
  rewrite <- (map_nth_seq r0 F32.NaN) at 2. rewrite Hr0.
  unfold F32.columns. rewrite map_map. apply map_ext_in. intros j Hj.
  apply in_seq in Hj. cbn [map].
  pose proof (Forall_nth_in _ r0 F32.NaN j Hf0 ltac:(lia)) as [[y Hy] Hfl].
  rewrite Hy in Hfl |- *. cbn [F32.is_float] in Hfl.
  replace (T - 1) with (length (map (fun r => nth j r F32.NaN) rest))
    by (rewrite length_map; lia).
  apply dot_one_hot; [exact Hfl|].
  apply Forall_forall. intros e He. apply in_map_iff in He as [r [<- Hr]].
  eapply Forall_forall in Hfrest; [|exact Hr].
  apply (Forall_nth_in (fun e => F32.finite e /\ F32.is_float e) r F32.NaN j Hfrest).
  pose proof (Forall_inv_tail HVr) as Hrest.
  eapply Forall_forall in Hrest; [|exact Hr]. cbn beta in Hrest. lia.
Qed.

(** In a causal head, whatever the scores are, a first position with a
    finite score on itself gives itself the weight 1 and every other position
    the weight 0; and when the value vectors of the sequence are finite
    floats, the first position of [wei @ v], the output of the head there, is
    its value vector with no rounding error (the sign of a zero apart). *)
Theorem causal_first_position (n_embd hs B T : nat) (h : Head.t)
    (x : list (list (list F32.t))) :
  Head.wf n_embd hs h -> 1 <= hs -> Head.decoding h = true ->
  has_shape3 B T n_embd x -> 1 <= T <= block_size ->
  (exists scores wei v,
     F32.Head.scores h x = Ok scores
     /\ has_shape3 B T T scores
     /\ F32.Head.weights h T scores = Ok wei
     /\ F32.Head.attention h x = Ok wei
     /\ F32.Linear.forward3 (Head.value h) x = Ok v
     /\ has_shape3 B T hs v
     /\ Forall (Forall (Forall F32.is_float)) v
     /\ F32.Head.forward h x = Ok (map2 F32.matmul wei v))
  /\ (forall scores v : list (list (list F32.t)),
      has_shape3 B T T scores -> has_shape3 B T hs v ->
      exists wei,
        F32.Head.weights h T scores = Ok wei
        /\ forall b a, b < B -> F32.entry scores b 0 0 = F32.Fin a ->
             nth 0 (nth b wei []) [] = F32.Fin 1 :: repeat (F32.Fin 0) (T - 1)
             /\ (Forall (Forall (fun e => F32.finite e /\ F32.is_float e)) (nth b v []) ->
                 nth 0 (nth b (map2 F32.matmul wei v) []) [] = nth 0 (nth b v []) [])).
Proof.
  intros Hwf Hhs Hdec Hx [HT1 HT]. split.
  - destruct (f32_Head_forward_stages n_embd hs B T h x Hwf Hhs Hx (fun _ => HT))
      as (scores & wei & v & Hs & Hsh & Hw & Hatt & Hv & Hvsh & Hfw).
    exists scores, wei, v. repeat (split; [assumption|]).
    split; [exact (f32_Linear_forward3_settled _ _ _ Hv)|exact Hfw].
  - intros scores v Hsh Hvsh.
    destruct (f32_weights_rows n_embd hs B T h scores Hwf Hsh (fun _ => HT))
      as (wei & Hw & Hwsh & Hcausal & _).
    exists wei. split; [exact Hw|].
    intros b a Hb Ha.
    assert (Hw0 : nth 0 (nth b wei []) [] = F32.Fin 1 :: repeat (F32.Fin 0) (T - 1)).
    { rewrite (Hcausal Hdec b 0 Hb ltac:(lia)).
      destruct Hsh as [Hl Hm].
      pose proof (Forall_nth_in _ scores [] b Hm ltac:(lia)) as [Hwb Hrows].
      pose proof (Forall_nth_in _ _ [] 0 Hrows ltac:(lia)) as Hrow. cbn beta in Hrow.
      unfold F32.entry in Ha.
      destruct (nth 0 (nth b scores []) []) as [|s0 srow]; [cbn in Hrow; lia|].
      cbn [nth] in Ha. subst s0. cbn [firstn app].
      apply softmax_single. }
    split; [exact Hw0|]. intros Hfin.
    destruct Hwsh as [Hwl Hwm]. destruct Hvsh as [Hvl Hvm].
    rewrite nth_map2_in with (d1 := []) (d2 := []) by lia.
    apply (matmul_one_hot T hs); try assumption.
    + exact (Forall_nth_in _ wei [] b Hwm ltac:(lia)).
    + exact (Forall_nth_in _ v [] b Hvm ltac:(lia)).
Qed.

Lemma causal_first_position_witness :
  exists wei out,
    F32.Head.attention (tiny_head true) [[[F32.Fin 1]; [F32.Fin 2]]] = Ok wei
    /\ F32.Head.forward (tiny_head true) [[[F32.Fin 1]; [F32.Fin 2]]] = Ok out
    /\ nth 0 (nth 0 wei []) [] = [F32.Fin 1; F32.Fin 0]
    /\ nth 0 (nth 0 out []) [] = [F32.Fin 1].
Proof.
  assert (Hx : has_shape3 1 2 1 [[[F32.Fin 1]; [F32.Fin 2]]])
    by (repeat split; repeat constructor).
  assert (H1 : F32.fl 1 = F32.Fin 1) by (apply (fl_IZR 1); cbn; lia).
  assert (H2 : F32.fl 2 = F32.Fin 2) by (apply (fl_IZR 2); cbn; lia).
  destruct (causal_first_position 1 1 1 2 (tiny_head true) [[[F32.Fin 1]; [F32.Fin 2]]]
              (tiny_head_wf true) (le_n 1) eq_refl Hx two_le_block_size)
    as [(scores & wei & v & Hs & Hsh & Hw & Hatt & Hv & Hvsh & _ & Hfw) Hall].
  destruct (Hall scores v Hsh Hvsh) as (wei' & Hw' & Hfirst).
  rewrite Hw in Hw'. apply Ok_inj in Hw'. subst wei'.
  rewrite (tiny_scores true 1 2 H1 H2) in Hs. apply Ok_inj in Hs. subst scores.
  assert (Hval : v = [[[F32.Fin 1]; [F32.Fin 2]]]).
  { unfold F32.Linear.forward3 in Hv. cbn [tiny_head Head.value mapM bind] in Hv.
    rewrite !tiny_projection in Hv by assumption. cbn [bind] in Hv.
    apply Ok_inj in Hv. now subst v. }
  subst v.
  destruct (Hfirst 0 1%R (le_n 1)) as [Hw0 Hout].
  - unfold F32.entry. cbn [nth]. apply (tiny_score_int 1 1). cbn. lia.
  - exists wei, (map2 F32.matmul wei [[[F32.Fin 1]; [F32.Fin 2]]]).
    split; [exact Hatt|]. split; [exact Hfw|]. split; [exact Hw0|].
    apply Hout. cbn [nth].
    repeat constructor; try (now eexists); cbn [F32.is_float]; assumption.
Defined.

(** ** collate_batch feeds the Encoder *)

(** Whatever the lengths of the sequences, a collated batch suits the
    Encoder: its sequences have length [block_size], so the position lookup
    succeeds, and when the ids of the samples are below vocab_size, so is the
    pad id 0.  [forward] on the collated batch returns one softmax row per
    sample: NaN throughout, or numbers between 0 and 1 whose sum is 1 up to
    rounding. *)
Theorem collated_batch_suits_the_encoder
    (vocab_size n_embd n_head n_layer n_hidden n_output : nat)
    (e : Encoder.t) (batch : list (list Z * Z)) (dev : device) :
  Encoder.wf vocab_size n_embd n_head n_layer n_hidden n_output e ->
  1 <= n_head -> 1 <= n_embd -> n_embd mod n_head = 0 ->
  1 <= vocab_size -> batch <> [] ->
  Forall (fun sample => Forall (fun i => (0 <= i < Z.of_nat vocab_size)%Z) (fst sample))
         batch ->
  exists rows labels probs,
    collate_batch batch = Ok (rows, labels)
    /\ F32.Encoder.forward e rows dev None = Ok probs
    /\ has_shape2 (length batch) n_output probs
    /\ Forall (fun row =>
                 row = repeat F32.NaN n_output
                 \/ exists ps, row = map F32.Fin ps
                      /\ Forall (fun p => (0 <= p <= 1)%R) ps
                      /\ ((Z.of_nat n_output <= 2 ^ 24)%Z ->
                          (Rabs (sum ps - 1) <= F32.softmax_tolerance n_output)%R))
              probs.
Proof.
  intros Hwf Hh He Hmod Hvocab Hne Hids.
  rewrite (collate_batch_value batch Hne).
  set (rows := map (fun sample => firstn block_size (fst sample)
                                  ++ repeat 0%Z (block_size - length (fst sample))) batch).
  destruct (f32_Encoder_forward_stages vocab_size n_embd n_head n_layer n_hidden n_output
              (length batch) block_size e rows dev None Hwf Hh He Hmod)
    as (x & probs & _ & Hxsh & Hc & Hfw & Hsh).
  - split; [unfold rows; now rewrite length_map|].
    apply Forall_forall. intros row Hrow. unfold rows in Hrow.
    apply in_map_iff in Hrow as [[s l] [<- _]]. cbn [fst].
    rewrite length_app, length_firstn, repeat_length. lia.
  - apply le_n.
  - apply Forall_forall. intros row Hrow. unfold rows in Hrow.
    apply in_map_iff in Hrow as [[s l] [<- Hin]]. cbn [fst].
    eapply Forall_forall in Hids; [|exact Hin]. cbn [fst] in Hids.
    apply Forall_app. split.
    + apply Forall_forall. intros i Hi. apply firstn_In in Hi.
      eapply Forall_forall in Hids; eassumption.
    + apply Forall_repeat. lia.
  - destruct Hwf as (_ & _ & _ & _ & (Hln & _ & _) & Hcls).
    destruct (f32_classify_value n_embd n_hidden n_output (length batch) block_size
                e x Hln Hcls He Hxsh)
      as (logits & probs' & _ & _ & _ & _ & Hc' & _ & _ & Hrows & _).
    rewrite Hc in Hc'. apply Ok_inj in Hc'. subst probs'.
    exists rows, (map snd batch), probs.
    split; [reflexivity|]. split; [exact Hfw|]. split; [exact Hsh|].
    destruct Hsh as [Hpl Hpr].
    apply Forall_forall. intros row Hrow.
    destruct (In_nth _ _ [] Hrow) as [b [Hb Hnth]]. rewrite Hpl in Hb.
    destruct (Hrows b Hb) as [Hyes Hno]. rewrite Hnth in Hyes, Hno.
    destruct (normalizable_or_not (nth b logits [])) as [Hn|Hn].
    + right. exact (Hyes Hn).
    + left. exact (Hno Hn).
Qed.

Lemma collated_batch_suits_the_encoder_witness :
  exists rows labels probs,
    collate_batch [([1; 0; 1]%Z, 1%Z); (repeat 1%Z 40, 0%Z)] = Ok (rows, labels)
    /\ F32.Encoder.forward tiny_encoder rows cpu None = Ok probs
    /\ has_shape2 2 2 probs
    /\ Forall (fun row =>
                 row = repeat F32.NaN 2
                 \/ exists ps, row = map F32.Fin ps
                      /\ Forall (fun p => (0 <= p <= 1)%R) ps
                      /\ ((Z.of_nat 2 <= 2 ^ 24)%Z ->
                          (Rabs (sum ps - 1) <= F32.softmax_tolerance 2)%R))
              probs.
Proof.
  apply (collated_batch_suits_the_encoder 2 1 1 1 1 2 tiny_encoder
           [([1; 0; 1]%Z, 1%Z); (repeat 1%Z 40, 0%Z)] cpu tiny_encoder_wf
           (le_n 1) (le_n 1) eq_refl (le_S 1 1 (le_n 1))).
  - discriminate.
  - constructor; [repeat constructor; lia|]. constructor; [|constructor].
    cbn [fst]. apply Forall_repeat. lia.
Defined.
